(** * minorminer: the seeded generator, the pairing heap and the Python front end

    A shallow embedding of three source files of the repository:

    - [include/fastrng.hpp]: the xorshift128+ generator [fastrng];
    - the pairing-queue header: [pairing_queue] over [plain_node] and
      [pairing_queue_fast_reset] over [time_node];
    - [python/minorminer.pyx]: [find_embedding], [_input_parser] and
      [quality_key].

    Unsigned machine integers are [Z] with the reduction modulo [2^w] written
    out; the node arena of the heap is a [list] indexed by key, and a node
    pointer is [option nat] ([None] is [nullptr], [Some i] is
    [nodes.data() + i]). *)

From Stdlib Require Import ZArith Lia.
From stdpp Require Import base tactics option list strings sorting.

Local Open Scope Z_scope.

(** ** include/fastrng.hpp *)

Module Fastrng.

Definition wrap64 (z : Z) : Z := z mod 2 ^ 64.
Definition wrap32 (z : Z) : Z := z mod 2 ^ 32.

(** The two private members [S0] and [S1]. *)
Record fastrng := mk_fastrng { S0 : Z; S1 : Z }.

Definition set_S0 (v : Z) (g : fastrng) : fastrng := {| S0 := v; S1 := S1 g |}.
Definition set_S1 (v : Z) (g : fastrng) : fastrng := {| S0 := S0 g; S1 := v |}.

(** [splitmix64(uint64_t &x)]: the result and the updated [x]. *)
Definition splitmix64 (x : Z) : Z * Z :=
  let x := wrap64 (x + 0x9E3779B97F4A7C15) in
  let z := x in
  let z := wrap64 (Z.lxor z (Z.shiftr z 30) * 0xBF58476D1CE4E5B9) in
  let z := wrap64 (Z.lxor z (Z.shiftr z 27) * 0x94D049BB133111EB) in
  (Z.lxor z (Z.shiftr z 31), x).

(** [splitmix32(uint32_t &x)]: the result and the updated [x].  The
    intermediate products are computed in [unsigned long] and truncated to
    32 bits by the assignment to [z]. *)
Definition splitmix32 (x : Z) : Z * Z :=
  let x := wrap32 (x + 0x6D2B79F5) in
  let z := x in
  let z := wrap32 (Z.lxor z (Z.shiftr z 15) * Z.lor z 1) in
  let z := wrap32 (Z.lxor z (z + Z.lxor z (Z.shiftr z 7) * Z.lor z 61)) in
  (Z.lxor z (Z.shiftr z 14), x).

(** The state transition shared by [operator()] and the body of the loop of
    [discard]; both are spelled out below as the source spells them. *)
Definition call (g : fastrng) : Z * fastrng :=
  let x := S0 g in
  let y := S1 g in
  let g := set_S0 y g in
  let x := Z.lxor x (wrap64 (Z.shiftl x 23)) in
  let g := set_S1 (Z.lxor (Z.lxor (Z.lxor x y) (Z.shiftr x 17)) (Z.shiftr y 26)) g in
  (wrap64 (S1 g + y), g).

Definition discard_body (g : fastrng) : fastrng :=
  let x := S0 g in
  let y := S1 g in
  let g := set_S0 y g in
  let x := Z.lxor x (wrap64 (Z.shiftl x 23)) in
  set_S1 (Z.lxor (Z.lxor (Z.lxor x y) (Z.shiftr x 17)) (Z.shiftr y 26)) g.

(** [while (n-- > 0) { ... }]: the test reads [n], then [n] is decremented. *)
Fixpoint discard_loop (fuel : nat) (n : Z) (g : fastrng) : fastrng :=
  match fuel with
  | O => g
  | S fuel' => if 0 <? n then discard_loop fuel' (n - 1) (discard_body g) else g
  end.

Definition discard (n : Z) (g : fastrng) : fastrng :=
  discard_loop (Z.to_nat n) n g.

(** [seed(uint64_t x)] on an object whose members hold anything at all (the
    constructor [fastrng() {}] leaves them uninitialised). *)
Definition seed (x : Z) (g : fastrng) : fastrng :=
  let '(r, x) := splitmix64 x in
  let g := set_S0 r g in
  let '(r, x) := splitmix64 x in
  let g := set_S1 r g in
  discard 1024 g.

(** [seed(uint32_t x)]. *)
Definition seed32 (x : Z) (g : fastrng) : fastrng :=
  let '(a, x) := splitmix32 x in
  let '(b, x) := splitmix32 x in
  let b := wrap64 (Z.shiftl b 32) in
  let b := wrap64 (b + a) in
  seed b g.

(** [n] successive calls of [operator()]: the outputs in order, and the
    generator afterwards. *)
Fixpoint draw (n : nat) (g : fastrng) : list Z * fastrng :=
  match n with
  | O => ([], g)
  | S n' =>
      let '(r, g) := call g in
      let '(rs, g) := draw n' g in
      (r :: rs, g)
  end.

Definition INT_MAX : Z := 2 ^ 31 - 1.

End Fastrng.

(** ** The pairing-queue header

    [vector<N> nodes] is a [list] of nodes and a pointer [N*] is [option nat]:
    [None] for [nullptr], [Some i] for [nodes.data() + i], so that the address
    comparison [this < &b] of [operator<] is the comparison of indices and
    [key(n)] is the index itself.  The priority type [P] is an integer type:
    a priority is a [Z], and [max_P] stands for [numeric_limits<P>::max()].
    [minorminer_assert] is taken as it expands without [CPPDEBUG], to
    nothing; what the assertions guard against shows up as [Undefined] where
    the code dereferences a null pointer. *)

Module PairingQueue.

Definition ptr := option nat.

(** [plain_node<P>] is [node unit]; [time_node<P>] is [node Z], whose extra
    member is [time]. *)
Record node (X : Type) := mk_node {
  val : Z;
  next : ptr;
  desc : ptr;
  prev : ptr;
  ext : X
}.
Arguments mk_node {X} _ _ _ _ _.
Arguments val {X} _.
Arguments next {X} _.
Arguments desc {X} _.
Arguments prev {X} _.
Arguments ext {X} _.

Definition plain_node := node unit.
Definition time_node := node Z.
Definition time (n : time_node) : Z := ext n.

Definition set_val {X} (v : Z) (n : node X) : node X := mk_node v (next n) (desc n) (prev n) (ext n).
Definition set_next {X} (p : ptr) (n : node X) : node X := mk_node (val n) p (desc n) (prev n) (ext n).
Definition set_desc {X} (p : ptr) (n : node X) : node X := mk_node (val n) (next n) p (prev n) (ext n).
Definition set_prev {X} (p : ptr) (n : node X) : node X := mk_node (val n) (next n) (desc n) p (ext n).
Definition set_ext {X} (x : X) (n : node X) : node X := mk_node (val n) (next n) (desc n) (prev n) x.

(** What a call can come to: a result, undefined behaviour (a null or
    out-of-range pointer is dereferenced, or a signed counter overflows), or
    a loop that has not finished within the iteration bound of the model. *)
Inductive outcome (A : Type) :=
  | Done (a : A)
  | Undefined
  | Timeout.
Arguments Done {A} _.
Arguments Undefined {A}.
Arguments Timeout {A}.

(** [pairing_queue<P, N>]: the members [nodes] and [root]. *)
Record pairing_queue (X : Type) := mk_queue {
  nodes : list (node X);
  root : ptr
}.
Arguments mk_queue {X} _ _.
Arguments nodes {X} _.
Arguments root {X} _.

(** Member functions are state transformers over the object [S]. *)
Definition M (S A : Type) : Type := S → outcome (A * S).

Definition ret {S A} (a : A) : M S A := λ s, Done (a, s).
Definition bind {S A B} (m : M S A) (f : A → M S B) : M S B :=
  λ s, match m s with
       | Done (a, s') => f a s'
       | Undefined => Undefined
       | Timeout => Timeout
       end.
Definition undefined {S A} : M S A := λ _, Undefined.
Definition timeout {S A} : M S A := λ _, Timeout.

Declare Scope heap_scope.
Delimit Scope heap_scope with heap.
Notation "'do' x <- m ; k" := (bind m (λ x, k))
  (at level 10, x name, m at level 100, k at level 200) : heap_scope.
Notation "m >> k" := (bind m (λ _, k))
  (at level 100, k at level 200, right associativity) : heap_scope.
Local Open Scope heap_scope.

Section Queue.
Context {X : Type}.

(** [numeric_limits<P>::max()], the macro [max_P]. *)
Variable max_P : Z.

Abbreviation Q := (M (pairing_queue X)).

Definition load (n : nat) : Q (node X) :=
  λ q, match nodes q !! n with
       | Some x => Done (x, q)
       | None => Undefined
       end.

Definition modify (n : nat) (f : node X → node X) : Q unit :=
  λ q, match nodes q !! n with
       | Some x => Done (tt, mk_queue (<[n := f x]> (nodes q)) (root q))
       | None => Undefined
       end.

Definition get_root : Q ptr := λ q, Done (root q, q).
Definition set_root (p : ptr) : Q unit := λ q, Done (tt, mk_queue (nodes q) p).
Definition size : Q nat := λ q, Done (length (nodes q), q).

(** The pointer is dereferenced: null is undefined behaviour. *)
Definition deref (p : ptr) : Q nat :=
  match p with
  | Some n => ret n
  | None => undefined
  end.

(** [*a < *b], the [operator<] of both node types. *)
Definition node_lt (a b : nat) : Q bool :=
  do x <- load a;
  do y <- load b;
  ret (bool_decide (val x < val y)
       || (bool_decide (val x = val y) && bool_decide (a < b)%nat)).

(** [has(int k)]. *)
Definition has (k : Z) : Q bool :=
  do n <- size;
  ret (bool_decide (0 <= k) && bool_decide (k < Z.of_nat n)).

(** [key(N *n)]: [n - nodes.data()]. *)
Definition key (n : nat) : Z := Z.of_nat n.

(** [node(int k)] and [const_node(int k)]: the address [nodes.data() + k],
    which exists only when [has(k)]. *)
Definition node_at (k : Z) : Q nat :=
  do ok <- has k;
  if ok then ret (Z.to_nat k) else undefined.

(** The protected [reset(N *n)] and [reset(N *n, P v)] of the base class. *)
Definition reset_node (n : nat) : Q unit :=
  modify n (set_desc None) >>
  modify n (set_next None) >>
  modify n (set_prev (Some n)).

Definition reset_node_val (n : nat) (v : Z) : Q unit :=
  reset_node n >>
  modify n (set_val v).

(** [for (auto &n : nodes) body(&n)]. *)
Fixpoint for_nodes (body : nat → Q unit) (ns : list nat) : Q unit :=
  match ns with
  | [] => ret tt
  | n :: ns => body n >> for_nodes body ns
  end.

Definition reset_fill (v : Z) : Q unit :=
  set_root None >>
  do n <- size;
  for_nodes (λ i, reset_node_val i v) (seq 0 n).

Definition reset : Q unit := reset_fill max_P.

Definition merge_roots_unchecked (a b : nat) : Q nat :=
  do xa <- load a;
  let c := desc xa in
  modify b (set_next c) >>
  (match c with
   | Some c => modify c (set_prev (Some b))
   | None => ret tt
   end) >>
  modify b (set_prev (Some a)) >>
  modify a (set_desc (Some b)) >>
  ret a.

Definition merge_roots_unsafe (a b : nat) : Q nat :=
  do lt <- node_lt a b;
  if lt then merge_roots_unchecked a b else merge_roots_unchecked b a.

Definition merge_roots (a : nat) (b : ptr) : Q nat :=
  match b with
  | None => ret a
  | Some b =>
      do c <- merge_roots_unsafe a b;
      modify c (set_prev None) >>
      ret c
  end.

(** The [do ... while (!empty(a))] loop of [merge_pairs]: [a] is the next
    sibling to pair up, [r] the head of the list of merged pairs, chained
    through [prev].  It returns [r] as the loop leaves it. *)
Fixpoint merge_pairs_pass1 (fuel : nat) (a : nat) (r : ptr) : Q ptr :=
  match fuel with
  | O => timeout
  | S fuel =>
      do xa <- load a;
      match next xa with
      | Some b =>
          do xb <- load b;
          let c := next xb in
          do b <- merge_roots_unsafe a b;
          modify b (set_prev r) >>
          let r := Some b in
          match c with
          | Some a => merge_pairs_pass1 fuel a r
          | None => ret r
          end
      | None =>
          modify a (set_prev r) >>
          ret (Some a)
      end
  end.

(** The [while (!empty(r))] loop of [merge_pairs]. *)
Fixpoint merge_pairs_pass2 (fuel : nat) (a : nat) (r : ptr) : Q nat :=
  match r with
  | None => ret a
  | Some r =>
      match fuel with
      | O => timeout
      | S fuel =>
          do xr <- load r;
          let t := prev xr in
          do a <- merge_roots_unsafe a r;
          merge_pairs_pass2 fuel a t
      end
  end.

(** [merge_pairs(a)].  Each loop visits a sibling at most once when the
    sibling list is a list, so one more iteration than there are nodes is
    allowed before the model gives up with [Timeout]. *)
Definition merge_pairs (a : ptr) : Q ptr :=
  match a with
  | None => ret None
  | Some a =>
      do n <- size;
      do r <- merge_pairs_pass1 (S n) a None;
      do a <- deref r;
      do xa <- load a;
      let r := prev xa in
      do a <- merge_pairs_pass2 (S n) a r;
      ret (Some a)
  end.

(** [empty()]. *)
Definition empty : Q bool :=
  do r <- get_root;
  ret (bool_decide (r = None)).

Definition delete_min : Q bool :=
  do r <- get_root;
  match r with
  | None => ret false
  | Some r =>
      do xr <- load r;
      do newroot <-
        match desc xr with
        | Some d =>
            do newroot <- merge_pairs (Some d);
            do n <- deref newroot;
            modify n (set_prev None) >>
            modify n (set_next None) >>
            ret newroot
        | None => ret None
        end;
      reset_node r >>
      set_root newroot >>
      ret true
  end.

Definition min_value : Q Z :=
  do r <- get_root;
  do n <- deref r;
  do x <- load n;
  ret (val x).

Definition min_key : Q Z :=
  do r <- get_root;
  do n <- deref r;
  ret (key n).

(** [pop_min(int &key, P &value)]: the arguments are what the two variables
    hold at the call, the result carries what they hold afterwards. *)
Definition pop_min (key value : Z) : Q (bool * Z * Z) :=
  do e <- empty;
  if e then ret (false, key, value)
  else
    do key <- min_key;
    do value <- min_value;
    delete_min >>
    ret (true, key, value).

Definition remove (a : nat) : Q unit :=
  do xa <- load a;
  let b := prev xa in
  let c := next xa in
  do b <- deref b;
  do xb <- load b;
  (if bool_decide (desc xb = Some a)
   then modify b (set_desc c)
   else modify b (set_next c)) >>
  match c with
  | Some c =>
      modify c (set_prev (Some b)) >>
      modify a (set_next None)
  | None => ret tt
  end.

Definition decrease (a : nat) : Q unit :=
  do xa <- load a;
  match prev xa with
  | Some _ =>
      remove a >>
      do r <- get_root;
      do r <- merge_roots a r;
      set_root (Some r)
  | None => ret tt
  end.

(** The protected overloads on [N *n]. *)
Definition decrease_value_node (n : nat) (v : Z) : Q unit :=
  modify n (set_val v) >>
  decrease n.

Definition check_decrease_value_node (n : nat) (v : Z) : Q bool :=
  do x <- load n;
  if bool_decide (v < val x) then
    modify n (set_val v) >>
    decrease n >>
    ret true
  else ret false.

Definition set_value_node (n : nat) (v : Z) : Q unit :=
  do x <- load n;
  if bool_decide (prev x = Some n) then
    modify n (set_val v) >>
    do r <- get_root;
    do r <- merge_roots n r;
    set_root (Some r)
  else if bool_decide (v < val x) then
    modify n (set_val v) >>
    decrease n
  else if bool_decide (val x < v) then
    modify n (set_val v) >>
    remove n >>
    do r <- get_root;
    do r <- merge_roots n r;
    set_root (Some r)
  else ret tt.

Definition set_value_unsafe_node (n : nat) (v : Z) : Q unit :=
  modify n (set_val v).

(** The public overloads on [int k]. *)
Definition decrease_value (k : Z) (v : Z) : Q unit :=
  do n <- node_at k; decrease_value_node n v.

Definition check_decrease_value (k : Z) (v : Z) : Q bool :=
  do n <- node_at k; check_decrease_value_node n v.

Definition set_value (k : Z) (v : Z) : Q unit :=
  do n <- node_at k; set_value_node n v.

Definition set_value_unsafe (k : Z) (v : Z) : Q unit :=
  do n <- node_at k; set_value_unsafe_node n v.

Definition value (k : Z) : Q Z :=
  do n <- node_at k;
  do x <- load n;
  ret (val x).

End Queue.

(** The constructor [pairing_queue(int n) : nodes(n), root(nullptr)]: the
    vector value-initialises its [n] nodes, so every member is zero. *)
Definition new_queue {X} (zero : X) (n : nat) : pairing_queue X :=
  mk_queue (replicate n (mk_node 0 None None None zero)) None.

Definition INT_MAX : Z := 2 ^ 31 - 1.

(** [pairing_queue_fast_reset<P, N>]: the base-class object and the member
    [int now]. *)
Record pairing_queue_fast_reset := mk_fast {
  super : pairing_queue Z;
  now : Z
}.

Abbreviation F := (M pairing_queue_fast_reset).

(** A member function of the base class called on the derived object. *)
Definition lift {A} (m : M (pairing_queue Z) A) : F A :=
  λ s, match m (super s) with
       | Done (a, q) => Done (a, mk_fast q (now s))
       | Undefined => Undefined
       | Timeout => Timeout
       end.

Definition get_now : F Z := λ s, Done (now s, s).
Definition set_now (t : Z) : F unit := λ s, Done (tt, mk_fast (super s) t).

Module FastReset.
Section FastReset.

Variable max_P : Z.

(** The protected [reset(N *n)] of the derived class. *)
Definition reset_node (n : nat) : F unit :=
  lift (PairingQueue.reset_node n) >>
  do t <- get_now;
  lift (modify n (set_ext t)).

Definition current (n : nat) : F bool :=
  do x <- lift (load n);
  do t <- get_now;
  if bool_decide (time x ≠ t) then
    reset_node n >>
    ret false
  else ret true.

(** [reset()]: [now++] yields the old value and is undefined when the
    [int] overflows. *)
Definition reset : F unit :=
  lift (set_root None) >>
  do t <- get_now;
  (if bool_decide (t = INT_MAX) then undefined else set_now (t + 1)) >>
  if bool_decide (t = 0) then
    do n <- lift size;
    lift (for_nodes (λ i, modify i (set_ext 0)) (seq 0 n))
  else ret tt.

Definition set_value_unsafe (k : Z) (v : Z) : F unit :=
  do n <- lift (node_at k);
  current n >>
  lift (set_value_unsafe_node n v).

Definition set_value (k : Z) (v : Z) : F unit :=
  do n <- lift (node_at k);
  do c <- current n;
  if c then lift (set_value_node n v)
  else
    lift (modify n (set_val v)) >>
    do r <- lift get_root;
    do r <- lift (merge_roots n r);
    lift (set_root (Some r)).

Definition check_decrease_value (k : Z) (v : Z) : F bool :=
  do n <- lift (node_at k);
  do c <- current n;
  if c then lift (check_decrease_value_node n v)
  else
    lift (set_value_node n v) >>
    ret true.

Definition get_value (k : Z) : F Z :=
  do n <- lift (node_at k);
  do x <- lift (load n);
  do t <- get_now;
  if bool_decide (time x = t) then ret (val x) else ret max_P.

End FastReset.

(** [pairing_queue_fast_reset(int n) : super(n), now(0)]. *)
Definition new_queue (n : nat) : pairing_queue_fast_reset :=
  mk_fast (PairingQueue.new_queue 0 n) 0.

End FastReset.

(** *** The public interface as data

    A call of a public member function, and what the caller sees of it. *)
Inductive op :=
  | Reset
  | ResetFill (v : Z)
  | Has (k : Z)
  | DeleteMin
  | PopMin (key value : Z)
  | DecreaseValue (k v : Z)
  | CheckDecreaseValue (k v : Z)
  | SetValue (k v : Z)
  | SetValueUnsafe (k v : Z)
  | MinValue
  | MinKey
  | Empty
  | Value (k : Z).

Inductive obs :=
  | OUnit
  | OBool (b : bool)
  | OVal (z : Z)
  | OPop (b : bool) (key value : Z).

Definition obs_unit {S} (m : M S unit) : M S obs := m >> ret OUnit.
Definition obs_bool {S} (m : M S bool) : M S obs := do b <- m; ret (OBool b).
Definition obs_val {S} (m : M S Z) : M S obs := do z <- m; ret (OVal z).
Definition obs_pop {S} (m : M S (bool * Z * Z)) : M S obs :=
  do r <- m; ret (OPop r.1.1 r.1.2 r.2).

Section Calls.
Variable max_P : Z.

(** A call on a [pairing_queue<P, plain_node<P>>] (or any node type). *)
Definition call {X} (o : op) : M (pairing_queue X) obs :=
  match o with
  | Reset => obs_unit (reset max_P)
  | ResetFill v => obs_unit (reset_fill v)
  | Has k => obs_bool (has k)
  | DeleteMin => obs_bool delete_min
  | PopMin key value => obs_pop (pop_min key value)
  | DecreaseValue k v => obs_unit (decrease_value k v)
  | CheckDecreaseValue k v => obs_bool (check_decrease_value k v)
  | SetValue k v => obs_unit (set_value k v)
  | SetValueUnsafe k v => obs_unit (set_value_unsafe k v)
  | MinValue => obs_val min_value
  | MinKey => obs_val min_key
  | Empty => obs_bool empty
  | Value k => obs_val (value k)
  end.

(** A call on a [pairing_queue_fast_reset]: the derived class hides
    [reset], [set_value_unsafe], [set_value] and [check_decrease_value] and
    adds [get_value]; the rest is inherited. *)
Inductive fast_op :=
  | Base (o : op)
  | GetValue (k : Z).

Definition fast_call (o : fast_op) : F obs :=
  match o with
  | Base Reset => obs_unit FastReset.reset
  | Base (SetValueUnsafe k v) => obs_unit (FastReset.set_value_unsafe k v)
  | Base (SetValue k v) => obs_unit (FastReset.set_value k v)
  | Base (CheckDecreaseValue k v) => obs_bool (FastReset.check_decrease_value k v)
  | Base o => lift (call o)
  | GetValue k => obs_val (FastReset.get_value max_P k)
  end.

(** A sequence of calls, with what each returned. *)
Fixpoint run {S O} (f : O → M S obs) (os : list O) : M S (list obs) :=
  match os with
  | [] => ret []
  | o :: os =>
      do r <- f o;
      do rs <- run f os;
      ret (r :: rs)
  end.

End Calls.

(** The states of a [pairing_queue_fast_reset] that a program can reach:
    the constructor, then public calls that return. *)
Inductive reachable (max_P : Z) : pairing_queue_fast_reset → Prop :=
  | reach_new (n : nat) : reachable max_P (FastReset.new_queue n)
  | reach_call (s : pairing_queue_fast_reset) (o : fast_op) (r : obs)
      (s' : pairing_queue_fast_reset) :
      reachable max_P s →
      fast_call max_P o s = Done (r, s') →
      reachable max_P s'.

(** What the caller saw, without the final state. *)
Definition observed {A S} (r : outcome (A * S)) : outcome A :=
  match r with
  | Done (a, _) => Done a
  | Undefined => Undefined
  | Timeout => Timeout
  end.

End PairingQueue.

(** ** python/minorminer.pyx *)

Module Minorminer.

(** *** Python values

    Node labels are hashable Python objects: integers, strings and tuples of
    labels are enough for what the front end does with them. *)
#[local] Unset Elimination Schemes.
Inductive label :=
  | LInt (z : Z)
  | LStr (s : string)
  | LTuple (l : list label).
#[local] Set Elimination Schemes.

Fixpoint label_eqb (a b : label) : bool :=
  match a, b with
  | LInt x, LInt y => bool_decide (x = y)
  | LStr x, LStr y => bool_decide (x = y)
  | LTuple xs, LTuple ys =>
      (fix go (xs ys : list label) : bool :=
         match xs, ys with
         | [], [] => true
         | x :: xs, y :: ys => label_eqb x y && go xs ys
         | _, _ => false
         end) xs ys
  | _, _ => false
  end.

(** A Python [dict]: the items in insertion order, keys unique. *)
Definition dict (K V : Type) : Type := list (K * V).

Section Dict.
Context {K V : Type} (eqb : K → K → bool).

(** [d.get(k)], [None] when the key is missing. *)
Fixpoint dict_get (d : dict K V) (k : K) : option V :=
  match d with
  | [] => None
  | (k', v) :: d => if eqb k' k then Some v else dict_get d k
  end.

(** [d[k] = v]. *)
Fixpoint dict_set (d : dict K V) (k : K) (v : V) : dict K V :=
  match d with
  | [] => [(k, v)]
  | (k', v') :: d => if eqb k' k then (k', v) :: d else (k', v') :: dict_set d k v
  end.

Definition dict_keys (d : dict K V) : list K := d.*1.
Definition dict_values (d : dict K V) : list V := d.*2.

End Dict.

Definition str_eqb (a b : string) : bool := bool_decide (a = b).
Definition int_eqb (a b : Z) : bool := bool_decide (a = b).

(** Values of the keyword arguments. *)
Inductive pyvalue :=
  | PNum (z : Z)
  | PChains (d : dict label (list label))
  | PSuspend (d : dict label (list (list label)))
  | PNone.

Inductive exn :=
  | ValueError (msg : string) (arg : label)
  | RuntimeError (msg : string)
  | TypeError
  | IndexError.

(** What a call does besides computing: reading the operating system's
    entropy, parsing an edge list, running the heuristic. *)
Inductive event :=
  | Urandom
  | ReadGraph (edges : list (label * label))
  | FindEmbedding.

(** A computation that logs events and returns or raises. *)
Definition Py (A : Type) : Type := (list event * (exn + A))%type.

Definition py_ret {A} (a : A) : Py A := ([], inr a).
Definition py_bind {A B} (m : Py A) (f : A → Py B) : Py B :=
  match m with
  | (t, inl e) => (t, inl e)
  | (t, inr a) => let '(t', r) := f a in (t ++ t', r)
  end.
Definition raise {A} (e : exn) : Py A := ([], inl e).
Definition emit (ev : event) : Py unit := ([ev], inr tt).

Declare Scope py_scope.
Delimit Scope py_scope with py.
Notation "'py' x <- m ; k" := (py_bind m (λ x, k))
  (at level 10, x name, m at level 100, k at level 200) : py_scope.
Notation "'py' ' p <- m ; k" := (py_bind m (λ x, match x with p => k end))
  (at level 10, p pattern, m at level 100, k at level 200) : py_scope.
Notation "m >>> k" := (py_bind m (λ _, k))
  (at level 100, k at level 200, right associativity) : py_scope.
Local Open Scope py_scope.

(** [int(x)] and [float(x)] on a keyword argument; doubles are kept as the
    numbers they were converted from. *)
Definition py_int (x : pyvalue) : Py Z :=
  match x with
  | PNum z => py_ret z
  | _ => raise TypeError
  end.

(** Modelled from the spec: [labeldict] (declared in [minorminer.pxi], which
    is not part of the sources at hand), the insertion-ordered bidirectional
    table between labels and dense ids: a label's id is its position. *)
Definition labeldict := list label.

Fixpoint ld_find (L : labeldict) (a : label) : option nat :=
  match L with
  | [] => None
  | b :: L => if label_eqb b a then Some O else S <$> ld_find L a
  end.

(** [a in L]. *)
Definition ld_mem (L : labeldict) (a : label) : bool :=
  bool_decide (is_Some (ld_find L a)).

(** [L[a]]: the id of [a], which is entered at the end when it is new. *)
Definition ld_getitem (L : labeldict) (a : label) : nat * labeldict :=
  match ld_find L a with
  | Some i => (i, L)
  | None => (length L, L ++ [a])
  end.

(** [L.label(v)]. *)
Definition ld_label (L : labeldict) (v : nat) : Py label :=
  match L !! v with
  | Some a => py_ret a
  | None => raise IndexError
  end.

(** Modelled from the spec: [input_graph] (a C++ class of the core), of
    which the front end uses [push_back(a, b)] only: the edges in order. *)
Definition input_graph := list (nat * nat).

(** [chainmap], a [std::map<int, vector<int>>]: [insert] keeps the entry
    that is already there. *)
Definition chainmap := dict nat (list nat).
Definition nat_eqb (a b : nat) : bool := bool_decide (a = b).
Definition chainmap_insert (m : chainmap) (k : nat) (c : list nat) : chainmap :=
  match dict_get nat_eqb m k with
  | Some _ => m
  | None => m ++ [(k, c)]
  end.

(** Modelled from the spec: [optional_parameters] (a C++ class of the core),
    as the fields that the front end assigns, with the defaults of the
    option table ([None] where the default is infinite or fresh entropy). *)
Record optional_parameters := mk_opts {
  max_no_improvement : Z;
  skip_initialization : Z;
  chainlength_patience : Z;
  random_seed : option Z;
  tries : Z;
  verbose : Z;
  inner_rounds : option Z;
  timeout : Z;
  max_beta : option Z;
  return_overlap : Z;
  max_fill : option Z;
  threads : Z;
  fixed_chains : chainmap;
  initial_chains : chainmap;
  restrict_chains : chainmap
}.

Definition default_opts : optional_parameters :=
  mk_opts 10 0 10 None 10 0 None 1000 None 0 None 1 [] [] [].

(** [_input_parser]: the [cdef] attributes. *)
Record _input_parser := mk_parser {
  Sg : input_graph;
  Tg : input_graph;
  SL : labeldict;
  TL : labeldict;
  opts : optional_parameters;
  pincount : Z
}.

Definition names : list string :=
  ["max_no_improvement"; "random_seed"; "timeout"; "tries"; "verbose";
   "fixed_chains"; "initial_chains"; "max_fill"; "chainlength_patience";
   "return_overlap"; "skip_initialization"; "inner_rounds"; "threads";
   "restrict_chains"; "suspend_chains"; "max_beta"]%string.

Definition mem_str (x : string) (l : list string) : bool :=
  bool_decide (x ∈ l).

(** [for name in params: if name not in names: raise ValueError(...)]. *)
Fixpoint check_names (keys : list string) : Py unit :=
  match keys with
  | [] => py_ret tt
  | name :: keys =>
      if mem_str name names then check_names keys
      else raise (ValueError "%s is not a valid parameter for find_embedding" (LStr name))
  end.

(** [try: self.opts.f = int(params[key]) / except KeyError: pass]. *)
Definition opt_int (params : dict string pyvalue) (key : string)
    (set : Z → optional_parameters → optional_parameters)
    (o : optional_parameters) : Py optional_parameters :=
  match dict_get str_eqb params key with
  | Some x => py x <- py_int x; py_ret (set x o)
  | None => py_ret o
  end.

Definition set_max_no_improvement (x : Z) (o : optional_parameters) :=
  mk_opts x (skip_initialization o) (chainlength_patience o) (random_seed o) (tries o)
    (verbose o) (inner_rounds o) (timeout o) (max_beta o) (return_overlap o) (max_fill o)
    (threads o) (fixed_chains o) (initial_chains o) (restrict_chains o).
Definition set_skip_initialization (x : Z) (o : optional_parameters) :=
  mk_opts (max_no_improvement o) x (chainlength_patience o) (random_seed o) (tries o)
    (verbose o) (inner_rounds o) (timeout o) (max_beta o) (return_overlap o) (max_fill o)
    (threads o) (fixed_chains o) (initial_chains o) (restrict_chains o).
Definition set_chainlength_patience (x : Z) (o : optional_parameters) :=
  mk_opts (max_no_improvement o) (skip_initialization o) x (random_seed o) (tries o)
    (verbose o) (inner_rounds o) (timeout o) (max_beta o) (return_overlap o) (max_fill o)
    (threads o) (fixed_chains o) (initial_chains o) (restrict_chains o).
Definition set_seed (x : Z) (o : optional_parameters) :=
  mk_opts (max_no_improvement o) (skip_initialization o) (chainlength_patience o) (Some x)
    (tries o) (verbose o) (inner_rounds o) (timeout o) (max_beta o) (return_overlap o)
    (max_fill o) (threads o) (fixed_chains o) (initial_chains o) (restrict_chains o).
Definition set_tries (x : Z) (o : optional_parameters) :=
  mk_opts (max_no_improvement o) (skip_initialization o) (chainlength_patience o)
    (random_seed o) x (verbose o) (inner_rounds o) (timeout o) (max_beta o)
    (return_overlap o) (max_fill o) (threads o) (fixed_chains o) (initial_chains o)
    (restrict_chains o).
Definition set_verbose (x : Z) (o : optional_parameters) :=
  mk_opts (max_no_improvement o) (skip_initialization o) (chainlength_patience o)
    (random_seed o) (tries o) x (inner_rounds o) (timeout o) (max_beta o)
    (return_overlap o) (max_fill o) (threads o) (fixed_chains o) (initial_chains o)
    (restrict_chains o).
Definition set_inner_rounds (x : Z) (o : optional_parameters) :=
  mk_opts (max_no_improvement o) (skip_initialization o) (chainlength_patience o)
    (random_seed o) (tries o) (verbose o) (Some x) (timeout o) (max_beta o)
    (return_overlap o) (max_fill o) (threads o) (fixed_chains o) (initial_chains o)
    (restrict_chains o).
Definition set_timeout (x : Z) (o : optional_parameters) :=
  mk_opts (max_no_improvement o) (skip_initialization o) (chainlength_patience o)
    (random_seed o) (tries o) (verbose o) (inner_rounds o) x (max_beta o)
    (return_overlap o) (max_fill o) (threads o) (fixed_chains o) (initial_chains o)
    (restrict_chains o).
Definition set_max_beta (x : Z) (o : optional_parameters) :=
  mk_opts (max_no_improvement o) (skip_initialization o) (chainlength_patience o)
    (random_seed o) (tries o) (verbose o) (inner_rounds o) (timeout o) (Some x)
    (return_overlap o) (max_fill o) (threads o) (fixed_chains o) (initial_chains o)
    (restrict_chains o).
Definition set_return_overlap (x : Z) (o : optional_parameters) :=
  mk_opts (max_no_improvement o) (skip_initialization o) (chainlength_patience o)
    (random_seed o) (tries o) (verbose o) (inner_rounds o) (timeout o) (max_beta o)
    x (max_fill o) (threads o) (fixed_chains o) (initial_chains o) (restrict_chains o).
Definition set_max_fill (x : Z) (o : optional_parameters) :=
  mk_opts (max_no_improvement o) (skip_initialization o) (chainlength_patience o)
    (random_seed o) (tries o) (verbose o) (inner_rounds o) (timeout o) (max_beta o)
    (return_overlap o) (Some x) (threads o) (fixed_chains o) (initial_chains o)
    (restrict_chains o).
Definition set_threads (x : Z) (o : optional_parameters) :=
  mk_opts (max_no_improvement o) (skip_initialization o) (chainlength_patience o)
    (random_seed o) (tries o) (verbose o) (inner_rounds o) (timeout o) (max_beta o)
    (return_overlap o) (max_fill o) x (fixed_chains o) (initial_chains o)
    (restrict_chains o).
Definition set_fixed_chains (c : chainmap) (o : optional_parameters) :=
  mk_opts (max_no_improvement o) (skip_initialization o) (chainlength_patience o)
    (random_seed o) (tries o) (verbose o) (inner_rounds o) (timeout o) (max_beta o)
    (return_overlap o) (max_fill o) (threads o) c (initial_chains o) (restrict_chains o).
Definition set_initial_chains (c : chainmap) (o : optional_parameters) :=
  mk_opts (max_no_improvement o) (skip_initialization o) (chainlength_patience o)
    (random_seed o) (tries o) (verbose o) (inner_rounds o) (timeout o) (max_beta o)
    (return_overlap o) (max_fill o) (threads o) (fixed_chains o) c (restrict_chains o).
Definition set_restrict_chains (c : chainmap) (o : optional_parameters) :=
  mk_opts (max_no_improvement o) (skip_initialization o) (chainlength_patience o)
    (random_seed o) (tries o) (verbose o) (inner_rounds o) (timeout o) (max_beta o)
    (return_overlap o) (max_fill o) (threads o) (fixed_chains o) (initial_chains o) c.

(** [_read_graph(g, E)]: the graph [g] is empty at both call sites. *)
Fixpoint read_edges (g : input_graph) (L : labeldict) (E : list (label * label))
    : input_graph * labeldict :=
  match E with
  | [] => (g, L)
  | (a, b) :: E =>
      let '(ia, L) := ld_getitem L a in
      let '(ib, L) := ld_getitem L b in
      read_edges (g ++ [(ia, ib)]) L E
  end.

Definition _read_graph (g : input_graph) (E : list (label * label))
    : Py (input_graph * labeldict) :=
  emit (ReadGraph E) >>>
  py_ret (read_edges g [] E).

(** [for x in C[a]: chain.push_back(<int> TL[x])]. *)
Fixpoint chain_ids (TL : labeldict) (c : list label) (chain : list nat)
    : list nat * labeldict :=
  match c with
  | [] => (chain, TL)
  | x :: c =>
      let '(i, TL) := ld_getitem TL x in
      chain_ids TL c (chain ++ [i])
  end.

(** The loop of [_get_chainmap(C, CMap, SL, TL)] over a well-formed [C]; both
    label tables are shared with the caller and grow in place. *)
Fixpoint get_chainmap_loop (C : dict label (list label)) (CMap : chainmap)
    (SL TL : labeldict) : chainmap * labeldict * labeldict :=
  match C with
  | [] => (CMap, SL, TL)
  | (a, c) :: C =>
      match c with
      | [] => get_chainmap_loop C CMap SL TL
      | _ =>
          let '(chain, TL) := chain_ids TL c [] in
          let '(ia, SL) := ld_getitem SL a in
          get_chainmap_loop C (chainmap_insert CMap ia chain) SL TL
      end
  end.

Definition _get_chainmap (C : dict label (list label)) (SL TL : labeldict)
    : chainmap * labeldict * labeldict :=
  get_chainmap_loop C [] SL TL.

(** [params.get(key, default)] where a mapping of chains is expected. *)
Definition get_chains (params : dict string pyvalue) (key : string)
    : Py (dict label (list label)) :=
  match dict_get str_eqb params key with
  | None => py_ret []
  | Some (PChains d) => py_ret d
  | Some _ => raise TypeError
  end.

Definition PIN : string := "__MINORMINER_INTERNAL_PIN_FOR_SUSPENSION".

(** What the suspension loop of [__init__] updates: the two graphs, the two
    label tables, the local variable [pincount] and the dict [fixed_chains]. *)
Record suspend_state := mk_suspend {
  s_Sg : input_graph;
  s_Tg : input_graph;
  s_SL : labeldict;
  s_TL : labeldict;
  s_pincount : Z;
  s_fixed : dict label (list label)
}.

(** [for q in blob: self.Tg.push_back(self.TL[pin], self.TL[q]); nonempty = 1]. *)
Fixpoint blob_loop (pin : label) (blob : list label) (Tg : input_graph)
    (TL : labeldict) (nonempty : Z) : input_graph * labeldict * Z :=
  match blob with
  | [] => (Tg, TL, nonempty)
  | q :: blob =>
      let '(ip, TL) := ld_getitem TL pin in
      let '(iq, TL) := ld_getitem TL q in
      blob_loop pin blob (Tg ++ [(ip, iq)]) TL 1
  end.

(** [for i, blob in enumerate(blobs): ...]. *)
Fixpoint blobs_loop (v : label) (i : Z) (blobs : list (list label))
    (s : suspend_state) : Py suspend_state :=
  match blobs with
  | [] => py_ret s
  | blob :: blobs =>
      let pin := LTuple [LStr PIN; v; LInt i] in
      if ld_mem (s_SL s) pin then
        raise (ValueError "node label %s is a special value used by the suspend_chains feature; please relabel your source graph" pin)
      else if ld_mem (s_TL s) pin then
        raise (ValueError "node label %s is a special value used by the suspend_chains feature; please relabel your target graph" pin)
      else
        let '(Tg, TL, nonempty) := blob_loop pin blob (s_Tg s) (s_TL s) 0 in
        let s := mk_suspend (s_Sg s) Tg (s_SL s) TL (s_pincount s) (s_fixed s) in
        let s :=
          if bool_decide (nonempty ≠ 0) then
            let pincount := s_pincount s + 1 in
            let fixed := dict_set label_eqb (s_fixed s) pin [pin] in
            let '(iv, SL) := ld_getitem (s_SL s) v in
            let '(ip, SL) := ld_getitem SL pin in
            mk_suspend (s_Sg s ++ [(iv, ip)]) (s_Tg s) SL (s_TL s) pincount fixed
          else s in
        blobs_loop v (i + 1) blobs s
  end.

(** [for v, blobs in suspend_chains.items(): ...]. *)
Fixpoint suspend_loop (suspend_chains : dict label (list (list label)))
    (s : suspend_state) : Py suspend_state :=
  match suspend_chains with
  | [] => py_ret s
  | (v, blobs) :: rest =>
      py s <- blobs_loop v 0 blobs s;
      suspend_loop rest s
  end.

(** The check that follows each use of the label tables. *)
Definition check_labels (what : string) (checkS checkT : Z) (SL TL : labeldict) : Py unit :=
  if bool_decide (checkS < Z.of_nat (length SL)) then
    raise (RuntimeError (what ++ " use source node labels that weren't referred to by any edges"))
  else if bool_decide (checkT < Z.of_nat (length TL)) then
    raise (RuntimeError (what ++ " use target node labels that weren't referred to by any edges"))
  else py_ret tt.

Section FindEmbedding.

(** What [os.urandom(sizeof(uint64_t))] returns, read as a [uint64_t]. *)
Variable urandom : Z.

(** The heuristic [findEmbedding(Sg, Tg, opts, chains)] of the C++ core: the
    success flag and the chains it stores, one per source id. *)
Variable findEmbedding :
  input_graph → input_graph → optional_parameters → Z * list (list nat).

(** [_input_parser.__init__(self, S, T, params)].  The attribute
    [self.pincount] is never assigned: [pincount = 0] and [pincount += 1]
    bind a local variable of the method, so the attribute keeps the zero a
    [cdef int] starts with. *)
Definition __init__ (S T : list (label * label)) (params : dict string pyvalue)
    : Py _input_parser :=
  let o := default_opts in
  check_names (dict_keys params) >>>
  py o <- opt_int params "max_no_improvement" set_max_no_improvement o;
  py o <- opt_int params "skip_initialization" set_skip_initialization o;
  py o <- opt_int params "chainlength_patience" set_chainlength_patience o;
  py o <- match dict_get str_eqb params "random_seed" with
          | Some x => py x <- py_int x; py_ret (set_seed x o)
          | None => emit Urandom >>> py_ret (set_seed urandom o)
          end;
  py o <- opt_int params "tries" set_tries o;
  py o <- opt_int params "verbose" set_verbose o;
  py o <- opt_int params "inner_rounds" set_inner_rounds o;
  py o <- opt_int params "timeout" set_timeout o;
  py o <- opt_int params "max_beta" set_max_beta o;
  py o <- opt_int params "return_overlap" set_return_overlap o;
  py o <- opt_int params "max_fill" set_max_fill o;
  py o <- opt_int params "threads" set_threads o;
  py '(Sg, SL) <- _read_graph [] S;
  py '(Tg, TL) <- _read_graph [] T;
  let checkT := Z.of_nat (length TL) in
  let checkS := Z.of_nat (length SL) in
  let pincount := 0 in
  py fixed_chains <- get_chains params "fixed_chains";
  let s := mk_suspend Sg Tg SL TL pincount fixed_chains in
  py s <- match dict_get str_eqb params "suspend_chains" with
          | None => py_ret s
          | Some (PSuspend d) => suspend_loop d s
          | Some _ => raise TypeError
          end;
  let '(mk_suspend Sg Tg SL TL pincount fixed_chains) := s in
  (if bool_decide (checkS + pincount < Z.of_nat (length SL)) then
     raise (RuntimeError "suspend_chains use source node labels that weren't referred to by any edges")
   else py_ret tt) >>>
  (if bool_decide (checkT + pincount < Z.of_nat (length TL)) then
     raise (RuntimeError "suspend_chains use target node labels that weren't referred to by any edges")
   else py_ret tt) >>>
  let checkS := checkS + pincount in
  let checkT := checkT + pincount in
  let '(cm, SL, TL) := _get_chainmap fixed_chains SL TL in
  let o := set_fixed_chains cm o in
  check_labels "fixed_chains" checkS checkT SL TL >>>
  py initial <- get_chains params "initial_chains";
  let '(cm, SL, TL) := _get_chainmap initial SL TL in
  let o := set_initial_chains cm o in
  check_labels "initial_chains" checkS checkT SL TL >>>
  py restrict <- get_chains params "restrict_chains";
  let '(cm, SL, TL) := _get_chainmap restrict SL TL in
  let o := set_restrict_chains cm o in
  check_labels "restrict_chains" checkS checkT SL TL >>>
  py_ret (mk_parser Sg Tg SL TL o 0).

(** What [find_embedding] returns: the mapping, with the success flag when
    [return_overlap] is set. *)
Inductive result :=
  | Mapping (rchain : dict label (list label))
  | MappingSuccess (rchain : dict label (list label)) (success : Z).

(** [[_in.TL.label(z) for z in chain]]. *)
Fixpoint chain_labels (TL : labeldict) (chain : list nat) : Py (list label) :=
  match chain with
  | [] => py_ret []
  | z :: chain =>
      py a <- ld_label TL z;
      py rest <- chain_labels TL chain;
      py_ret (a :: rest)
  end.

(** [for v in range(...): rchain[_in.SL.label(v)] = [...]]. *)
Fixpoint rchain_loop (_in : _input_parser) (chains : list (list nat)) (vs : list nat)
    (rchain : dict label (list label)) : Py (dict label (list label)) :=
  match vs with
  | [] => py_ret rchain
  | v :: vs =>
      py chain <- match chains !! v with
                  | Some c => py_ret c
                  | None => raise IndexError
                  end;
      py k <- ld_label (SL _in) v;
      py c <- chain_labels (TL _in) chain;
      rchain_loop _in chains vs (dict_set label_eqb rchain k c)
  end.

(** [find_embedding(S, T, **params)]. *)
Definition find_embedding (S T : list (label * label)) (params : dict string pyvalue)
    : Py result :=
  py _in <- __init__ S T params;
  emit FindEmbedding >>>
  let '(success, chains) := findEmbedding (Sg _in) (Tg _in) (opts _in) in
  let nc := Z.of_nat (length chains) in
  py rchain <-
    (if bool_decide (length chains ≠ O) then
       rchain_loop _in chains (seq 0 (Z.to_nat (nc - pincount _in))) []
     else py_ret []);
  if bool_decide (return_overlap (opts _in) ≠ 0) then py_ret (MappingSuccess rchain success)
  else py_ret (Mapping rchain).

End FindEmbedding.

(** *** The quality key of the class [minorminer] *)

(** [count_overlaps(chains)]: [o[q] = 1 + o.get(q, -1)] for every [q] of
    every chain. *)
Fixpoint count_overlaps_chain (chain : list label) (o : dict label Z) : dict label Z :=
  match chain with
  | [] => o
  | q :: chain =>
      count_overlaps_chain chain
        (dict_set label_eqb o q (1 + default (-1) (dict_get label_eqb o q)))
  end.

Fixpoint count_overlaps_loop (chains : list (list label)) (o : dict label Z) : dict label Z :=
  match chains with
  | [] => o
  | chain :: chains => count_overlaps_loop chains (count_overlaps_chain chain o)
  end.

Definition count_overlaps (chains : list (list label)) : dict label Z :=
  count_overlaps_loop chains [].

(** The order of Python on pairs of integers. *)
Definition pair_le (a b : Z * Z) : Prop :=
  a.1 < b.1 ∨ (a.1 = b.1 ∧ a.2 <= b.2).

Global Instance pair_le_dec a b : Decision (pair_le a b).
Proof. unfold pair_le. apply _. Defined.

(** [sorted(items, reverse = True)]. *)
Definition sorted_reverse (items : list (Z * Z)) : list (Z * Z) :=
  merge_sort (λ a b, pair_le b a) items.

(** [for s in sizes: if s: h[s] = 1 + h.get(s, 0)]. *)
Fixpoint histogram_loop (sizes : list Z) (h : dict Z Z) : dict Z Z :=
  match sizes with
  | [] => h
  | s :: sizes =>
      if bool_decide (s ≠ 0) then
        histogram_loop sizes (dict_set int_eqb h s (1 + default 0 (dict_get int_eqb h s)))
      else histogram_loop sizes h
  end.

(** [[t[i] for t in ... for i in (0, 1)]]. *)
Definition flatten (items : list (Z * Z)) : list Z :=
  items ≫= λ t, [t.1; t.2].

Definition histogram_key (sizes : list Z) : list Z :=
  flatten (sorted_reverse (histogram_loop sizes [])).

(** The members of the tuple that [quality_key] returns. *)
Inductive pyobj :=
  | OInt (z : Z)
  | OList (l : list Z).

(** The interpreter that the extension is built for.  The two differ in
    what [d.values()] returns: a new [list] on Python 2, a view of the dict
    on Python 3. *)
Inductive python := Python2 | Python3.

(** What [d.values()] returns: the values in the order of the dict, as a
    [list] or as a view. *)
Inductive pyvalues (A : Type) :=
  | ValuesList (l : list A)
  | ValuesView (l : list A).
Arguments ValuesList {A} l.
Arguments ValuesView {A} l.

Definition py_values {K V} (version : python) (d : dict K V) : pyvalues V :=
  match version with
  | Python2 => ValuesList (dict_values d)
  | Python3 => ValuesView (dict_values d)
  end.

(** An argument for a parameter declared [list] ([cdef dict
    count_overlaps(self, list chains)], [cdef list histogram_key(self, list
    sizes)]): the call goes through when the type of the object is exactly
    [list], and raises [TypeError] for any other object. *)
Definition as_list {A} (x : pyvalues A) : Py (list A) :=
  match x with
  | ValuesList l => py_ret l
  | ValuesView _ => raise TypeError
  end.

(** [quality_key(emb, embedded = False)]; the result is a tuple.  The list
    comprehension over the chain lengths is a [list] on either interpreter;
    [emb.values()] and [o.values()] are handed over as they are. *)
Definition quality_key (version : python) (emb : dict label (list label))
    (embedded : bool) : Py (list pyobj) :=
  let state := 2 in
  match emb with
  | [] => py_ret [OInt state]
  | _ =>
      let state := 0 in
      let L := histogram_key (map (λ c, Z.of_nat (length c)) (dict_values emb)) in
      py '(O', state) <-
        (if embedded then py_ret ([], state)
         else
           py chains <- as_list (py_values version emb);
           let o := count_overlaps chains in
           py sizes <- as_list (py_values version o);
           let O' := histogram_key sizes in
           py_ret (O', if bool_decide (length O' ≠ 0%nat) then 1 else state));
      py_ret [OInt state; OList O'; OList L]
  end.





(** *** The quality key in the words of the specification

    A histogram is a list of (value, count) pairs sorted by value
    descending; the overlap count of a target node is the number of its
    occurrences across the chains minus one. *)








End Minorminer.

(** ** Theorems: fastrng *)

Module FastrngFacts.
Import Fastrng.

Lemma call_state (g : fastrng) : (call g).2 = discard_body g.
Proof. reflexivity. Qed.

(** The loop runs [n] times whenever it is given at least [n] units of fuel:
    the fuel [Z.to_nat n] of [discard] never cuts it short. *)
Lemma discard_loop_iter (fuel : nat) (n : nat) (g : fastrng) :
  (n <= fuel)%nat →
  discard_loop fuel (Z.of_nat n) g = Nat.iter n discard_body g.
Proof.
  revert n g. induction fuel as [|fuel IH]; intros n g Hn.
  - assert (n = 0%nat) as -> by lia. reflexivity.
  - destruct n as [|n].
    + reflexivity.
    + cbn [discard_loop].
      replace (0 <? Z.of_nat (S n)) with true by (symmetry; apply Z.ltb_lt; lia).
      replace (Z.of_nat (S n) - 1) with (Z.of_nat n) by lia.
      rewrite IH by lia. symmetry. apply Nat.iter_succ_r.
Qed.

Lemma draw_state (n : nat) (g : fastrng) :
  (draw n g).2 = Nat.iter n discard_body g.
Proof.
  revert g. induction n as [|n IH]; intros g; [reflexivity|].
  rewrite Nat.iter_succ_r, <- call_state.
  cbn [draw]. destruct (call g) as [r g1].
  specialize (IH g1). destruct (draw n g1) as [rs g2]. exact IH.
Qed.

(** C8. Seeding overwrites both state words from the seed alone, so two
    generators seeded with the same 64-bit value [x] (whatever their members
    held before) return the same outputs under repeated [operator()] calls
    and end in the same state. *)
Theorem seed_deterministic (x : Z) (g1 g2 : fastrng) (n : nat) :
  draw n (seed x g1) = draw n (seed x g2).
Proof.
  assert (seed x g1 = seed x g2) as ->; [|reflexivity].
  unfold seed. destruct (splitmix64 x) as [r0 x1].
  destruct (splitmix64 x1) as [r1 x2]. reflexivity.
Qed.

(** C9. For [0 <= n] (an [int]), [discard(n)] leaves the generator in the
    state reached by [n] successive [operator()] calls. *)
Theorem discard_is_n_calls (n : Z) (g : fastrng) :
  0 <= n <= INT_MAX →
  discard n g = (draw (Z.to_nat n) g).2.
Proof.
  intros Hn. unfold discard. rewrite draw_state.
  rewrite <- (Z2Nat.id n) at 2 by lia.
  apply discard_loop_iter. lia.
Qed.

Lemma discard_is_n_calls_witness :
  discard 5 (mk_fastrng 1 2) = (draw (Z.to_nat 5) (mk_fastrng 1 2)).2.
Proof. apply (discard_is_n_calls 5 (mk_fastrng 1 2)). unfold INT_MAX. lia. Defined.

End FastrngFacts.

(** ** Theorems: the pairing queue *)

Module PairingQueueFacts.
Import PairingQueue.
Local Open Scope heap_scope.

Lemma bind_Done {S A B} (m : M S A) (f : A → M S B) (s s'' : S) (b : B) :
  bind m f s = Done (b, s'') ↔ ∃ a s', m s = Done (a, s') ∧ f a s' = Done (b, s'').
Proof.
  unfold bind. split.
  - destruct (m s) as [[a s']| |]; [eauto|done..].
  - intros (a & s' & -> & H). done.
Qed.

Lemma delete_min_empty {X} (q : pairing_queue X) :
  root q = None → delete_min q = Done (false, q).
Proof. intros Hroot. unfold delete_min, bind, get_root. by rewrite Hroot. Qed.

Lemma pop_min_empty {X} (q : pairing_queue X) (key value : Z) :
  root q = None → pop_min key value q = Done ((false, key, value), q).
Proof.
  intros Hroot. unfold pop_min, empty, bind, get_root, ret. by rewrite Hroot.
Qed.

(** C10. On an empty [pairing_queue] ([root] is null) [delete_min] and
    [pop_min] return false and leave the queue as it was; [pop_min] leaves
    its [key] and [value] arguments as they were. *)
Theorem empty_queue_pop_is_noop {X} (q : pairing_queue X) (key value : Z) :
  root q = None →
  delete_min q = Done (false, q) ∧
  pop_min key value q = Done ((false, key, value), q).
Proof.
  intros Hroot. split; [by apply delete_min_empty|by apply pop_min_empty].
Qed.

Lemma empty_queue_pop_is_noop_witness :
  delete_min (new_queue tt 3) = Done (false, new_queue tt 3) ∧
  pop_min 7 8 (new_queue tt 3) = Done ((false, 7, 8), new_queue tt 3).
Proof. apply (empty_queue_pop_is_noop (new_queue tt 3) 7 8). reflexivity. Defined.

(** *** Calls that break the heap *)

(** C3. After [reset()], [set_value(0, 5)], [set_value(0, 5)] and
    [set_value(1, 7)] the live entries are (0, 5) and (1, 7).  The first
    [pop_min] returns (0, 5); then [min_key] and [min_value] still report
    (0, 5) although only (1, 7) is left, the second [pop_min] returns (0, 5)
    again, and the queue is empty: the third [pop_min] returns false.  One
    entry comes out twice and the other never.  Each of the three
    [set_value] calls takes the branch [n->prev == n] of the source, the one
    that inserts. *)
Theorem set_value_twice_pops_twice (max_P : Z) :
  observed
    (run (call max_P)
       [Reset; SetValue 0 5; SetValue 0 5; SetValue 1 7;
        PopMin (-1) (-1); MinKey; MinValue;
        PopMin (-1) (-1); Empty; PopMin (-1) (-1)]
       (new_queue tt 2))
  = Done [OUnit; OUnit; OUnit; OUnit;
          OPop true 0 5; OVal 0; OVal 5;
          OPop true 0 5; OBool true; OPop false (-1) (-1)].
Proof. vm_compute. reflexivity. Qed.

(** [merge_roots(a, nullptr)] returns [a] before it reaches
    [c->prev = nullptr]: the root that is alone in the heap keeps
    [prev == this], which is how [set_value] recognises a node that is not in
    the heap. *)
Lemma lone_root_keeps_prev (max_P : Z) :
  ∃ q, run (call max_P) [Reset; SetValue 0 5] (new_queue tt 2)
       = Done ([OUnit; OUnit], q)
       ∧ root q = Some 0%nat
       ∧ prev <$> nodes q !! 0%nat = Some (Some 0%nat).
Proof. eexists. split; [vm_compute; reflexivity|]. split; reflexivity. Qed.

(** The root that is alone in the heap keeps [prev == this], so the second
    [set_value] merges the node with itself: it becomes its own child. *)
Lemma set_value_twice_self_child (max_P : Z) :
  ∃ q, run (call max_P) [Reset; SetValue 0 5; SetValue 0 5] (new_queue tt 2)
       = Done ([OUnit; OUnit; OUnit], q)
       ∧ root q = Some 0%nat
       ∧ desc <$> nodes q !! 0%nat = Some (Some 0%nat).
Proof. eexists. split; [vm_compute; reflexivity|]. split; reflexivity. Qed.

(** The same through [check_decrease_value] on the lone root, the case that
    the assertion [a != root] of [decrease] rules out. *)
Lemma decrease_lone_root_loses_entry (max_P : Z) :
  observed
    (run (call max_P)
       [Reset; SetValue 0 5; CheckDecreaseValue 0 3; SetValue 1 4;
        PopMin (-1) (-1); PopMin (-1) (-1); PopMin (-1) (-1)]
       (new_queue tt 2))
  = Done [OUnit; OUnit; OBool true; OUnit;
          OPop true 0 3; OPop true 0 3; OPop false (-1) (-1)].
Proof. vm_compute. reflexivity. Qed.

(** Raising the value of a node that has a child keeps the child below it:
    the values come out as 1, 10, 6. *)
Lemma set_value_increase_breaks_order (max_P : Z) :
  observed
    (run (call max_P)
       [Reset; SetValue 0 5; SetValue 1 6; SetValue 2 1; SetValue 0 10;
        PopMin (-1) (-1); MinKey; MinValue; PopMin (-1) (-1); PopMin (-1) (-1)]
       (new_queue tt 3))
  = Done [OUnit; OUnit; OUnit; OUnit; OUnit;
          OPop true 2 1; OVal 0; OVal 10; OPop true 0 10; OPop true 1 6].
Proof. vm_compute. reflexivity. Qed.

(** C4. On a [pairing_queue_fast_reset] that has just been reset, key 0 is
    stale and [get_value(0)] is [max_P]; [check_decrease_value(0, max_P)]
    proposes a value that is not smaller, and still returns true and puts the
    key into the queue. *)
Theorem check_decrease_value_stale_inserts (max_P : Z) :
  observed
    (run (fast_call max_P)
       [Base Reset; GetValue 0; Base Empty;
        Base (CheckDecreaseValue 0 max_P);
        Base Empty; Base MinKey; Base MinValue]
       (FastReset.new_queue 1))
  = Done [OUnit; OVal max_P; OBool true;
          OBool true;
          OBool false; OVal 0; OVal max_P].
Proof. vm_compute. reflexivity. Qed.

(** *** What [check_decrease_value] does when nothing decreases *)

Lemma check_decrease_value_node_noop {X} (q : pairing_queue X) (n : nat)
    (x : node X) (v : Z) :
  nodes q !! n = Some x →
  ¬ v < val x →
  check_decrease_value_node n v q = Done (false, q).
Proof.
  intros Hn Hv. unfold check_decrease_value_node, bind, load.
  rewrite Hn, bool_decide_eq_false_2 by done. reflexivity.
Qed.

Lemma node_at_Done {X} (q : pairing_queue X) (k : Z) :
  0 <= k < Z.of_nat (length (nodes q)) →
  node_at k q = Done (Z.to_nat k, q).
Proof.
  intros Hk. unfold node_at, has, bind, size, ret.
  rewrite !bool_decide_eq_true_2 by lia. reflexivity.
Qed.

(** The plain queue: a proposed value that is not smaller changes nothing. *)
Lemma check_decrease_value_noop {X} (q : pairing_queue X) (k : Z)
    (x : node X) (v : Z) :
  nodes q !! Z.to_nat k = Some x →
  0 <= k →
  ¬ v < val x →
  check_decrease_value k v q = Done (false, q).
Proof.
  intros Hn Hk Hv. unfold check_decrease_value, bind.
  rewrite node_at_Done by (apply lookup_lt_Some in Hn; lia).
  by apply check_decrease_value_node_noop with x.
Qed.

(** C6. After [reset()], [check_decrease_value(0, max_P)] followed by
    [empty()] returns false and true on the plain [pairing_queue] and true
    and false on [pairing_queue_fast_reset]. *)
Theorem fast_reset_differs_from_plain (max_P : Z) :
  observed (run (call max_P)
              [Reset; CheckDecreaseValue 0 max_P; Empty] (new_queue tt 1))
  = Done [OUnit; OBool false; OBool true] ∧
  observed (run (fast_call max_P)
              [Base Reset; Base (CheckDecreaseValue 0 max_P); Base Empty]
              (FastReset.new_queue 1))
  = Done [OUnit; OBool true; OBool false].
Proof.
  split; [|vm_compute; reflexivity].
  set (q := mk_queue [mk_node max_P None None (Some 0%nat) tt] None).
  assert (call max_P Reset (new_queue tt 1) = Done (OUnit, q)) as H0
    by (vm_compute; reflexivity).
  assert (call max_P (CheckDecreaseValue 0 max_P) q = Done (OBool false, q)) as H1.
  { unfold call, obs_bool, bind.
    rewrite (check_decrease_value_noop q 0 (mk_node max_P None None (Some 0%nat) tt))
      by (reflexivity || cbn; lia).
    reflexivity. }
  cbn [run]. unfold bind. rewrite H0, H1. reflexivity.
Qed.

(** *** What a call leaves alone

    [preserves I m]: a call of [m] that returns takes a state in [I] to a
    state in [I]. *)

Definition preserves {S A} (I : S → Prop) (m : M S A) : Prop :=
  ∀ s a s', I s → m s = Done (a, s') → I s'.

Lemma preserves_ret {S A} (I : S → Prop) (a : A) : preserves I (ret a).
Proof. intros s a' s' HI [= _ <-]. done. Qed.

Lemma preserves_undefined {S A} (I : S → Prop) : preserves I (@undefined S A).
Proof. intros s a s' _ [=]. Qed.

Lemma preserves_timeout {S A} (I : S → Prop) : preserves I (@timeout S A).
Proof. intros s a s' _ [=]. Qed.

Lemma preserves_bind {S A B} (I : S → Prop) (m : M S A) (f : A → M S B) :
  preserves I m → (∀ a, preserves I (f a)) → preserves I (bind m f).
Proof.
  intros Hm Hf s b s'' HI (a & s' & H1 & H2)%bind_Done.
  eapply Hf; [|exact H2]. eapply Hm; eauto.
Qed.

Create HintDb frame discriminated.

Ltac frame :=
  repeat first
    [ apply preserves_ret
    | apply preserves_undefined
    | apply preserves_timeout
    | solve [eauto with frame]
    | apply preserves_bind; [|intros ?]
    | progress cbv zeta
    | match goal with
      | |- preserves _ (match ?x with _ => _ end) => destruct x
      end ].

(** The base-class functions write [val] and the three links only: the
    extra member of every node stays what it was. *)
Section ExtFrame.
Context {X : Type} (l : list X).

Definition ext_is (q : pairing_queue X) : Prop := ext <$> nodes q = l.

Lemma frame_load n : preserves ext_is (load n).
Proof.
  intros q a q' HI H. unfold load in H.
  destruct (nodes q !! n); [|done]. by injection H as _ <-.
Qed.

Lemma frame_modify n (f : node X → node X) :
  (∀ x, ext (f x) = ext x) → preserves ext_is (modify n f).
Proof.
  intros Hf q a q' HI H. unfold modify in H.
  destruct (nodes q !! n) as [x|] eqn:E; [|done]. injection H as _ <-.
  unfold ext_is in *. cbn.
  rewrite list_fmap_insert, Hf, list_insert_id; [done|].
  by rewrite list_lookup_fmap, E.
Qed.

Lemma frame_get_root : preserves ext_is get_root.
Proof. intros q a q' HI [= _ <-]. done. Qed.

Lemma frame_set_root p : preserves ext_is (set_root p).
Proof. intros q a q' HI [= _ <-]. exact HI. Qed.

Lemma frame_size : preserves ext_is size.
Proof. intros q a q' HI [= _ <-]. done. Qed.

Hint Resolve frame_load frame_get_root frame_set_root frame_size : frame.
Hint Extern 1 (preserves _ (modify _ _)) =>
  apply frame_modify; reflexivity : frame.

Lemma frame_deref p : preserves ext_is (deref p).
Proof. unfold deref. frame. Qed.
Hint Resolve frame_deref : frame.

Lemma frame_node_lt a b : preserves ext_is (node_lt a b).
Proof. unfold node_lt. frame. Qed.

Lemma frame_has k : preserves ext_is (has k).
Proof. unfold has. frame. Qed.
Hint Resolve frame_node_lt frame_has : frame.

Lemma frame_node_at k : preserves ext_is (node_at k).
Proof. unfold node_at. frame. Qed.

Lemma frame_reset_node n : preserves ext_is (reset_node n).
Proof. unfold reset_node. frame. Qed.
Hint Resolve frame_node_at frame_reset_node : frame.

Lemma frame_reset_node_val n v : preserves ext_is (reset_node_val n v).
Proof. unfold reset_node_val. frame. Qed.
Hint Resolve frame_reset_node_val : frame.

Lemma frame_for_nodes body ns :
  (∀ n, preserves ext_is (body n)) → preserves ext_is (for_nodes body ns).
Proof. intros Hb. induction ns as [|n ns IH]; cbn [for_nodes]; frame. Qed.

Lemma frame_reset_fill v : preserves ext_is (reset_fill v).
Proof.
  unfold reset_fill. frame. apply frame_for_nodes. intros; frame.
Qed.
Hint Resolve frame_reset_fill : frame.

Lemma frame_merge_roots_unchecked a b : preserves ext_is (merge_roots_unchecked a b).
Proof. unfold merge_roots_unchecked. frame. Qed.
Hint Resolve frame_merge_roots_unchecked : frame.

Lemma frame_merge_roots_unsafe a b : preserves ext_is (merge_roots_unsafe a b).
Proof. unfold merge_roots_unsafe. frame. Qed.
Hint Resolve frame_merge_roots_unsafe : frame.

Lemma frame_merge_roots a b : preserves ext_is (merge_roots a b).
Proof. unfold merge_roots. frame. Qed.
Hint Resolve frame_merge_roots : frame.

Lemma frame_merge_pairs_pass1 fuel a r : preserves ext_is (merge_pairs_pass1 fuel a r).
Proof.
  revert a r. induction fuel as [|fuel IH]; intros a r; cbn [merge_pairs_pass1]; frame.
Qed.

Lemma frame_merge_pairs_pass2 fuel a r : preserves ext_is (merge_pairs_pass2 fuel a r).
Proof.
  revert a r. induction fuel as [|fuel IH]; intros a [r|];
    cbn [merge_pairs_pass2]; frame.
Qed.
Hint Resolve frame_merge_pairs_pass1 frame_merge_pairs_pass2 : frame.

Lemma frame_merge_pairs a : preserves ext_is (merge_pairs a).
Proof. unfold merge_pairs. frame. Qed.

Lemma frame_empty : preserves ext_is empty.
Proof. unfold empty. frame. Qed.
Hint Resolve frame_merge_pairs frame_empty : frame.

Lemma frame_delete_min : preserves ext_is delete_min.
Proof. unfold delete_min. frame. Qed.

Lemma frame_min_value : preserves ext_is min_value.
Proof. unfold min_value. frame. Qed.

Lemma frame_min_key : preserves ext_is min_key.
Proof. unfold min_key. frame. Qed.
Hint Resolve frame_delete_min frame_min_value frame_min_key : frame.

Lemma frame_pop_min key value : preserves ext_is (pop_min key value).
Proof. unfold pop_min. frame. Qed.

Lemma frame_remove a : preserves ext_is (remove a).
Proof. unfold remove. frame. Qed.
Hint Resolve frame_pop_min frame_remove : frame.

Lemma frame_decrease a : preserves ext_is (decrease a).
Proof. unfold decrease. frame. Qed.
Hint Resolve frame_decrease : frame.

Lemma frame_decrease_value_node n v : preserves ext_is (decrease_value_node n v).
Proof. unfold decrease_value_node. frame. Qed.

Lemma frame_check_decrease_value_node n v :
  preserves ext_is (check_decrease_value_node n v).
Proof. unfold check_decrease_value_node. frame. Qed.

Lemma frame_set_value_node n v : preserves ext_is (set_value_node n v).
Proof. unfold set_value_node. frame. Qed.

Lemma frame_set_value_unsafe_node n v : preserves ext_is (set_value_unsafe_node n v).
Proof. unfold set_value_unsafe_node. frame. Qed.
Hint Resolve frame_decrease_value_node frame_check_decrease_value_node
  frame_set_value_node frame_set_value_unsafe_node : frame.

Lemma frame_call max_P o : preserves ext_is (call max_P o).
Proof.
  destruct o; unfold call, obs_unit, obs_bool, obs_val, obs_pop, reset,
    decrease_value, check_decrease_value, set_value, set_value_unsafe, value;
    frame.
Qed.

End ExtFrame.

#[local] Hint Resolve frame_load frame_get_root frame_set_root frame_size
  frame_deref frame_node_lt frame_has frame_node_at frame_reset_node
  frame_reset_node_val frame_reset_fill frame_merge_roots_unchecked
  frame_merge_roots_unsafe frame_merge_roots frame_merge_pairs_pass1
  frame_merge_pairs_pass2 frame_merge_pairs frame_empty frame_delete_min
  frame_min_value frame_min_key frame_pop_min frame_remove frame_decrease
  frame_decrease_value_node frame_check_decrease_value_node
  frame_set_value_node frame_set_value_unsafe_node frame_call : frame.
#[local] Hint Extern 1 (preserves _ (modify _ _)) =>
  apply frame_modify; reflexivity : frame.

(** *** The generation counter *)

(** No node carries a generation later than [now]. *)
Definition time_inv (s : pairing_queue_fast_reset) : Prop :=
  Forall (λ x, time x <= now s) (nodes (super s)).

Lemma lift_Done {A} (m : M (pairing_queue Z) A) s a s' :
  lift m s = Done (a, s') ↔
  ∃ q', m (super s) = Done (a, q') ∧ s' = mk_fast q' (now s).
Proof.
  unfold lift. destruct (m (super s)) as [[a' q']| |].
  - split.
    + intros [= -> <-]. eauto.
    + by intros (? & [= -> ->] & ->).
  - split; [done|]. by intros (? & [=] & _).
  - split; [done|]. by intros (? & [=] & _).
Qed.

Lemma time_inv_lift {A} (m : M (pairing_queue Z) A) :
  (∀ l, preserves (ext_is l) m) → preserves time_inv (lift m).
Proof.
  intros Hm s a s' HI (q' & H & ->)%lift_Done.
  pose proof (Hm (ext <$> nodes (super s)) (super s) a q' eq_refl H) as Hq.
  unfold ext_is in Hq. unfold time_inv in *. cbn.
  apply (Forall_fmap ext (λ t, t <= now s)).
  apply (Forall_fmap ext (λ t, t <= now s)) in HI.
  by rewrite Hq.
Qed.

Lemma time_inv_get_now : preserves time_inv get_now.
Proof. intros s a s' HI [= _ <-]. done. Qed.

(** [n->time = now]. *)
Lemma time_inv_stamp n :
  preserves time_inv (do t <- get_now; lift (modify n (set_ext t))).
Proof.
  intros s a s' HI (t & s1 & [= <- <-] & (q' & H & ->)%lift_Done)%bind_Done.
  unfold modify in H. destruct (nodes (super s) !! n) as [x|] eqn:E; [|done].
  injection H as _ <-. unfold time_inv in *. cbn.
  apply Forall_insert; [done|]. unfold time. cbn. lia.
Qed.

#[local] Hint Resolve time_inv_get_now time_inv_stamp : frame.
#[local] Hint Extern 2 (preserves time_inv (lift _)) =>
  apply time_inv_lift; intros ?; frame : frame.

Lemma time_inv_reset_node n : preserves time_inv (FastReset.reset_node n).
Proof. unfold FastReset.reset_node. frame. Qed.
#[local] Hint Resolve time_inv_reset_node : frame.

Lemma time_inv_current n : preserves time_inv (FastReset.current n).
Proof. unfold FastReset.current. frame. Qed.
#[local] Hint Resolve time_inv_current : frame.

(** [for (auto &n : super::nodes) n.time = 0], and any other loop that
    applies one update to every node. *)
Lemma for_nodes_modify_from {X} (f : node X → node X) (post pre : list (node X))
    (r : ptr) :
  for_nodes (λ i, modify i f) (seq (length pre) (length post)) (mk_queue (pre ++ post) r)
  = Done (tt, mk_queue (pre ++ (f <$> post)) r).
Proof.
  revert pre. induction post as [|x post IH]; intros pre; [done|].
  cbn [length seq for_nodes]. unfold bind at 1. unfold modify at 1. cbn [nodes root].
  rewrite list_lookup_middle by done.
  replace (<[length pre:=f x]> (pre ++ x :: post)) with ((pre ++ [f x]) ++ post).
  - replace (S (length pre)) with (length (pre ++ [f x])) by (rewrite length_app; cbn; lia).
    rewrite IH. by rewrite <- app_assoc.
  - rewrite <- app_assoc. cbn.
    replace (length pre) with (length pre + 0)%nat at 1 by lia.
    by rewrite insert_app_r.
Qed.

Lemma for_nodes_modify {X} (f : node X → node X) (q : pairing_queue X) :
  for_nodes (λ i, modify i f) (seq 0 (length (nodes q))) q
  = Done (tt, mk_queue (f <$> nodes q) (root q)).
Proof. destruct q as [ns r]. apply (for_nodes_modify_from f ns []). Qed.

(** What [reset()] does to a queue whose counter can still be bumped. *)
Lemma reset_spec (s : pairing_queue_fast_reset) :
  time_inv s →
  now s ≠ INT_MAX →
  ∃ ns, FastReset.reset s = Done (tt, mk_fast (mk_queue ns None) (now s + 1))
        ∧ length ns = length (nodes (super s))
        ∧ Forall (λ x, time x < now s + 1) ns.
Proof.
  intros HI Hnow. destruct s as [[ns r] t]. cbn in *.
  unfold FastReset.reset, bind, lift, set_root, get_now, set_now, size. cbn.
  rewrite bool_decide_eq_false_2 by done. cbn.
  destruct (decide (t = 0)) as [->|Ht].
  - rewrite bool_decide_eq_true_2 by done. cbn.
    pose proof (for_nodes_modify (set_ext 0) (mk_queue ns None)) as H.
    cbn in H. rewrite H. eexists. split; [done|].
    split; [by rewrite length_fmap|].
    apply Forall_fmap, Forall_true. intros x. unfold time. cbn. lia.
  - rewrite bool_decide_eq_false_2 by done. eexists. split; [done|].
    split; [done|]. unfold time_inv in HI. cbn in HI.
    eapply Forall_impl; [exact HI|]. cbn. intros; lia.
Qed.

Lemma time_inv_reset : preserves time_inv FastReset.reset.
Proof.
  intros s a s' HI H.
  destruct (decide (now s = INT_MAX)) as [E|E].
  - unfold FastReset.reset, bind, lift, set_root, get_now in H. cbn in H.
    by rewrite bool_decide_eq_true_2 in H.
  - destruct (reset_spec s HI E) as (ns & H' & _ & Hns).
    rewrite H' in H. injection H as _ <-.
    unfold time_inv. cbn. eapply Forall_impl; [exact Hns|]. cbn. intros; lia.
Qed.
#[local] Hint Resolve time_inv_reset : frame.

Lemma time_inv_fast_call max_P o : preserves time_inv (fast_call max_P o).
Proof.
  destruct o as [o|k]; [destruct o|];
    unfold fast_call, obs_unit, obs_bool, obs_val, obs_pop,
      FastReset.set_value_unsafe, FastReset.set_value,
      FastReset.check_decrease_value, FastReset.get_value;
    frame.
Qed.

Lemma time_inv_new_queue n : time_inv (FastReset.new_queue n).
Proof.
  unfold time_inv, FastReset.new_queue, new_queue. cbn.
  apply Forall_replicate. unfold time. cbn. lia.
Qed.

Lemma reachable_time_inv max_P s : reachable max_P s → time_inv s.
Proof.
  induction 1 as [n|s o r s' _ IH H].
  - apply time_inv_new_queue.
  - by eapply time_inv_fast_call.
Qed.







(** *** Calls that return

    [total P m Q]: from a state in [P] the call [m] returns, with a result
    and a state in [Q]. *)

Definition total {S A} (P : S → Prop) (m : M S A) (Q : A → S → Prop) : Prop :=
  ∀ s, P s → ∃ a s', m s = Done (a, s') ∧ Q a s'.

Lemma total_ret {S A} (P : S → Prop) (a : A) (Q : A → S → Prop) :
  (∀ s, P s → Q a s) → total P (ret a) Q.
Proof. intros H s Hs. exists a, s. split; [done|]. by apply H. Qed.

Lemma total_bind {S A B} (P : S → Prop) (m : M S A) (Q : A → S → Prop)
    (f : A → M S B) (R : B → S → Prop) :
  total P m Q → (∀ a, total (Q a) (f a) R) → total P (bind m f) R.
Proof.
  intros Hm Hf s Hs. destruct (Hm s Hs) as (a & s' & H1 & Ha).
  destruct (Hf a s' Ha) as (b & s'' & H2 & Hb).
  exists b, s''. split; [|done]. unfold bind. by rewrite H1.
Qed.

Lemma total_weaken {S A} (P P' : S → Prop) (m : M S A) (Q Q' : A → S → Prop) :
  total P m Q → (∀ s, P' s → P s) → (∀ a s, Q a s → Q' a s) → total P' m Q'.
Proof.
  intros Hm HP HQ s Hs. destruct (Hm s (HP s Hs)) as (a & s' & H1 & Ha).
  exists a, s'. split; [done|]. by apply HQ.
Qed.

Lemma total_pure {S A} (φ : Prop) (P : S → Prop) (m : M S A) (Q : A → S → Prop) :
  (φ → total P m Q) → total (λ s, φ ∧ P s) m Q.
Proof. intros H s [Hφ Hs]. by apply H. Qed.

(** Pointers that point into the arena. *)
Definition ptr_ok (L : nat) (p : ptr) : Prop :=
  match p with
  | Some i => (i < L)%nat
  | None => True
  end.

Definition node_ok {X} (L : nat) (x : node X) : Prop :=
  ptr_ok L (next x) ∧ ptr_ok L (desc x) ∧ ptr_ok L (prev x).

(** The queue has [L] nodes, every pointer is null or points to one of them,
    and the values and extra members are [d]. *)
Definition data {X} (x : node X) : Z * X := (val x, ext x).

Definition shaped {X} (L : nat) (d : list (Z * X)) (q : pairing_queue X) : Prop :=
  length (nodes q) = L ∧
  ptr_ok L (root q) ∧
  Forall (node_ok L) (nodes q) ∧
  data <$> nodes q = d.

Section Shaped.
Context {X : Type} (L : nat) (d : list (Z * X)).

(** [safe φ m]: on a well-shaped queue the call [m] returns a result in [φ]
    and leaves the queue well shaped, with the same values. *)
Definition safe {A} (φ : A → Prop) (m : M (pairing_queue X) A) : Prop :=
  total (shaped L d) m (λ a q, φ a ∧ shaped L d q).

Lemma safe_ret {A} (φ : A → Prop) (a : A) : φ a → safe φ (ret a).
Proof. intros Ha. apply total_ret. done. Qed.

Lemma safe_bind {A B} (ψ : A → Prop) (φ : B → Prop) m (f : A → M _ B) :
  safe ψ m → (∀ a, ψ a → safe φ (f a)) → safe φ (bind m f).
Proof.
  intros Hm Hf. eapply total_bind; [exact Hm|].
  intros a q [Ha Hq]. by apply Hf.
Qed.

Lemma safe_weaken {A} (ψ φ : A → Prop) m :
  safe ψ m → (∀ a, ψ a → φ a) → safe φ m.
Proof.
  intros Hm H. eapply total_weaken; [exact Hm|done|].
  intros a q [? ?]. split; [by apply H|done].
Qed.

Lemma shaped_lookup q n :
  shaped L d q → (n < L)%nat → ∃ x, nodes q !! n = Some x ∧ node_ok L x.
Proof.
  intros (Hlen & _ & Hok & _) Hn.
  destruct (lookup_lt_is_Some_2 (nodes q) n) as [x Hx]; [lia|].
  exists x. split; [done|]. by eapply Forall_lookup_1.
Qed.

Lemma safe_load n : (n < L)%nat → safe (node_ok L) (load n).
Proof.
  intros Hn q Hq. destruct (shaped_lookup q n Hq Hn) as (x & Hx & Hok).
  exists x, q. unfold load. by rewrite Hx.
Qed.

Lemma safe_modify n (f : node X → node X) :
  (n < L)%nat →
  (∀ x, node_ok L x → node_ok L (f x) ∧ data (f x) = data x) →
  safe (λ _, True) (modify n f).
Proof.
  intros Hn Hf q Hq. destruct (shaped_lookup q n Hq Hn) as (x & Hx & Hok).
  destruct (Hf x Hok) as [Hfx Hd].
  eexists tt, _. unfold modify. rewrite Hx. split; [done|]. split; [done|].
  destruct Hq as (Hlen & Hroot & Hnodes & Hdata). split_and!; cbn.
  - by rewrite length_insert.
  - done.
  - by apply Forall_insert.
  - rewrite list_fmap_insert, Hd, list_insert_id; [done|].
    by rewrite list_lookup_fmap, Hx.
Qed.

Lemma safe_get_root : safe (ptr_ok L) get_root.
Proof. intros q Hq. exists (root q), q. split; [done|]. split; [apply Hq|done]. Qed.

Lemma safe_set_root p : ptr_ok L p → safe (λ _, True) (set_root p).
Proof. intros Hp q (Hlen & Hroot & Hnodes & Hdata). by eexists tt, _. Qed.

Lemma safe_deref p : p ≠ None → ptr_ok L p → safe (λ n, p = Some n ∧ (n < L)%nat) (deref p).
Proof. intros Hp Hok. destruct p as [n|]; [|done]. by apply safe_ret. Qed.

Lemma set_next_ok p (x : node X) :
  ptr_ok L p → node_ok L x → node_ok L (set_next p x) ∧ data (set_next p x) = data x.
Proof. intros ? (?&?&?). by repeat split. Qed.

Lemma set_desc_ok p (x : node X) :
  ptr_ok L p → node_ok L x → node_ok L (set_desc p x) ∧ data (set_desc p x) = data x.
Proof. intros ? (?&?&?). by repeat split. Qed.

Lemma set_prev_ok p (x : node X) :
  ptr_ok L p → node_ok L x → node_ok L (set_prev p x) ∧ data (set_prev p x) = data x.
Proof. intros ? (?&?&?). by repeat split. Qed.

(** A write of a link, with a pointer that is in range. *)
Ltac safe_write :=
  apply safe_modify; [done|]; intros ? ?;
  first [by apply set_next_ok | by apply set_desc_ok | by apply set_prev_ok].

Lemma safe_merge_roots_unchecked a b :
  (a < L)%nat → (b < L)%nat → safe (λ r, r = a) (merge_roots_unchecked a b).
Proof.
  intros Ha Hb. unfold merge_roots_unchecked.
  eapply safe_bind; [by apply safe_load|]. intros xa (Hn & Hd & Hp). cbn zeta.
  eapply safe_bind; [safe_write|]. intros _ _.
  eapply safe_bind with (ψ := λ _, True).
  { destruct (desc xa) as [c|]; [safe_write|by apply safe_ret]. }
  intros _ _. eapply safe_bind; [safe_write|]. intros _ _.
  eapply safe_bind; [safe_write|]. intros _ _. by apply safe_ret.
Qed.

Lemma safe_node_lt a b : (a < L)%nat → (b < L)%nat → safe (λ _, True) (node_lt a b).
Proof.
  intros Ha Hb. unfold node_lt.
  eapply safe_bind; [by apply safe_load|]. intros xa _.
  eapply safe_bind; [by apply safe_load|]. intros xb _. by apply safe_ret.
Qed.

Lemma safe_merge_roots_unsafe a b :
  (a < L)%nat → (b < L)%nat → safe (λ r, (r < L)%nat) (merge_roots_unsafe a b).
Proof.
  intros Ha Hb. unfold merge_roots_unsafe.
  eapply safe_bind; [by apply safe_node_lt|]. intros [] _.
  - eapply safe_weaken; [by apply safe_merge_roots_unchecked|]. by intros r ->.
  - eapply safe_weaken; [by apply safe_merge_roots_unchecked|]. by intros r ->.
Qed.

Lemma safe_merge_roots a b :
  (a < L)%nat → ptr_ok L b → safe (λ r, (r < L)%nat) (merge_roots a b).
Proof.
  intros Ha Hb. unfold merge_roots. destruct b as [b|]; [|by apply safe_ret].
  eapply safe_bind; [by apply safe_merge_roots_unsafe|]. intros c Hc.
  eapply safe_bind; [safe_write|]. intros _ _. by apply safe_ret.
Qed.

(** [remove(a)] dereferences [a->prev]: it needs a node that has one. *)
Lemma total_remove a xa b :
  (a < L)%nat → prev xa = Some b →
  total (λ q, shaped L d q ∧ nodes q !! a = Some xa) (remove a) (λ _, shaped L d).
Proof.
  intros Ha Hb q [Hq Hxa].
  assert (node_ok L xa) as (Hn & Hd & Hp).
  { destruct Hq as (_ & _ & Hok & _). by eapply Forall_lookup_1. }
  rewrite Hb in Hp. cbn in Hp.
  unfold remove. unfold bind at 1. unfold load at 1. rewrite Hxa. cbn zeta.
  rewrite Hb. unfold bind at 1. cbn [deref ret].
  enough (safe (λ _, True)
            (do xb <- load b;
             (if bool_decide (desc xb = Some a)
              then modify b (set_desc (next xa))
              else modify b (set_next (next xa))) >>
             match next xa with
             | Some c => modify c (set_prev (Some b)) >> modify a (set_next None)
             | None => ret ()
             end)) as H.
  { destruct (H q Hq) as (r & q' & Hr & _ & Hq'). by exists r, q'. }
  eapply safe_bind; [by apply safe_load|]. intros xb _.
  eapply safe_bind with (ψ := λ _, True).
  { case_bool_decide; safe_write. }
  intros _ _. destruct (next xa) as [c|]; [|by apply safe_ret].
  eapply safe_bind; [safe_write|]. intros _ _. safe_write.
Qed.

Lemma safe_decrease a : (a < L)%nat → safe (λ _, True) (decrease a).
Proof.
  intros Ha q Hq. destruct (shaped_lookup q a Hq Ha) as (xa & Hxa & Hok).
  unfold decrease. unfold bind at 1. unfold load at 1. rewrite Hxa.
  destruct (prev xa) as [b|] eqn:Hb; [|by eexists tt, q].
  destruct (total_remove a xa b Ha Hb q (conj Hq Hxa)) as ([] & q1 & H1 & Hq1).
  unfold bind at 1. rewrite H1.
  assert (safe (λ _, True)
            (do r <- get_root; do r <- merge_roots a r; set_root (Some r))) as H.
  { eapply safe_bind; [apply safe_get_root|]. intros r Hr.
    eapply safe_bind; [by apply safe_merge_roots|]. intros r' Hr'.
    by apply safe_set_root. }
  exact (H q1 Hq1).
Qed.

End Shaped.

(** *** What [check_decrease_value] does *)

Lemma shaped_set_val {X} (L : nat) (d : list (Z * X)) (q : pairing_queue X)
    (n : nat) (x : node X) (v : Z) :
  shaped L d q →
  nodes q !! n = Some x →
  ∃ q', modify n (set_val v) q = Done (tt, q')
        ∧ shaped L (<[n := (v, ext x)]> d) q'
        ∧ nodes q' !! n = Some (set_val v x).
Proof.
  intros (Hlen & Hroot & Hnodes & Hdata) Hx. eexists. unfold modify. rewrite Hx.
  split; [done|]. cbn. split.
  - split_and!; cbn.
    + by rewrite length_insert.
    + done.
    + apply Forall_insert; [done|].
      eapply Forall_lookup_1 in Hnodes; [|exact Hx]. exact Hnodes.
    + rewrite list_fmap_insert. by rewrite Hdata.
  - apply list_lookup_insert_eq. by eapply lookup_lt_Some.
Qed.

(** The plain queue, a proposed value that is strictly smaller: the call
    returns true, the key holds the new value and every other key the value
    it held. *)
Lemma check_decrease_value_decreases {X} (L : nat) (d : list (Z * X))
    (q : pairing_queue X) (k : Z) (x : node X) (v : Z) :
  shaped L d q →
  0 <= k →
  nodes q !! Z.to_nat k = Some x →
  v < val x →
  ∃ q', check_decrease_value k v q = Done (true, q')
        ∧ shaped L (<[Z.to_nat k := (v, ext x)]> d) q'.
Proof.
  intros Hq Hk Hx Hv.
  assert (Z.to_nat k < L)%nat as Hn.
  { destruct Hq as (<- & _). by eapply lookup_lt_Some. }
  unfold check_decrease_value, bind.
  rewrite node_at_Done by (destruct Hq as (-> & _); lia).
  unfold check_decrease_value_node, bind, load. rewrite Hx.
  rewrite bool_decide_eq_true_2 by done.
  destruct (shaped_set_val L d q _ x v Hq Hx) as (q1 & -> & Hq1 & _).
  destruct (safe_decrease L _ (Z.to_nat k) Hn q1 Hq1) as ([] & q2 & -> & _ & Hq2).
  by exists q2.
Qed.

Lemma lift_eq {A} (m : M (pairing_queue Z) A) (s : pairing_queue_fast_reset)
    (a : A) (q' : pairing_queue Z) :
  m (super s) = Done (a, q') → lift m s = Done (a, mk_fast q' (now s)).
Proof. intros H. unfold lift. by rewrite H. Qed.

Lemma key_in_range {X} (ns : list (node X)) (k : Z) (x : node X) :
  0 <= k → ns !! Z.to_nat k = Some x → 0 <= k < Z.of_nat (length ns).
Proof. intros Hk Hx%lookup_lt_Some. lia. Qed.

Lemma load_eq {X} (q : pairing_queue X) (n : nat) (x : node X) :
  nodes q !! n = Some x → load n q = Done (x, q).
Proof. intros H. unfold load. by rewrite H. Qed.

(** The protected [reset(N *n)] of the base class unlinks the node. *)
Lemma reset_node_spec {X} (L : nat) (d : list (Z * X)) (q : pairing_queue X)
    (n : nat) (x : node X) :
  shaped L d q →
  nodes q !! n = Some x →
  ∃ q', reset_node n q = Done (tt, q')
        ∧ shaped L d q'
        ∧ nodes q' !! n = Some (mk_node (val x) None None (Some n) (ext x)).
Proof.
  intros Hq Hx. pose proof Hq as (Hlen & Hroot & Hnodes & Hdata).
  assert (n < length (nodes q))%nat as Hn by by eapply lookup_lt_Some.
  eexists. unfold reset_node, bind, modify. rewrite Hx. cbn.
  rewrite list_lookup_insert_eq by done. cbn.
  rewrite list_lookup_insert_eq by by rewrite length_insert. cbn.
  rewrite !list_insert_insert_eq. split; [done|]. split.
  - split_and!; cbn.
    + by rewrite length_insert.
    + done.
    + apply Forall_insert; [done|]. repeat split; cbn; [done..|lia].
    + rewrite list_fmap_insert. cbn. rewrite list_insert_id; [done|].
      by rewrite list_lookup_fmap, Hx.
  - cbn. by apply list_lookup_insert_eq.
Qed.

(** [set_value] on a node with [prev == this]: the inserting branch. *)
Lemma set_value_node_inserts {X} (L : nat) (d : list (Z * X)) (q : pairing_queue X)
    (n : nat) (x : node X) (v : Z) :
  shaped L d q →
  nodes q !! n = Some x →
  prev x = Some n →
  ∃ q', set_value_node n v q = Done (tt, q')
        ∧ shaped L (<[n := (v, ext x)]> d) q'.
Proof.
  intros Hq Hx Hp.
  assert (n < L)%nat as Hn.
  { destruct Hq as (<- & _). by eapply lookup_lt_Some. }
  unfold set_value_node. unfold bind at 1. unfold load at 1. rewrite Hx.
  rewrite bool_decide_eq_true_2 by done.
  destruct (shaped_set_val L d q _ x v Hq Hx) as (q1 & H1 & Hq1 & _).
  unfold bind at 1. rewrite H1.
  assert (safe L (<[n := (v, ext x)]> d) (λ _, True)
            (do r <- get_root; do r <- merge_roots n r; set_root (Some r))) as H.
  { eapply safe_bind; [apply safe_get_root|]. intros r Hr.
    eapply safe_bind; [by apply safe_merge_roots|]. intros r' Hr'.
    by apply safe_set_root. }
  destruct (H q1 Hq1) as ([] & q2 & H2 & _ & Hq2). by exists q2.
Qed.

(** [current(n)] on a stale node: the node is unlinked and stamped. *)
Lemma current_stale (L : nat) (d : list (Z * Z)) (s : pairing_queue_fast_reset)
    (n : nat) (x : time_node) :
  shaped L d (super s) →
  nodes (super s) !! n = Some x →
  time x ≠ now s →
  ∃ q', FastReset.current n s = Done (false, mk_fast q' (now s))
        ∧ shaped L (<[n := (val x, now s)]> d) q'
        ∧ nodes q' !! n = Some (mk_node (val x) None None (Some n) (now s)).
Proof.
  intros Hq Hx Ht.
  destruct (reset_node_spec L d _ n x Hq Hx) as (q1 & H1 & Hq1 & Hx1).
  pose proof Hq1 as (Hlen1 & Hroot1 & Hnodes1 & Hdata1).
  assert (n < length (nodes q1))%nat as Hn by by eapply lookup_lt_Some.
  exists (mk_queue (<[n := mk_node (val x) None None (Some n) (now s)]> (nodes q1)) (root q1)).
  split; [|split].
  - unfold FastReset.current. unfold bind at 1.
    rewrite (lift_eq (load n) s x (super s) (load_eq _ _ _ Hx)).
    destruct s as [q t]. cbn [super now] in *.
    unfold bind at 1, get_now at 1. cbn [now].
    rewrite bool_decide_eq_true_2 by done.
    unfold FastReset.reset_node, bind, get_now.
    rewrite (lift_eq (reset_node n) (mk_fast q t) tt q1 H1). cbn [now super].
    unfold lift, modify. cbn [super now]. rewrite Hx1. reflexivity.
  - split_and!; cbn.
    + by rewrite length_insert.
    + done.
    + apply Forall_insert; [done|]. repeat split; cbn; [done..|lia].
    + rewrite list_fmap_insert. by rewrite Hdata1.
  - cbn. by apply list_lookup_insert_eq.
Qed.

Lemma current_live (s : pairing_queue_fast_reset) (n : nat) (x : time_node) :
  nodes (super s) !! n = Some x →
  time x = now s →
  FastReset.current n s = Done (true, s).
Proof.
  intros Hx Ht. unfold FastReset.current. unfold bind at 1.
  rewrite (lift_eq (load n) s x (super s) (load_eq _ _ _ Hx)).
  destruct s as [q t]. cbn [super now] in *.
  unfold bind, get_now. cbn [now]. rewrite bool_decide_eq_false_2; [done|].
  by intros [].
Qed.

(** [pairing_queue_fast_reset::check_decrease_value]: a live key behaves as in
    the plain queue; a stale key is given the proposed value and inserted,
    whatever the value, and the call returns true. *)
Lemma fast_check_decrease_value_spec (L : nat) (d : list (Z * Z))
    (s : pairing_queue_fast_reset) (k : Z) (x : time_node) (v : Z) :
  shaped L d (super s) →
  0 <= k →
  nodes (super s) !! Z.to_nat k = Some x →
  if decide (time x = now s) then
    if decide (v < val x) then
      ∃ q', FastReset.check_decrease_value k v s = Done (true, mk_fast q' (now s))
            ∧ shaped L (<[Z.to_nat k := (v, now s)]> d) q'
    else FastReset.check_decrease_value k v s = Done (false, s)
  else
    ∃ q', FastReset.check_decrease_value k v s = Done (true, mk_fast q' (now s))
          ∧ shaped L (<[Z.to_nat k := (v, now s)]> d) q'.
Proof.
  intros Hq Hk Hx.
  assert (lift (node_at k) s = Done (Z.to_nat k, s)) as Hnode.
  { destruct s as [q t]. apply (lift_eq (node_at k) (mk_fast q t)).
    apply node_at_Done. by eapply key_in_range. }
  assert (∀ r, (do c <- FastReset.current (Z.to_nat k);
                 if c then lift (check_decrease_value_node (Z.to_nat k) v)
                 else lift (set_value_node (Z.to_nat k) v) >> ret true) s = r →
               FastReset.check_decrease_value k v s = r) as Hcdv.
  { intros r <-. unfold FastReset.check_decrease_value. unfold bind at 1.
    by rewrite Hnode. }
  destruct (decide (time x = now s)) as [Ht|Ht].
  - destruct (decide (v < val x)) as [Hv|Hv].
    + destruct (check_decrease_value_decreases L d (super s) k x v Hq Hk Hx Hv)
        as (q' & H' & Hq').
      unfold check_decrease_value, bind in H'.
      rewrite node_at_Done in H' by by eapply key_in_range.
      exists q'. split; [|by rewrite <- Ht].
      apply Hcdv. unfold bind. rewrite (current_live s _ x Hx Ht).
      by apply lift_eq.
    + apply Hcdv. unfold bind. rewrite (current_live s _ x Hx Ht).
      destruct s as [q t].
      apply (lift_eq (check_decrease_value_node (Z.to_nat k) v) (mk_fast q t)).
      by apply check_decrease_value_node_noop with x.
  - destruct (current_stale L d s _ x Hq Hx Ht) as (q1 & H1 & Hq1 & Hx1).
    destruct (set_value_node_inserts L _ q1 _ _ v Hq1 Hx1 eq_refl) as (q2 & H2 & Hq2).
    exists q2. split; [|cbn in Hq2; by rewrite list_insert_insert_eq in Hq2].
    apply Hcdv. unfold bind at 1. rewrite H1. unfold bind.
    by rewrite (lift_eq _ (mk_fast q1 (now s)) _ _ H2).
Qed.

End PairingQueueFacts.

(** ** Theorems: the Python front end *)

Module MinorminerFacts.
Import Minorminer.
Local Open Scope py_scope.

(** *** Equality of labels *)

Lemma label_nested_ind (P : label → Prop) :
  (∀ z, P (LInt z)) →
  (∀ s, P (LStr s)) →
  (∀ l, Forall P l → P (LTuple l)) →
  ∀ a, P a.
Proof.
  intros Hint Hstr Htuple. fix IH 1. intros [z|s|l].
  - apply Hint.
  - apply Hstr.
  - apply Htuple. induction l as [|x l IHl]; constructor; [apply IH|apply IHl].
Qed.

Lemma label_eqb_eq (a b : label) : label_eqb a b = true ↔ a = b.
Proof.
  revert b. induction a as [x|x|xs IH] using label_nested_ind; intros [y|y|ys];
    cbn; try (split; [discriminate|discriminate]).
  - rewrite bool_decide_eq_true. split; congruence.
  - rewrite bool_decide_eq_true. split; congruence.
  - revert ys. induction IH as [|x xs Hx _ IHxs]; intros [|y ys];
      try (split; [discriminate|discriminate]); [done|].
    rewrite andb_true_iff, Hx, IHxs. split.
    + intros [-> [= ->]]. done.
    + intros [= -> ->]. done.
Qed.

Lemma label_eqb_refl (a : label) : label_eqb a a = true.
Proof. by apply label_eqb_eq. Qed.

Lemma label_eqb_neq (a b : label) : label_eqb a b = false ↔ a ≠ b.
Proof. rewrite <- label_eqb_eq. by destruct (label_eqb a b). Qed.


(** *** Dicts *)

Section DictFacts.
Context {K V : Type} (eqb : K → K → bool).
Hypothesis eqb_eq : ∀ a b, eqb a b = true ↔ a = b.







End DictFacts.

(** *** Histograms *)









Global Instance pair_ge_total : Total (λ a b : Z * Z, pair_le b a).
Proof. intros [a1 a2] [b1 b2]. unfold pair_le. cbn. lia. Qed.

Global Instance pair_ge_trans : Transitive (λ a b : Z * Z, pair_le b a).
Proof. intros [a1 a2] [b1 b2] [c1 c2]. unfold pair_le. cbn. lia. Qed.





(** *** Overlaps *)













Lemma flatten_nil (h : list (Z * Z)) : flatten h = [] ↔ h = [].
Proof. split; [|by intros ->]. by destruct h. Qed.




(** Where [dict.values()] is a view, the call with [embedded] false does
    not get past the [list] parameter of [count_overlaps]. *)
Lemma quality_key_view_raises (emb : dict label (list label)) :
  emb ≠ [] → quality_key Python3 emb false = raise TypeError.
Proof. by destruct emb. Qed.

(** *** Options and pins *)

Lemma check_names_rejects (keys : list string) (name : string) :
  name ∈ keys →
  name ∉ names →
  ∃ bad, bad ∈ keys ∧ (bad ∉ names) ∧
    check_names keys
    = ([], inl (ValueError "%s is not a valid parameter for find_embedding" (LStr bad))).
Proof.
  intros Hin Hbad. induction keys as [|k keys IH]; [by apply elem_of_nil in Hin|].
  cbn [check_names]. unfold mem_str. case_bool_decide as Hk.
  - apply elem_of_cons in Hin as [->|Hin]; [done|].
    destruct (IH Hin) as (bad & ? & ? & ->).
    exists bad. split_and!; [by apply list_elem_of_further|done..].
  - exists k. split_and!; [by apply list_elem_of_here|done..].
Qed.

(** C2. When [params] has a key outside the sixteen recognised names,
    [find_embedding] raises [ValueError] for such a key, and nothing has
    happened by then: no entropy read, no edge list parsed, no heuristic
    run. *)
Theorem unknown_option_is_rejected (urandom : Z)
    (findEmbedding : input_graph → input_graph → optional_parameters → Z * list (list nat))
    (S T : list (label * label)) (params : dict string pyvalue) (name : string) :
  name ∈ dict_keys params →
  name ∉ names →
  ∃ bad, bad ∈ dict_keys params ∧ (bad ∉ names) ∧
    find_embedding urandom findEmbedding S T params
    = ([], inl (ValueError "%s is not a valid parameter for find_embedding" (LStr bad))).
Proof.
  intros Hin Hbad.
  destruct (check_names_rejects _ _ Hin Hbad) as (bad & H1 & H2 & H).
  exists bad. split_and!; [done..|].
  unfold find_embedding, __init__. unfold py_bind at 1. unfold py_bind at 1.
  by rewrite H.
Qed.

Lemma unknown_option_is_rejected_witness :
  ∃ bad, bad ∈ dict_keys [("tries"%string, PNum 3); ("colour"%string, PNone)]
    ∧ (bad ∉ names) ∧
    find_embedding 0 (λ _ _ _, (0, [])) [(LInt 0, LInt 1)] [(LInt 0, LInt 1)]
      [("tries"%string, PNum 3); ("colour"%string, PNone)]
    = ([], inl (ValueError "%s is not a valid parameter for find_embedding" (LStr bad))).
Proof.
  apply (unknown_option_is_rejected 0 (λ _ _ _, (0, [])) [(LInt 0, LInt 1)]
           [(LInt 0, LInt 1)] [("tries"%string, PNum 3); ("colour"%string, PNone)]
           "colour"%string).
  - vm_compute. apply list_elem_of_further, list_elem_of_here.
  - apply (bool_decide_eq_false_1 _). vm_compute. reflexivity.
Defined.

(** C1. Source edge (a, b), target edge (0, 1) and
    [suspend_chains = {a: [[0]]}]: one pin is created and becomes source id
    2.  Whatever chains the core returns for the three source ids, the
    mapping that [find_embedding] returns has the pin among its keys. *)
Theorem pin_is_returned_as_key (urandom : Z) (success : Z) (c0 c1 c2 : nat) :
  (c0 < 3)%nat → (c1 < 3)%nat → (c2 < 3)%nat →
  let a := LStr "a" in
  let b := LStr "b" in
  let pin := LTuple [LStr PIN; a; LInt 0] in
  ∃ rchain,
    find_embedding urandom (λ _ _ _, (success, [[c0]; [c1]; [c2]]))
      [(a, b)] [(LInt 0, LInt 1)] [("suspend_chains"%string, PSuspend [(a, [[LInt 0]])])]
    = ([Urandom; ReadGraph [(a, b)]; ReadGraph [(LInt 0, LInt 1)]; FindEmbedding],
       inr (Mapping rchain))
    ∧ dict_keys rchain = [a; b; pin].
Proof.
  intros H0 H1 H2 a b pin.
  assert (c0 = 0 ∨ c0 = 1 ∨ c0 = 2)%nat as [->|[->| ->]] by lia;
  assert (c1 = 0 ∨ c1 = 1 ∨ c1 = 2)%nat as [->|[->| ->]] by lia;
  assert (c2 = 0 ∨ c2 = 1 ∨ c2 = 2)%nat as [->|[->| ->]] by lia;
  eexists; (split; [vm_compute; reflexivity|reflexivity]).
Qed.

Lemma pin_is_returned_as_key_witness :
  ∃ rchain,
    find_embedding 0 (λ _ _ _, (1, [[0%nat]; [1%nat]; [2%nat]]))
      [(LStr "a", LStr "b")] [(LInt 0, LInt 1)]
      [("suspend_chains"%string, PSuspend [(LStr "a", [[LInt 0]])])]
    = ([Urandom; ReadGraph [(LStr "a", LStr "b")]; ReadGraph [(LInt 0, LInt 1)];
        FindEmbedding],
       inr (Mapping rchain))
    ∧ dict_keys rchain = [LStr "a"; LStr "b"; LTuple [LStr PIN; LStr "a"; LInt 0]].
Proof. apply (pin_is_returned_as_key 0 1 0 1 2); lia. Defined.

End MinorminerFacts.

(* ================================================================== *)
(** * The generator as a permutation of its state                        *)
(* ================================================================== *)

Module FastrngState.
Import Fastrng FastrngFacts.

(** A value of type [uint64_t]. *)
Definition uint64 (z : Z) : Prop := 0 <= z < 2 ^ 64.

(** A generator whose two members hold [uint64_t] values. *)
Definition in_range (g : fastrng) : Prop := uint64 (S0 g) ∧ uint64 (S1 g).

(** The step back: the state that the body of [operator()] started from,
    computed from the state it left. *)
Definition undo (g : fastrng) : fastrng :=
  let y := S0 g in
  let c := Z.lxor (Z.lxor (S1 g) y) (Z.shiftr y 26) in
  let x := Z.lxor (Z.lxor (Z.lxor c (Z.shiftr c 17)) (Z.shiftr c 34)) (Z.shiftr c 51) in
  let x := Z.lxor (Z.lxor x (wrap64 (Z.shiftl x 23))) (wrap64 (Z.shiftl x 46)) in
  mk_fastrng x y.

Lemma uint64_wrap64 (z : Z) : uint64 (wrap64 z).
Proof. unfold uint64, wrap64. apply Z.mod_pos_bound. lia. Qed.

Lemma uint64_high (z i : Z) : uint64 z → 64 <= i → Z.testbit z i = false.
Proof.
  intros [H0 H1] Hi.
  apply (proj1 (Z.bounded_iff_bits_nonneg 64 z ltac:(lia) H0) H1 i). lia.
Qed.

Lemma uint64_lxor (a b : Z) : uint64 a → uint64 b → uint64 (Z.lxor a b).
Proof.
  intros Ha Hb. assert (0 <= Z.lxor a b) as H0.
  { apply Z.lxor_nonneg. unfold uint64 in *. lia. }
  split; [done|].
  apply (Z.bounded_iff_bits_nonneg 64); [lia|done|].
  intros l Hl. rewrite Z.lxor_spec.
  by rewrite (uint64_high a), (uint64_high b) by (done || lia).
Qed.

Lemma uint64_shiftr (a n : Z) : 0 <= n → uint64 a → uint64 (Z.shiftr a n).
Proof.
  unfold uint64. intros Hn [Ha Ha']. rewrite Z.shiftr_div_pow2 by done.
  split; [apply Z.div_pos; lia|].
  apply Z.div_lt_upper_bound; [lia|]. nia.
Qed.

Lemma in_range_discard_body (g : fastrng) : in_range g → in_range (discard_body g).
Proof.
  intros [H0 H1]. unfold discard_body, in_range. cbn. split; [done|].
  repeat first [apply uint64_lxor | apply uint64_shiftr | apply uint64_wrap64 | done].
Qed.

Lemma in_range_iter (n : nat) (g : fastrng) :
  in_range g → in_range (Nat.iter n discard_body g).
Proof. intros Hg. induction n as [|n IH]; [done|]. by apply in_range_discard_body. Qed.

Lemma discard_iter (n : Z) (g : fastrng) :
  discard n g = Nat.iter (Z.to_nat n) discard_body g.
Proof.
  unfold discard. destruct (decide (0 <= n)) as [Hn|Hn].
  - rewrite <- (Z2Nat.id n) at 2 by done. by apply discard_loop_iter.
  - by replace (Z.to_nat n) with O by lia.
Qed.

Lemma in_range_discard (n : Z) (g : fastrng) : in_range g → in_range (discard n g).
Proof. intros Hg. rewrite discard_iter. by apply in_range_iter. Qed.

Lemma uint64_splitmix64 (x : Z) : uint64 (splitmix64 x).1 ∧ uint64 (splitmix64 x).2.
Proof.
  unfold splitmix64. cbn. split; [|apply uint64_wrap64].
  apply uint64_lxor; [apply uint64_wrap64|].
  apply uint64_shiftr; [done|apply uint64_wrap64].
Qed.

Lemma in_range_seed (x : Z) (g : fastrng) : in_range (seed x g).
Proof.
  unfold seed. destruct (splitmix64 x) as [r0 x1] eqn:E0.
  destruct (splitmix64 x1) as [r1 x2] eqn:E1.
  apply in_range_discard. split; cbn.
  - pose proof (uint64_splitmix64 x) as [H _]. by rewrite E0 in H.
  - pose proof (uint64_splitmix64 x1) as [H _]. by rewrite E1 in H.
Qed.

Lemma draw_in_range (n : nat) (g : fastrng) :
  in_range g → Forall uint64 (draw n g).1 ∧ in_range (draw n g).2.
Proof.
  revert g. induction n as [|n IH]; intros g Hg; [by split|].
  cbn [draw]. destruct (call g) as [r g1] eqn:Hc.
  assert (g1 = discard_body g) as -> by (by rewrite <- call_state, Hc).
  assert (uint64 r) as Hr.
  { replace r with (call g).1 by by rewrite Hc. apply uint64_wrap64. }
  destruct (IH _ (in_range_discard_body g Hg)) as [H1 H2].
  destruct (draw n (discard_body g)) as [rs g2]. cbn in *.
  split; [by constructor|done].
Qed.

(** ** Bits of the words *)

Lemma testbit_wrap64 (z i : Z) :
  Z.testbit (wrap64 z) i = bool_decide (i < 64) && Z.testbit z i.
Proof.
  unfold wrap64. case_bool_decide.
  - destruct (decide (0 <= i)); [by rewrite Z.mod_pow2_bits_low by lia|].
    by rewrite !Z.testbit_neg_r by lia.
  - rewrite Z.mod_pow2_bits_high by lia. done.
Qed.

Lemma testbit_shiftl (z n i : Z) :
  0 <= n → Z.testbit (Z.shiftl z n) i = Z.testbit z (i - n).
Proof.
  intros Hn. destruct (decide (0 <= i)); [by rewrite Z.shiftl_spec|].
  by rewrite !Z.testbit_neg_r by lia.
Qed.

Ltac bits :=
  repeat first
    [ rewrite Z.lxor_spec
    | rewrite testbit_wrap64
    | rewrite Z.shiftr_spec by lia
    | rewrite testbit_shiftl by lia
    | rewrite bool_decide_eq_true_2 by lia
    | rewrite bool_decide_eq_false_2 by lia ];
  cbn [andb].

Ltac xor_solve :=
  repeat match goal with
    | |- context [Z.testbit ?a ?b] =>
        let t := fresh "t" in generalize (Z.testbit a b); intros t
    end;
  repeat match goal with t : bool |- _ => destruct t end; reflexivity.

(** [x ^= x << 23] is undone by two more shifted copies: the third one
    falls out of the 64 bits. *)
Lemma undo_shiftl (x : Z) :
  uint64 x →
  let x1 := Z.lxor x (wrap64 (Z.shiftl x 23)) in
  Z.lxor (Z.lxor x1 (wrap64 (Z.shiftl x1 23))) (wrap64 (Z.shiftl x1 46)) = x.
Proof.
  intros Hx x1. subst x1. apply Z.bits_inj'. intros i Hi.
  destruct (decide (i < 64)) as [H64|H64].
  - bits. replace (i - 23 - 23) with (i - 46) by lia.
    replace (i - 46 - 23) with (i - 69) by lia.
    rewrite (Z.testbit_neg_r x (i - 69)) by lia. xor_solve.
  - bits. by rewrite !(uint64_high x) by (done || lia).
Qed.

(** [x ^ (x >> 17)] is undone by three more shifted copies. *)
Lemma undo_shiftr (x : Z) :
  uint64 x →
  let c := Z.lxor x (Z.shiftr x 17) in
  Z.lxor (Z.lxor (Z.lxor c (Z.shiftr c 17)) (Z.shiftr c 34)) (Z.shiftr c 51) = x.
Proof.
  intros Hx c. subst c. apply Z.bits_inj'. intros i Hi. bits.
  replace (i + 17 + 17) with (i + 34) by lia.
  replace (i + 34 + 17) with (i + 51) by lia.
  replace (i + 51 + 17) with (i + 68) by lia.
  rewrite (uint64_high x (i + 68)) by (done || lia). xor_solve.
Qed.

Lemma lxor_cancel (a y s : Z) :
  Z.lxor (Z.lxor (Z.lxor (Z.lxor (Z.lxor a y) s) (Z.shiftr y 26)) y) (Z.shiftr y 26)
  = Z.lxor a s.
Proof. apply Z.bits_inj'. intros i Hi. rewrite !Z.lxor_spec. xor_solve. Qed.

Lemma undo_discard_body (g : fastrng) : in_range g → undo (discard_body g) = g.
Proof.
  destruct g as [x y]. intros [Hx Hy]. cbn in Hx, Hy.
  unfold undo, discard_body. cbn. f_equal.
  rewrite lxor_cancel.
  rewrite undo_shiftr by (apply uint64_lxor; [done|apply uint64_wrap64]).
  by apply undo_shiftl.
Qed.

Lemma discard_body_inj (g1 g2 : fastrng) :
  in_range g1 → in_range g2 → discard_body g1 = discard_body g2 → g1 = g2.
Proof.
  intros H1 H2 E.
  rewrite <- (undo_discard_body g1), <- (undo_discard_body g2) by done.
  by rewrite E.
Qed.

(** X1 (fastrng.hpp, [seed(uint64_t)], [operator()]): after [seed(x)],
    whatever the seed and whatever the members held before, both state
    words and every value that [operator()] returns are [uint64_t] values,
    however many values are drawn. *)
Theorem seeded_stream_is_uint64 (x : Z) (g : fastrng) (n : nat) :
  Forall uint64 (draw n (seed x g)).1 ∧ in_range (draw n (seed x g)).2.
Proof. apply draw_in_range, in_range_seed. Qed.

(** X2 (fastrng.hpp, [discard]): for counts that [discard] can be
    called with (its parameter is an [int]: [a + b] is at most [INT_MAX]),
    discarding [a] values and then [b] values leaves the generator where
    discarding [a + b] values leaves it. *)
Theorem discard_add (a b : Z) (g : fastrng) :
  0 <= a → 0 <= b → a + b <= INT_MAX →
  discard (a + b) g = discard b (discard a g).
Proof.
  intros Ha Hb _. rewrite !discard_iter, Z2Nat.inj_add by done.
  rewrite Nat.add_comm. apply Nat.iter_add.
Qed.

Lemma discard_add_witness :
  discard (2 + 3) (mk_fastrng 1 2) = discard 3 (discard 2 (mk_fastrng 1 2)).
Proof. apply (discard_add 2 3 (mk_fastrng 1 2)); unfold INT_MAX; lia. Defined.

(** X3 (fastrng.hpp, [operator()]): the state transition of [operator()]
    is one-to-one on [uint64_t] states: two generators that are in the
    same state after a call were in the same state before it. *)
Theorem step_injective (g1 g2 : fastrng) :
  in_range g1 → in_range g2 → (call g1).2 = (call g2).2 → g1 = g2.
Proof. intros H1 H2. rewrite !call_state. by apply discard_body_inj. Qed.

Lemma step_injective_witness : mk_fastrng 1 2 = mk_fastrng 1 2.
Proof.
  apply (step_injective (mk_fastrng 1 2) (mk_fastrng 1 2));
    [split; cbn; unfold uint64; lia | split; cbn; unfold uint64; lia | reflexivity].
Defined.

(** X4 (fastrng.hpp, [discard], [operator()]): the all-zero state is the
    only one that leads to the all-zero state: a generator whose state is
    not all zero never reaches it, however many values are discarded. *)
Theorem nonzero_state_stays_nonzero (n : Z) (g : fastrng) :
  in_range g → g ≠ mk_fastrng 0 0 → discard n g ≠ mk_fastrng 0 0.
Proof.
  intros Hg Hz. rewrite discard_iter.
  induction (Z.to_nat n) as [|k IH]; [done|]. cbn [Nat.iter]. intros E.
  apply IH. apply discard_body_inj; [by apply in_range_iter| |exact E].
  split; cbn; unfold uint64; lia.
Qed.

Lemma nonzero_state_stays_nonzero_witness :
  discard 5 (mk_fastrng 1 2) ≠ mk_fastrng 0 0.
Proof.
  apply (nonzero_state_stays_nonzero 5 (mk_fastrng 1 2));
    [split; cbn; unfold uint64; lia | discriminate].
Defined.

(** A value of type [uint32_t]. *)
Definition uint32 (z : Z) : Prop := 0 <= z < 2 ^ 32.

Lemma uint32_wrap32 (z : Z) : uint32 (wrap32 z).
Proof. unfold uint32, wrap32. apply Z.mod_pos_bound. lia. Qed.

Lemma uint32_lxor_shiftr (z n : Z) : 0 <= n → uint32 z → uint32 (Z.lxor z (Z.shiftr z n)).
Proof.
  intros Hn [H0 H1].
  assert (0 <= Z.shiftr z n < 2 ^ 32) as [Hs0 Hs1].
  { rewrite Z.shiftr_div_pow2 by done. split; [apply Z.div_pos; lia|].
    apply Z.div_lt_upper_bound; [lia|]. nia. }
  assert (0 <= Z.lxor z (Z.shiftr z n)) as Hx by (apply Z.lxor_nonneg; lia).
  split; [done|].
  apply (Z.bounded_iff_bits_nonneg 32); [lia|done|].
  intros l Hl. rewrite Z.lxor_spec.
  rewrite (proj1 (Z.bounded_iff_bits_nonneg 32 z ltac:(lia) H0) H1 l Hl).
  by rewrite (proj1 (Z.bounded_iff_bits_nonneg 32 _ ltac:(lia) Hs0) Hs1 l Hl).
Qed.

Lemma uint32_splitmix32 (x : Z) : uint32 (splitmix32 x).1 ∧ uint32 (splitmix32 x).2.
Proof.
  unfold splitmix32. cbn. split; [|apply uint32_wrap32].
  apply uint32_lxor_shiftr; [done|apply uint32_wrap32].
Qed.

(** X22 (fastrng.hpp, [seed(uint32_t)], [splitmix32]): [seed(uint32_t x)]
    seeds with the 64-bit word whose low half is the first and whose high
    half is the second value of [splitmix32]: both values fit 32 bits, so
    neither the shift nor the addition loses a bit.  The state it leaves
    holds [uint64_t] values. *)
Theorem seed32_joins_two_words (x : Z) (g : fastrng) :
  let a := (splitmix32 x).1 in
  let b := (splitmix32 (splitmix32 x).2).1 in
  uint32 a ∧ uint32 b ∧
  seed32 x g = seed (b * 2 ^ 32 + a) g ∧
  in_range (seed32 x g).
Proof.
  intros a b.
  destruct (uint32_splitmix32 x) as [Ha _].
  destruct (uint32_splitmix32 (splitmix32 x).2) as [Hb _].
  fold a in Ha. fold b in Hb.
  assert (seed32 x g = seed (b * 2 ^ 32 + a) g) as E.
  { unfold seed32. subst a b. destruct (splitmix32 x) as [a x1]. cbn [fst snd] in *.
    destruct (splitmix32 x1) as [b x2]. cbn [fst snd] in *.
    unfold uint32 in *. f_equal. unfold wrap64. rewrite Z.shiftl_mul_pow2 by lia.
    rewrite (Z.mod_small (b * 2 ^ 32)) by lia. apply Z.mod_small. lia. }
  split_and!; [done|done|done|]. rewrite E. apply in_range_seed.
Qed.

End FastrngState.

(* ================================================================== *)
(** * The pairing queue as a priority queue *)
(* ================================================================== *)

Module PairingHeap.
Import PairingQueue PairingQueueFacts.
Local Open Scope heap_scope.

(** * The heap the links describe *)

(** A heap-ordered tree of keys: a node with its children, first child
    first. *)
#[local] Unset Elimination Schemes.
Inductive tree := T (k : nat) (cs : list tree).

#[local] Set Elimination Schemes.

Definition top (t : tree) : nat := match t with T k _ => k end.

Fixpoint keys (t : tree) : list nat :=
  match t with T k cs => k :: flat_map keys cs end.

Lemma tree_nested_ind (P : tree → Prop) :
  (∀ k cs, Forall P cs → P (T k cs)) → ∀ t, P t.
Proof.
  intros H. fix IH 1. intros [k cs]. apply H.
  induction cs as [|c cs IHcs]; constructor; [apply IH|exact IHcs].
Qed.

Section Rep.
Context {X : Type}.
Implicit Types (ns : list (node X)) (t : tree) (ts : list tree) (ks : list nat).

(** [(val, key)] of node [a] is not after that of node [b]: the negation of
    [*b < *a]. *)
Definition valof ns (i : nat) : Z := from_option val 0 (ns !! i).

Definition node_le ns (a b : nat) : Prop :=
  valof ns a < valof ns b ∨ (valof ns a = valof ns b ∧ (a <= b)%nat).

#[local] Unset Elimination Schemes.
Inductive ordered ns : tree → Prop :=
  | ordered_T k cs :
      Forall (λ c, node_le ns k (top c)) cs →
      Forall (ordered ns) cs →
      ordered ns (T k cs).

#[local] Set Elimination Schemes.

(** A list of nodes chained through one of their links. *)
Fixpoint linked (sel : node X → ptr) ns ks : Prop :=
  match ks with
  | [] => True
  | k :: ks' => (∃ y, ns !! k = Some y ∧ sel y = head ks') ∧ linked sel ns ks'
  end.

(** The [prev] links of a list of siblings: the first child points to the
    parent, every other child to the sibling before it. *)
Fixpoint backed ns (pv : ptr) ks : Prop :=
  match ks with
  | [] => True
  | k :: ks' => (∃ y, ns !! k = Some y ∧ prev y = pv) ∧ backed ns (Some k) ks'
  end.

(** The links below the root of [t] are those of the tree [t]; the [next]
    and [prev] of the root itself are left open. *)
#[local] Unset Elimination Schemes.
Inductive rep ns : tree → Prop :=
  | rep_T k cs x :
      ns !! k = Some x →
      desc x = head (top <$> cs) →
      linked next ns (top <$> cs) →
      backed ns (Some k) (top <$> cs) →
      Forall (rep ns) cs →
      rep ns (T k cs).

#[local] Set Elimination Schemes.

(** A node that is in no heap. *)
Definition detached (i : nat) (x : node X) : Prop :=
  next x = None ∧ desc x = None ∧ prev x = Some i.

Lemma node_le_refl ns a : node_le ns a a.
Proof. right. split; [done|lia]. Qed.

Lemma node_le_trans ns a b c : node_le ns a b → node_le ns b c → node_le ns a c.
Proof. unfold node_le. intros [?|[? ?]] [?|[? ?]]; [left; lia..|right; split; lia]. Qed.

Lemma node_le_total ns a b : node_le ns a b ∨ node_le ns b a.
Proof. unfold node_le. lia. Qed.

Lemma node_le_antisym ns a b : node_le ns a b → node_le ns b a → a = b.
Proof. unfold node_le. lia. Qed.

Lemma key_in_keys t : top t ∈ keys t.
Proof. destruct t. cbn. apply list_elem_of_here. Qed.

Lemma keys_in_forest t ts i : t ∈ ts → i ∈ keys t → i ∈ flat_map keys ts.
Proof.
  intros Ht Hi. apply list_elem_of_In, in_flat_map. exists t.
  by rewrite <- !list_elem_of_In.
Qed.

Lemma roots_in_forest ts i : i ∈ top <$> ts → i ∈ flat_map keys ts.
Proof.
  intros (t & -> & Ht)%list_elem_of_fmap. eapply keys_in_forest; [done|].
  apply key_in_keys.
Qed.

(** The root of an ordered tree is not after any of its keys. *)
Lemma ordered_root ns t i : ordered ns t → i ∈ keys t → node_le ns (top t) i.
Proof.
  revert i. induction t as [k cs IH] using tree_nested_ind. intros i Ho Hi.
  inversion Ho as [k' cs' Hle Hcs]; subst. cbn in *.
  apply elem_of_cons in Hi as [->|Hi]; [apply node_le_refl|].
  apply list_elem_of_In, in_flat_map in Hi as (c & Hc & Hi).
  apply list_elem_of_In in Hc, Hi.
  rewrite Forall_forall in IH, Hle, Hcs.
  eapply node_le_trans; [by apply Hle|]. apply IH; [done|by apply Hcs|done].
Qed.

(** ** What the predicates depend on *)

Lemma linked_ext sel ns ns' ks :
  (∀ i, i ∈ ks → sel <$> ns' !! i = sel <$> ns !! i) →
  linked sel ns ks → linked sel ns' ks.
Proof.
  induction ks as [|k ks IH]; [done|]. cbn. intros H [(y & Hy & Hs) Hl].
  split; [|apply IH; [|done]; intros i Hi; apply H; by apply list_elem_of_further].
  specialize (H k (list_elem_of_here _ _)). rewrite Hy in H. cbn in H.
  destruct (ns' !! k) as [y'|]; [|done]. injection H as H. exists y'. by rewrite H.
Qed.

Lemma backed_ext ns ns' pv ks :
  (∀ i, i ∈ ks → prev <$> ns' !! i = prev <$> ns !! i) →
  backed ns pv ks → backed ns' pv ks.
Proof.
  revert pv. induction ks as [|k ks IH]; [done|]. cbn. intros pv H [(y & Hy & Hs) Hl].
  split; [|apply IH; [|done]; intros i Hi; apply H; by apply list_elem_of_further].
  specialize (H k (list_elem_of_here _ _)). rewrite Hy in H. cbn in H.
  destruct (ns' !! k) as [y'|]; [|done]. injection H as H. exists y'. by rewrite H.
Qed.

Definition below (t : tree) : list nat := match t with T _ cs => flat_map keys cs end.

Lemma keys_below t : keys t = top t :: below t.
Proof. by destruct t. Qed.

Lemma rep_ext ns ns' t :
  desc <$> ns' !! top t = desc <$> ns !! top t →
  (∀ i, i ∈ below t → ns' !! i = ns !! i) →
  rep ns t → rep ns' t.
Proof.
  induction t as [k cs IH] using tree_nested_ind. cbn. intros Hd Hb Hr.
  inversion Hr as [k' cs' x Hx Hdx Hl Hbk Hcs]; subst.
  assert (∀ i, i ∈ top <$> cs → ns' !! i = ns !! i) as Hroots.
  { intros i Hi. apply Hb. by apply roots_in_forest. }
  rewrite Hx in Hd. cbn in Hd. destruct (ns' !! k) as [x'|] eqn:Hx'; [|done].
  injection Hd as Hd. econstructor; [exact Hx'|by rewrite Hd|..].
  - eapply linked_ext; [|exact Hl]. intros i Hi. by rewrite Hroots.
  - eapply backed_ext; [|exact Hbk]. intros i Hi. by rewrite Hroots.
  - rewrite Forall_forall in IH, Hcs. apply Forall_forall. intros c Hc.
    apply IH; [done| | |by apply Hcs].
    + rewrite Hroots; [done|]. by apply list_elem_of_fmap_2.
    + intros i Hi. apply Hb. eapply keys_in_forest; [done|].
      rewrite keys_below. by apply list_elem_of_further.
Qed.

Lemma ordered_ext ns ns' t :
  (∀ i, i ∈ keys t → valof ns' i = valof ns i) →
  ordered ns t → ordered ns' t.
Proof.
  induction t as [k cs IH] using tree_nested_ind. intros Hv Ho.
  inversion Ho as [k' cs' Hle Hcs]; subst. constructor.
  - rewrite Forall_forall in Hle |- *. intros c Hc. specialize (Hle c Hc).
    unfold node_le in *. rewrite !Hv; [done|..].
    + cbn. apply list_elem_of_further. eapply keys_in_forest; [done|apply key_in_keys].
    + apply list_elem_of_here.
  - rewrite Forall_forall in IH, Hcs |- *. intros c Hc. apply IH; [done| |by apply Hcs].
    intros i Hi. apply Hv. cbn. apply list_elem_of_further. by eapply keys_in_forest.
Qed.

(** ** Arenas that differ in a few nodes *)

(** [ns'] has the nodes of [ns], with the same values and extra members,
    and the same links outside [ks]. *)
Definition same_but ks ns ns' : Prop :=
  length ns' = length ns ∧
  (∀ i, i ∉ ks → ns' !! i = ns !! i) ∧
  (∀ i, data <$> ns' !! i = data <$> ns !! i).

Lemma same_but_refl ks ns : same_but ks ns ns.
Proof. done. Qed.

Lemma same_but_trans ks ns1 ns2 ns3 :
  same_but ks ns1 ns2 → same_but ks ns2 ns3 → same_but ks ns1 ns3.
Proof.
  intros (Hl1 & Ho1 & Hd1) (Hl2 & Ho2 & Hd2). split_and!.
  - by rewrite Hl2.
  - intros i Hi. by rewrite Ho2, Ho1.
  - intros i. by rewrite Hd2.
Qed.

Lemma same_but_mono ks ks' ns ns' :
  (∀ i, i ∈ ks → i ∈ ks') → same_but ks ns ns' → same_but ks' ns ns'.
Proof. intros H (Hl & Ho & Hd). split_and!; [done| |done]. intros i Hi. apply Ho. auto. Qed.

Lemma same_but_valof ks ns ns' i : same_but ks ns ns' → valof ns' i = valof ns i.
Proof.
  intros (_ & _ & Hd). specialize (Hd i). unfold valof.
  destruct (ns' !! i), (ns !! i); cbn in *; try done. by injection Hd.
Qed.

Lemma same_but_insert ks ns j x y :
  ns !! j = Some x → data y = data x → j ∈ ks → same_but ks ns (<[j := y]> ns).
Proof.
  intros Hx Hd Hj. split_and!.
  - apply length_insert.
  - intros i Hi. apply list_lookup_insert_ne. by intros ->.
  - intros i. destruct (decide (i = j)) as [->|Hne].
    + rewrite list_lookup_insert_eq by by eapply lookup_lt_Some. rewrite Hx. cbn. by rewrite Hd.
    + by rewrite list_lookup_insert_ne.
Qed.

Lemma ordered_same_but ks ns ns' t : same_but ks ns ns' → ordered ns t → ordered ns' t.
Proof. intros H. apply ordered_ext. intros i _. by eapply same_but_valof. Qed.

Lemma node_le_same_but ks ns ns' a b : same_but ks ns ns' → node_le ns a b → node_le ns' a b.
Proof. intros H. unfold node_le. by rewrite !(same_but_valof ks ns ns'). Qed.

(** ** The effect of the calls on the links *)

Ltac mem := cbn; rewrite ?elem_of_cons; auto 6.

Ltac lk :=
  repeat first
    [ rewrite list_lookup_insert_ne by done
    | rewrite list_lookup_insert_eq by (rewrite ?length_insert; eauto using lookup_lt_Some) ].

Lemma run_load {A} ns r n x (f : node X → M (pairing_queue X) A) :
  ns !! n = Some x → bind (load n) f (mk_queue ns r) = f x (mk_queue ns r).
Proof. intros H. unfold bind, load. cbn. by rewrite H. Qed.

Lemma run_modify {A} ns r n x g (f : unit → M (pairing_queue X) A) :
  ns !! n = Some x →
  bind (modify n g) f (mk_queue ns r) = f tt (mk_queue (<[n := g x]> ns) r).
Proof. intros H. unfold bind, modify. cbn. by rewrite H. Qed.

Lemma run_modify_last ns r n x g :
  ns !! n = Some x →
  modify n g (mk_queue ns r) = Done (tt, mk_queue (<[n := g x]> ns) r).
Proof. intros H. unfold modify. cbn. by rewrite H. Qed.

Lemma run_ret {A B} (a : A) (f : A → M (pairing_queue X) B) q :
  bind (ret a) f q = f a q.
Proof. done. Qed.

Lemma merge_roots_unchecked_links ns r a b xa xb :
  a ≠ b → ns !! a = Some xa → ns !! b = Some xb →
  (∀ c, desc xa = Some c → c ≠ a ∧ c ≠ b ∧ is_Some (ns !! c)) →
  ∃ ns', merge_roots_unchecked a b (mk_queue ns r) = Done (a, mk_queue ns' r) ∧
    same_but (a :: b :: option_list (desc xa)) ns ns' ∧
    ns' !! a = Some (set_desc (Some b) xa) ∧
    ns' !! b = Some (set_prev (Some a) (set_next (desc xa) xb)) ∧
    (∀ c xc, desc xa = Some c → ns !! c = Some xc → ns' !! c = Some (set_prev (Some b) xc)).
Proof.
  intros Hab Ha Hb Hc. unfold merge_roots_unchecked.
  rewrite (run_load _ _ _ _ _ Ha). cbn zeta.
  rewrite (run_modify _ _ _ _ _ _ Hb).
  destruct (desc xa) as [c|] eqn:Hd.
  - destruct (Hc c eq_refl) as (Hca & Hcb & xc & Hxc).
    erewrite run_modify by (lk; exact Hxc).
    erewrite run_modify by (lk; reflexivity).
    erewrite run_modify by (lk; exact Ha).
    eexists. split; [done|]. split_and!.
    + eapply same_but_trans; [|eapply same_but_trans; [|eapply same_but_trans]];
        eapply same_but_insert; lk; try done; mem.
    + by lk.
    + by lk.
    + intros ? xc' [= <-] Hxc'. lk. congruence.
  - unfold bind at 1. unfold ret at 1.
    erewrite run_modify by (lk; reflexivity).
    erewrite run_modify by (lk; exact Ha).
    eexists. split; [done|]. split_and!.
    + eapply same_but_trans; [|eapply same_but_trans];
        eapply same_but_insert; lk; try done; mem.
    + by lk.
    + by lk.
    + done.
Qed.

Lemma forest_keys_perm ts : flat_map keys ts ≡ₚ (top <$> ts) ++ flat_map below ts.
Proof.
  induction ts as [|t ts IH]; [done|]. cbn. rewrite keys_below. cbn.
  f_equiv. rewrite IH. by rewrite !app_assoc, (Permutation_app_comm (below t)).
Qed.

Lemma below_in_forest t ts i : t ∈ ts → i ∈ below t → i ∈ flat_map below ts.
Proof.
  intros Ht Hi. apply list_elem_of_In, in_flat_map. exists t.
  by rewrite <- !list_elem_of_In.
Qed.

Lemma below_in_keys ts i : i ∈ flat_map below ts → i ∈ flat_map keys ts.
Proof. intros Hi. rewrite forest_keys_perm. apply elem_of_app. by right. Qed.

(** In a forest without repeated keys no root is below a root. *)
Lemma forest_roots_not_below ts i :
  NoDup (flat_map keys ts) → i ∈ top <$> ts → i ∉ flat_map below ts.
Proof.
  rewrite forest_keys_perm. intros [_ [H _]]%NoDup_app Hi. by apply H.
Qed.

Lemma forest_roots_NoDup ts : NoDup (flat_map keys ts) → NoDup (top <$> ts).
Proof. rewrite forest_keys_perm. by intros [? _]%NoDup_app. Qed.

Lemma linked_is_Some sel ns ks i : linked sel ns ks → i ∈ ks → is_Some (ns !! i).
Proof.
  induction ks as [|k ks IH]; [by intros _ ?%elem_of_nil|].
  cbn. intros [(y & Hy & _) Hl] [->|Hi]%elem_of_cons; [by eexists|auto].
Qed.

Lemma rep_same ns ns' t :
  (∀ i, i ∈ keys t → ns' !! i = ns !! i) → rep ns t → rep ns' t.
Proof.
  intros H. apply rep_ext.
  - rewrite H; [done|apply key_in_keys].
  - intros i Hi. apply H. rewrite keys_below. by apply list_elem_of_further.
Qed.

Lemma Forall_rep_same ns ns' ts :
  (∀ i, i ∈ flat_map keys ts → ns' !! i = ns !! i) →
  Forall (rep ns) ts → Forall (rep ns') ts.
Proof.
  intros H. rewrite !Forall_forall. intros Hts t Ht.
  eapply rep_same; [|by apply Hts]. intros i Hi. apply H. by eapply keys_in_forest.
Qed.

(** [merge_roots_unchecked(a, b)] makes the tree at [b] the first child of
    the tree at [a]. *)
Lemma link_spec ns r a ca b cb :
  rep ns (T a ca) → rep ns (T b cb) →
  NoDup (keys (T a ca) ++ keys (T b cb)) →
  ∃ ns', merge_roots_unchecked a b (mk_queue ns r) = Done (a, mk_queue ns' r) ∧
    same_but (keys (T a ca) ++ keys (T b cb)) ns ns' ∧
    rep ns' (T a (T b cb :: ca)).
Proof.
  intros Ha Hb Hnd.
  inversion Ha as [? ? xa Hxa Hda Hla Hba Hca]; subst.
  inversion Hb as [? ? xb Hxb Hdb Hlb Hbb Hcb]; subst.
  cbn in Hnd. apply NoDup_cons in Hnd as [Ha1 Hnd].
  apply NoDup_app in Hnd as (Hnca & Hdis & Hndb).
  apply NoDup_cons in Hndb as [Hb1 Hncb].
  rewrite elem_of_app, elem_of_cons in Ha1.
  assert (a ≠ b) as Hab by tauto.
  assert (a ∉ flat_map keys ca) as Haca by tauto.
  assert (a ∉ flat_map keys cb) as Hacb by tauto.
  assert (b ∉ flat_map keys ca) as Hbca.
  { intros H. apply (Hdis b H). apply list_elem_of_here. }
  assert (∀ i, i ∈ flat_map keys cb → i ∉ flat_map keys ca) as Hdis'.
  { intros i Hi H. apply (Hdis i H). by apply list_elem_of_further. }
  clear Ha1 Hdis.
  destruct (merge_roots_unchecked_links ns r a b xa xb Hab Hxa Hxb)
    as (ns' & Hrun & Hsb & Ha' & Hb' & Hc').
  { intros c Hc. rewrite Hda in Hc.
    assert (c ∈ top <$> ca) as Hin.
    { destruct ca; [done|]. injection Hc as <-. apply list_elem_of_here. }
    split_and!.
    - intros ->. by apply Haca, roots_in_forest.
    - intros ->. by apply Hbca, roots_in_forest.
    - eapply linked_is_Some; [exact Hla|exact Hin]. }
  exists ns'. split; [exact Hrun|]. split.
  { eapply same_but_mono; [|exact Hsb]. intros i. cbn.
    rewrite !elem_of_cons, elem_of_app, elem_of_cons.
    intros [->|[->|Hi]]; [auto..|]. right. left.
    rewrite Hda in Hi. destruct ca as [|c0 rest]; [by apply elem_of_nil in Hi|].
    cbn in Hi. apply list_elem_of_singleton in Hi as ->.
    apply (roots_in_forest (c0 :: rest)). apply list_elem_of_here. }
  destruct Hsb as (Hlen & Hout & Hdata).
  assert (rep ns' (T b cb)) as Hb''.
  { eapply rep_ext; [| |exact Hb].
    - cbn. by rewrite Hb', Hxb.
    - cbn. intros i Hi. apply Hout. cbn. rewrite !elem_of_cons. intros [->|[->|Hc]]; [done..|].
      rewrite Hda in Hc. destruct ca as [|c0 rest]; [by apply elem_of_nil in Hc|].
      cbn in Hc. apply list_elem_of_singleton in Hc as ->.
      apply (Hdis' _ Hi). apply (roots_in_forest (c0 :: rest)), list_elem_of_here. }
  destruct ca as [|c0 rest].
  - econstructor; [exact Ha'|done|..].
    + cbn. split; [|done]. eexists. split; [exact Hb'|]. cbn. by rewrite Hda.
    + cbn. split; [|done]. eexists. split; [exact Hb'|done].
    + by repeat constructor.
  - cbn in Hda, Hla, Hba. destruct Hla as [(y & Hy & Hny) Hla].
    destruct Hba as [(y' & Hy' & Hpy) Hba]. rewrite Hy in Hy'. injection Hy' as <-.
    pose proof (Hc' _ _ Hda Hy) as Hc''.
    assert (∀ i, i ∈ flat_map keys (c0 :: rest) → i ≠ top c0 → ns' !! i = ns !! i) as Hsame.
    { intros i Hi Hne. apply Hout. rewrite Hda. cbn. rewrite !elem_of_cons.
      intros [->|[->|[->|?%elem_of_nil]]]; done. }
    pose proof (forest_roots_NoDup _ Hnca) as Hroots. cbn in Hroots.
    apply NoDup_cons in Hroots as [Hc0 Hroots].
    econstructor; [exact Ha'|done|..].
    + cbn. split; [eexists; split; [exact Hb'|]; cbn; by rewrite Hda|].
      split; [eexists; split; [exact Hc''|done]|].
      eapply linked_ext; [|exact Hla]. intros i Hi. rewrite Hsame; [done| |by intros ->].
      apply (roots_in_forest (c0 :: rest)). by apply list_elem_of_further.
    + cbn. split; [eexists; split; [exact Hb'|done]|].
      split; [eexists; split; [exact Hc''|done]|].
      eapply backed_ext; [|exact Hba]. intros i Hi. rewrite Hsame; [done| |by intros ->].
      apply (roots_in_forest (c0 :: rest)). by apply list_elem_of_further.
    + constructor; [exact Hb''|]. apply Forall_cons in Hca as [Hc0r Hrest].
      constructor.
      * eapply rep_ext; [| |exact Hc0r].
        -- by rewrite Hc'', Hy.
        -- intros i Hi. apply Hsame.
           ++ apply below_in_keys. eapply below_in_forest; [apply list_elem_of_here|done].
           ++ intros ->. eapply (forest_roots_not_below (c0 :: rest)); [done| |].
              ** apply list_elem_of_here.
              ** eapply below_in_forest; [apply list_elem_of_here|done].
      * eapply Forall_rep_same; [|exact Hrest]. intros i Hi. apply Hsame.
        -- cbn. apply elem_of_app. by right.
        -- intros ->. cbn in Hnca. apply NoDup_app in Hnca as (_ & Hd & _).
           apply (Hd (top c0)); [apply key_in_keys|done].
Qed.

Lemma rep_lookup ns t : rep ns t → is_Some (ns !! top t).
Proof. intros H. inversion H; subst. by eexists. Qed.

Lemma run_node_lt {A} ns r a b xa xb (f : bool → M (pairing_queue X) A) :
  ns !! a = Some xa → ns !! b = Some xb →
  bind (node_lt a b) f (mk_queue ns r)
  = f (bool_decide (val xa < val xb)
       || (bool_decide (val xa = val xb) && bool_decide (a < b)%nat)) (mk_queue ns r).
Proof.
  intros Ha Hb. unfold node_lt. unfold bind at 1.
  rewrite (run_load _ _ _ _ _ Ha), (run_load _ _ _ _ _ Hb). done.
Qed.

(** [merge_roots_unsafe(a, b)] melds two trees: the root that is not after
    the other one becomes the root, the other tree its first child. *)
Lemma meld_spec ns r ta tb :
  rep ns ta → rep ns tb → ordered ns ta → ordered ns tb →
  NoDup (keys ta ++ keys tb) →
  ∃ ns' t, merge_roots_unsafe (top ta) (top tb) (mk_queue ns r)
           = Done (top t, mk_queue ns' r) ∧
    same_but (keys ta ++ keys tb) ns ns' ∧
    rep ns' t ∧ ordered ns' t ∧ keys t ≡ₚ keys ta ++ keys tb.
Proof.
  intros Ha Hb Hoa Hob Hnd.
  destruct (rep_lookup _ _ Ha) as [xa Hxa], (rep_lookup _ _ Hb) as [xb Hxb].
  destruct ta as [a ca], tb as [b cb]. cbn [top] in *.
  unfold merge_roots_unsafe. rewrite (run_node_lt _ _ _ _ _ _ _ Hxa Hxb).
  assert (valof ns a = val xa) as Hva by (unfold valof; by rewrite Hxa).
  assert (valof ns b = val xb) as Hvb by (unfold valof; by rewrite Hxb).
  inversion Hoa as [? ? Hlea Hcsa]; subst. inversion Hob as [? ? Hleb Hcsb]; subst.
  match goal with |- context [if ?c then _ else _] => destruct c eqn:Hlt end.
  - destruct (link_spec ns r a ca b cb Ha Hb Hnd) as (ns' & Hrun & Hsb & Hrep).
    exists ns', (T a (T b cb :: ca)). split; [exact Hrun|]. split; [exact Hsb|].
    split; [exact Hrep|]. split.
    + eapply ordered_same_but; [exact Hsb|]. constructor.
      * constructor; [|done]. cbn. unfold node_le. rewrite Hva, Hvb.
        apply orb_true_iff in Hlt as [?%bool_decide_eq_true|[?%bool_decide_eq_true ?%bool_decide_eq_true]%andb_true_iff]; lia.
      * by constructor.
    + cbn. f_equiv. by rewrite (Permutation_app_comm (flat_map keys ca)), app_comm_cons.
  - assert (NoDup (keys (T b cb) ++ keys (T a ca))) as Hnd'.
    { by rewrite Permutation_app_comm. }
    destruct (link_spec ns r b cb a ca Hb Ha Hnd') as (ns' & Hrun & Hsb & Hrep).
    exists ns', (T b (T a ca :: cb)). split; [exact Hrun|]. split.
    { eapply same_but_mono; [|exact Hsb]. intros i. rewrite !elem_of_app. tauto. }
    split; [exact Hrep|]. split.
    + eapply ordered_same_but; [exact Hsb|]. constructor.
      * constructor; [|done]. cbn. unfold node_le. rewrite Hva, Hvb.
        apply orb_false_iff in Hlt as [?%bool_decide_eq_false Hlt].
        apply andb_false_iff in Hlt as [?%bool_decide_eq_false|?%bool_decide_eq_false]; lia.
      * by constructor.
    + change (b :: keys (T a ca) ++ flat_map keys cb
              ≡ₚ keys (T a ca) ++ b :: flat_map keys cb).
      apply Permutation_middle.
Qed.

(** ** Forests *)

Lemma linked_same_but sel ks ns ns' ks' :
  same_but ks ns ns' → (∀ i, i ∈ ks' → i ∉ ks) →
  linked sel ns ks' → linked sel ns' ks'.
Proof.
  intros (_ & Hout & _) Hdis. apply linked_ext. intros i Hi. rewrite Hout; auto.
Qed.

Lemma backed_same_but ks ns ns' pv ks' :
  same_but ks ns ns' → (∀ i, i ∈ ks' → i ∉ ks) →
  backed ns pv ks' → backed ns' pv ks'.
Proof.
  intros (_ & Hout & _) Hdis. apply backed_ext. intros i Hi. rewrite Hout; auto.
Qed.

Lemma Forall_rep_same_but ks ns ns' ts :
  same_but ks ns ns' → (∀ i, i ∈ flat_map keys ts → i ∉ ks) →
  Forall (rep ns) ts → Forall (rep ns') ts.
Proof.
  intros (_ & Hout & _) Hdis. apply Forall_rep_same. intros i Hi. apply Hout. auto.
Qed.

Lemma Forall_ordered_same_but ks ns ns' ts :
  same_but ks ns ns' → Forall (ordered ns) ts → Forall (ordered ns') ts.
Proof.
  intros H Ho. eapply Forall_impl; [exact Ho|]. intros t. by eapply ordered_same_but.
Qed.

Lemma NoDup_tree_key t : NoDup (keys t) → top t ∉ below t.
Proof. rewrite keys_below. by intros [? _]%NoDup_cons. Qed.

(** Writing the [next] and [prev] of the root of a tree leaves the tree. *)
Lemma rep_insert_root ns t x y :
  rep ns t → NoDup (keys t) → ns !! top t = Some x → desc y = desc x →
  rep (<[top t := y]> ns) t.
Proof.
  intros Hr Hnd Hx Hd. eapply rep_ext; [| |exact Hr].
  - rewrite list_lookup_insert_eq by by eapply lookup_lt_Some. rewrite Hx. cbn. by rewrite Hd.
  - intros i Hi. apply list_lookup_insert_ne. intros <-. by apply (NoDup_tree_key t).
Qed.

Lemma flat_map_keys_app ts1 ts2 :
  flat_map keys (ts1 ++ ts2) = flat_map keys ts1 ++ flat_map keys ts2.
Proof. apply flat_map_app. Qed.

Lemma run_bind {A B} (m : M (pairing_queue X) A) (f : A → M (pairing_queue X) B)
    q a q' :
  m q = Done (a, q') → bind m f q = f a q'.
Proof. intros H. unfold bind. by rewrite H. Qed.

(** The first loop of [merge_pairs]: the siblings [rest], chained through
    [next] from [a], are melded two by two and pushed on the list [dn],
    chained through [prev]. *)
Lemma pass1_spec fuel ns rt rest dn a :
  head (top <$> rest) = Some a →
  linked next ns (top <$> rest) →
  linked prev ns (top <$> dn) →
  Forall (rep ns) (rest ++ dn) →
  Forall (ordered ns) (rest ++ dn) →
  NoDup (flat_map keys (rest ++ dn)) →
  (length rest <= fuel)%nat →
  ∃ ns' m ms,
    merge_pairs_pass1 fuel a (head (top <$> dn)) (mk_queue ns rt)
    = Done (Some (top m), mk_queue ns' rt) ∧
    same_but (flat_map keys (rest ++ dn)) ns ns' ∧
    linked prev ns' (top <$> (m :: ms)) ∧
    Forall (rep ns') (m :: ms) ∧
    Forall (ordered ns') (m :: ms) ∧
    flat_map keys (m :: ms) ≡ₚ flat_map keys (rest ++ dn).
Proof.
  revert ns rest dn a. induction fuel as [|fuel IH]; intros ns rest dn a Hhd Hl Hc Hrep Hord Hnd Hfuel.
  { destruct rest; [done|cbn in Hfuel; lia]. }
  destruct rest as [|t1 tl]; [done|]. cbn in Hhd. injection Hhd as <-.
  cbn [merge_pairs_pass1]. cbn in Hl. destruct Hl as [(y & Hy & Hny) Hl].
  rewrite (run_load _ _ _ _ _ Hy), Hny.
  destruct tl as [|t2 rest'].
  - cbn [fmap list_fmap head]. rewrite (run_modify _ _ _ _ _ _ Hy).
    exists (<[top t1 := set_prev (head (top <$> dn)) y]> ns), t1, dn.
    assert (same_but [top t1] ns (<[top t1 := set_prev (head (top <$> dn)) y]> ns)) as Hsb.
    { eapply same_but_insert; [done|done|mem]. }
    cbn in Hnd, Hrep, Hord. apply NoDup_app in Hnd as (Hn1 & Hdis & Hn2).
    apply Forall_cons in Hrep as [Hr1 Hrdn].
    assert (∀ i, i ∈ flat_map keys dn → i ∉ [top t1]) as Hdis'.
    { intros i Hi ->%list_elem_of_singleton. apply (Hdis (top t1)); [apply key_in_keys|done]. }
    split; [done|]. split_and!.
    + eapply same_but_mono; [|exact Hsb]. intros i ->%list_elem_of_singleton.
      cbn. apply elem_of_app. left. apply key_in_keys.
    + cbn. split.
      * eexists. split; [apply list_lookup_insert_eq; by eapply lookup_lt_Some|done].
      * eapply linked_same_but; [exact Hsb| |exact Hc].
        intros i Hi. by apply Hdis', roots_in_forest.
    + constructor; [by eapply rep_insert_root|]. by eapply Forall_rep_same_but.
    + by eapply Forall_ordered_same_but.
    + done.
  - cbn [fmap list_fmap head]. cbn in Hl. destruct Hl as [(y2 & Hy2 & Hny2) Hl].
    rewrite (run_load _ _ _ _ _ Hy2). cbn zeta.
    cbn [app] in Hrep, Hord, Hnd.
    apply Forall_cons in Hrep as [Hr1 Hrep]. apply Forall_cons in Hrep as [Hr2 Hrep].
    apply Forall_cons in Hord as [Ho1 Hord]. apply Forall_cons in Hord as [Ho2 Hord].
    change (flat_map keys (t1 :: t2 :: rest' ++ dn))
      with (keys t1 ++ keys t2 ++ flat_map keys (rest' ++ dn)) in Hnd |- *.
    rewrite app_assoc in Hnd. pose proof Hnd as Hnd0.
    apply NoDup_app in Hnd as (Hn12 & Hdis & HnR).
    assert (∀ i, i ∈ flat_map keys (rest' ++ dn) → i ∉ keys t1 ++ keys t2) as Hdis'.
    { intros i Hi Hi'. by apply (Hdis i). }
    destruct (meld_spec ns rt t1 t2 Hr1 Hr2 Ho1 Ho2 Hn12)
      as (ns1 & m & Hrun & Hsb1 & Hrm & Hom & Hperm).
    rewrite (run_bind _ _ _ _ _ Hrun).
    destruct (rep_lookup _ _ Hrm) as [xm Hxm].
    rewrite (run_modify _ _ _ _ _ _ Hxm).
    set (r := head (top <$> dn)).
    set (ns2 := <[top m := set_prev r xm]> ns1).
    assert (top m ∈ keys t1 ++ keys t2) as Hkm.
    { rewrite <- Hperm. apply key_in_keys. }
    assert (same_but (keys t1 ++ keys t2) ns1 ns2) as Hsb12.
    { eapply same_but_insert; [done|done|done]. }
    assert (same_but (keys t1 ++ keys t2) ns ns2) as Hsb2.
    { by eapply same_but_trans. }
    assert (NoDup (keys m)) as Hnm by by rewrite Hperm.
    rewrite flat_map_keys_app in Hdis'.
    assert (linked next ns2 (top <$> rest')) as Hl2.
    { eapply linked_same_but; [exact Hsb2| |exact Hl].
      intros i Hi. apply Hdis', elem_of_app. left. by apply roots_in_forest. }
    assert (linked prev ns2 (top <$> (m :: dn))) as Hc2.
    { cbn. split.
      - eexists. split; [apply list_lookup_insert_eq; by eapply lookup_lt_Some|done].
      - eapply linked_same_but; [exact Hsb2| |exact Hc].
        intros i Hi. apply Hdis', elem_of_app. right. by apply roots_in_forest. }
    apply Forall_app in Hrep as [HrR HrD]. apply Forall_app in Hord as [HoR HoD].
    assert (Forall (rep ns2) (rest' ++ m :: dn)) as Hrep2.
    { apply Forall_app. split; [|constructor].
      - eapply Forall_rep_same_but; [exact Hsb2| |exact HrR].
        intros i Hi. apply Hdis', elem_of_app. by left.
      - by eapply rep_insert_root.
      - eapply Forall_rep_same_but; [exact Hsb2| |exact HrD].
        intros i Hi. apply Hdis', elem_of_app. by right. }
    assert (Forall (ordered ns2) (rest' ++ m :: dn)) as Hord2.
    { apply Forall_app. split; [|constructor].
      - exact (Forall_ordered_same_but _ _ _ _ Hsb2 HoR).
      - exact (ordered_same_but _ _ _ _ Hsb12 Hom).
      - exact (Forall_ordered_same_but _ _ _ _ Hsb2 HoD). }
    assert (flat_map keys (rest' ++ m :: dn)
            ≡ₚ (keys t1 ++ keys t2) ++ flat_map keys (rest' ++ dn)) as Hperm2.
    { rewrite !flat_map_keys_app. cbn. rewrite Hperm.
      apply Permutation_app_swap_app. }
    assert (same_but ((keys t1 ++ keys t2) ++ flat_map keys (rest' ++ dn)) ns ns2) as Hsb2'.
    { eapply same_but_mono; [|exact Hsb2]. intros i Hi. apply elem_of_app. by left. }
    rewrite <- app_assoc in Hperm2, Hsb2'.
    rewrite Hny2. destruct rest' as [|t3 rest''].
    + exists ns2, m, dn. done.
    + cbn [fmap list_fmap head].
      destruct (IH ns2 (t3 :: rest'') (m :: dn) (top t3)) as (ns' & m' & ms & Hrun' & Hsb' & Hc' & Hrep' & Hord' & Hperm');
        [done|done|done|done|done|by rewrite Hperm2, app_assoc|cbn in Hfuel |- *; lia|].
      exists ns', m', ms. split; [exact Hrun'|].
      split_and!; [|done..|by rewrite Hperm'].
      eapply same_but_trans; [exact Hsb2'|]. eapply same_but_mono; [|exact Hsb'].
      intros i. by rewrite Hperm2.
Qed.

(** The second loop of [merge_pairs]: the trees of the list chained through
    [prev] are melded into [ta], one after the other. *)
Lemma pass2_spec fuel ns rt ta ms :
  rep ns ta → ordered ns ta →
  linked prev ns (top <$> ms) →
  Forall (rep ns) ms → Forall (ordered ns) ms →
  NoDup (flat_map keys (ta :: ms)) →
  (length ms <= fuel)%nat →
  ∃ ns' t,
    merge_pairs_pass2 fuel (top ta) (head (top <$> ms)) (mk_queue ns rt)
    = Done (top t, mk_queue ns' rt) ∧
    same_but (flat_map keys (ta :: ms)) ns ns' ∧
    rep ns' t ∧ ordered ns' t ∧
    keys t ≡ₚ flat_map keys (ta :: ms).
Proof.
  revert fuel ns ta. induction ms as [|m1 ms IH]; intros fuel ns ta Hra Hoa Hc Hrep Hord Hnd Hfuel.
  { exists ns, ta. cbn. rewrite app_nil_r. destruct fuel; done. }
  destruct fuel as [|fuel]; [cbn in Hfuel; lia|].
  cbn [fmap list_fmap head merge_pairs_pass2].
  cbn in Hc. destruct Hc as [(y & Hy & Hpy) Hc].
  rewrite (run_load _ _ _ _ _ Hy). cbn zeta. rewrite Hpy.
  apply Forall_cons in Hrep as [Hr1 Hrep]. apply Forall_cons in Hord as [Ho1 Hord].
  change (flat_map keys (ta :: m1 :: ms)) with (keys ta ++ keys m1 ++ flat_map keys ms) in *.
  rewrite app_assoc in Hnd. pose proof Hnd as Hnd0.
  apply NoDup_app in Hnd as (Hn12 & Hdis & HnR).
  assert (∀ i, i ∈ flat_map keys ms → i ∉ keys ta ++ keys m1) as Hdis'.
  { intros i Hi Hi'. by apply (Hdis i). }
  destruct (meld_spec ns rt ta m1 Hra Hr1 Hoa Ho1 Hn12)
    as (ns1 & t' & Hrun & Hsb1 & Hrt & Hot & Hperm).
  rewrite (run_bind _ _ _ _ _ Hrun).
  destruct (IH fuel ns1 t') as (ns' & t & Hrun' & Hsb' & Hr' & Ho' & Hperm').
  - done.
  - done.
  - eapply linked_same_but; [exact Hsb1| |exact Hc].
    intros i Hi. by apply Hdis', roots_in_forest.
  - by eapply Forall_rep_same_but.
  - by eapply Forall_ordered_same_but.
  - cbn. by rewrite Hperm.
  - cbn in Hfuel. lia.
  - exists ns', t. split; [exact Hrun'|]. cbn in Hperm', Hsb'.
    assert (keys t' ++ flat_map keys ms ≡ₚ keys ta ++ keys m1 ++ flat_map keys ms) as HP.
    { by rewrite Hperm, <- app_assoc. }
    split_and!; [|done|done|by rewrite Hperm'].
    eapply same_but_trans.
    + eapply same_but_mono; [|exact Hsb1]. intros i Hi. rewrite app_assoc.
      apply elem_of_app. by left.
    + eapply same_but_mono; [|exact Hsb']. intros i. by rewrite HP.
Qed.

Lemma backed_is_Some ns pv ks i : backed ns pv ks → i ∈ ks → is_Some (ns !! i).
Proof.
  revert pv. induction ks as [|k ks IH]; intros pv; [by intros _ ?%elem_of_nil|].
  cbn. intros [(y & Hy & _) Hl] [->|Hi]%elem_of_cons; [by eexists|eauto].
Qed.

Lemma rep_keys_lookup ns t i : rep ns t → i ∈ keys t → is_Some (ns !! i).
Proof.
  revert i. induction t as [k cs IH] using tree_nested_ind. intros i Hr Hi.
  inversion Hr as [? ? x Hx _ _ _ Hcs]; subst. cbn in Hi.
  apply elem_of_cons in Hi as [->|Hi]; [by eexists|].
  apply list_elem_of_In, in_flat_map in Hi as (c & Hc & Hi).
  apply list_elem_of_In in Hc, Hi. rewrite Forall_forall in IH, Hcs.
  apply (IH c); [done|by apply Hcs|done].
Qed.

Lemma forest_keys_lookup ns ts i :
  Forall (rep ns) ts → i ∈ flat_map keys ts → is_Some (ns !! i).
Proof.
  intros Hr Hi. apply list_elem_of_In, in_flat_map in Hi as (c & Hc & Hi).
  apply list_elem_of_In in Hc, Hi. rewrite Forall_forall in Hr.
  by apply (rep_keys_lookup ns c); [apply Hr|].
Qed.

Lemma forest_keys_bound ns ts :
  Forall (rep ns) ts → NoDup (flat_map keys ts) →
  (length (flat_map keys ts) <= length ns)%nat.
Proof.
  intros Hr Hnd.
  replace (length ns) with (length (seq 0 (length ns))) by apply length_seq.
  apply submseteq_length, NoDup_submseteq; [done|].
  intros i Hi. apply elem_of_seq. split; [lia|]. cbn.
  destruct (forest_keys_lookup ns ts i Hr Hi) as [x Hx]. by eapply lookup_lt_Some.
Qed.

Lemma forest_length ts : (length ts <= length (flat_map keys ts))%nat.
Proof.
  induction ts as [|t ts IH]; [done|]. cbn. rewrite length_app, keys_below. cbn. lia.
Qed.

(** [merge_pairs(a)] melds a list of siblings into one tree. *)
Lemma merge_pairs_spec ns rt cs a :
  head (top <$> cs) = Some a →
  linked next ns (top <$> cs) →
  Forall (rep ns) cs → Forall (ordered ns) cs →
  NoDup (flat_map keys cs) →
  ∃ ns' t,
    merge_pairs (Some a) (mk_queue ns rt) = Done (Some (top t), mk_queue ns' rt) ∧
    same_but (flat_map keys cs) ns ns' ∧
    rep ns' t ∧ ordered ns' t ∧
    keys t ≡ₚ flat_map keys cs.
Proof.
  intros Hhd Hl Hrep Hord Hnd.
  pose proof (forest_keys_bound ns cs Hrep Hnd) as Hbound.
  pose proof (forest_length cs) as Hlen.
  destruct (pass1_spec (S (length ns)) ns rt cs [] a)
    as (ns1 & m & ms & Hrun1 & Hsb1 & Hc1 & Hrep1 & Hord1 & Hperm1);
    [done|done|done|by rewrite app_nil_r..|lia|].
  rewrite app_nil_r in Hsb1, Hperm1. cbn in Hrun1.
  unfold merge_pairs. unfold bind at 1. unfold size at 1. cbn [nodes].
  rewrite (run_bind _ _ _ _ _ Hrun1). cbn [deref]. rewrite run_ret.
  cbn in Hc1. destruct Hc1 as [(y & Hy & Hpy) Hc1].
  rewrite (run_load _ _ _ _ _ Hy). cbn zeta. rewrite Hpy.
  apply Forall_cons in Hrep1 as [Hrm Hrep1]. apply Forall_cons in Hord1 as [Hom Hord1].
  assert (NoDup (flat_map keys (m :: ms))) as Hnd1 by by rewrite Hperm1.
  pose proof (forest_length (m :: ms)) as Hlen1. rewrite Hperm1 in Hlen1. cbn in Hlen1.
  destruct (pass2_spec (S (length ns)) ns1 rt m ms)
    as (ns' & t & Hrun2 & Hsb2 & Hrt & Hot & Hperm2); [done..|lia|].
  rewrite (run_bind _ _ _ _ _ Hrun2). exists ns', t. split; [done|].
  split_and!; [|done|done|by rewrite Hperm2].
  eapply same_but_trans; [exact Hsb1|]. eapply same_but_mono; [|exact Hsb2].
  intros i. by rewrite Hperm1.
Qed.

(** ** The queue as a heap *)

Definition okeys (t : option tree) : list nat := from_option keys [] t.

(** The links of the queue [q] describe the heap [t]: the root of [q] is the
    root of [t], the links below it are those of [t], no child is before its
    parent, no key occurs twice, every key of [t] is a live node, and every
    live node that is not in [t] is detached.  In a [pairing_queue] every
    node is live; in a [pairing_queue_fast_reset] the nodes whose [time] is
    [now] are. *)
Definition heap_inv (live : X → Prop) (q : pairing_queue X) (t : option tree) : Prop :=
  root q = top <$> t ∧
  match t with
  | Some t => rep (nodes q) t ∧ ordered (nodes q) t ∧ NoDup (keys t)
  | None => True
  end ∧
  (∀ i, i ∈ okeys t → ∃ x, nodes q !! i = Some x ∧ live (ext x)) ∧
  (∀ i x, nodes q !! i = Some x → live (ext x) → i ∉ okeys t → detached i x).

Lemma same_but_ext ks ns ns' i : same_but ks ns ns' → ext <$> ns' !! i = ext <$> ns !! i.
Proof.
  intros (_ & _ & Hd). specialize (Hd i).
  destruct (ns' !! i), (ns !! i); cbn in *; try done. by injection Hd as _ ->.
Qed.

Lemma same_but_live ks ns ns' (live : X → Prop) i x :
  same_but ks ns ns' → ns !! i = Some x → live (ext x) →
  ∃ x', ns' !! i = Some x' ∧ live (ext x').
Proof.
  intros Hsb Hx Hl. pose proof (same_but_ext ks ns ns' i Hsb) as He.
  rewrite Hx in He. destruct (ns' !! i) as [x'|]; [|done]. injection He as He.
  exists x'. by rewrite He.
Qed.

Lemma same_but_live_inv ks ns ns' (live : X → Prop) i x' :
  same_but ks ns ns' → ns' !! i = Some x' → live (ext x') →
  ∃ x, ns !! i = Some x ∧ live (ext x).
Proof.
  intros Hsb Hx Hl. pose proof (same_but_ext ks ns ns' i Hsb) as He.
  rewrite Hx in He. destruct (ns !! i) as [x|]; [|done]. injection He as He.
  exists x. by rewrite <- He.
Qed.

Lemma run_reset_node {A} ns rt n x (f : unit → M (pairing_queue X) A) :
  ns !! n = Some x →
  bind (reset_node n) f (mk_queue ns rt)
  = f tt (mk_queue (<[n := mk_node (val x) None None (Some n) (ext x)]> ns) rt).
Proof.
  intros Hx. unfold reset_node.
  assert (n < length ns)%nat as Hn by by eapply lookup_lt_Some.
  unfold bind at 1. rewrite (run_modify _ _ _ _ _ _ Hx).
  erewrite run_modify by (by apply list_lookup_insert_eq).
  erewrite run_modify_last by (apply list_lookup_insert_eq; by rewrite length_insert).
  by rewrite !list_insert_insert_eq.
Qed.

(** [delete_min] on a heap that is not empty: the root is unlinked and its
    children are melded into the new heap. *)
Lemma delete_min_spec live ns r cs :
  heap_inv live (mk_queue ns (Some r)) (Some (T r cs)) →
  ∃ ns' (t' : option tree), delete_min (mk_queue ns (Some r)) = Done (true, mk_queue ns' (top <$> t')) ∧
    heap_inv live (mk_queue ns' (top <$> t')) t' ∧
    okeys t' ≡ₚ flat_map keys cs ∧
    same_but (keys (T r cs)) ns ns'.
Proof.
  intros (_ & (Hrep & Hord & Hnd) & Hlive & Hdet). cbn [nodes root] in *.
  inversion Hrep as [? ? x Hx Hdx Hl Hb Hcs]; subst.
  inversion Hord as [? ? Hle Hocs]; subst.
  cbn in Hnd. apply NoDup_cons in Hnd as [Hr Hnd].
  unfold delete_min. unfold bind at 1. unfold get_root at 1. cbn [root].
  rewrite (run_load _ _ _ _ _ Hx), Hdx.
  destruct cs as [|c cs'].
  - cbn [fmap list_fmap head]. rewrite run_ret, (run_reset_node _ _ _ _ _ Hx).
    set (ns' := <[r := _]> ns).
    assert (same_but [r] ns ns') as Hsb.
    { eapply same_but_insert; [done|done|mem]. }
    exists ns', None. split; [done|]. split; [|done].
    split; [done|]. split; [done|]. split; [by intros i ?%elem_of_nil|].
    intros i x' Hx' Hlx' _. cbn [nodes] in Hx'. destruct (decide (i = r)) as [->|Hne].
    + unfold ns' in Hx'. rewrite list_lookup_insert_eq in Hx' by by eapply lookup_lt_Some.
      injection Hx' as <-. done.
    + unfold ns' in Hx'. rewrite list_lookup_insert_ne in Hx' by done.
      apply (Hdet i x' Hx' Hlx'). cbn. by intros ->%list_elem_of_singleton.
  - cbn [fmap list_fmap head].
    destruct (merge_pairs_spec ns (Some r) (c :: cs') (top c))
      as (ns1 & t' & Hrun & Hsb1 & Hrt & Hot & Hperm); [done..|].
    unfold bind at 1. rewrite (run_bind _ _ _ _ _ Hrun). cbn [deref]. rewrite run_ret.
    destruct (rep_lookup _ _ Hrt) as [x1 Hx1].
    assert (top t' ∈ flat_map keys (c :: cs')) as Hkt.
    { rewrite <- Hperm. apply key_in_keys. }
    assert (r ≠ top t') as Hrt' by by intros ->.
    assert (NoDup (keys t')) as Hndt by by rewrite Hperm.
    rewrite (run_modify _ _ _ _ _ _ Hx1).
    erewrite run_modify by (apply list_lookup_insert_eq; by eapply lookup_lt_Some).
    rewrite list_insert_insert_eq. unfold ret at 1. cbv beta iota.
    set (y := set_next None (set_prev None x1)).
    assert (ns1 !! r = Some x) as Hx1r.
    { destruct Hsb1 as (_ & Hout & _). by rewrite Hout. }
    erewrite run_reset_node by (rewrite list_lookup_insert_ne by done; exact Hx1r).
    set (ns3 := <[top t' := y]> ns1).
    set (ns4 := <[r := _]> ns3).
    assert (same_but (r :: flat_map keys (c :: cs')) ns ns4) as Hsb.
    { eapply same_but_trans; [|eapply same_but_trans].
      - eapply same_but_mono; [|exact Hsb1]. intros i Hi. by apply list_elem_of_further.
      - eapply (same_but_insert _ ns1 (top t') x1 y); [done|done|].
        by apply list_elem_of_further.
      - eapply (same_but_insert _ ns3 r x); [|done|apply list_elem_of_here].
        unfold ns3. by rewrite list_lookup_insert_ne. }
    exists ns4, (Some t'). split; [done|]. split; [|by split].
    unfold heap_inv. cbn [nodes root].
    split; [done|]. split; [split_and!|split].
    + eapply rep_same; [|eapply (rep_insert_root ns1 t' x1 y); done].
      intros i Hi. unfold ns4. apply list_lookup_insert_ne. intros <-.
      apply Hr. by rewrite <- Hperm.
    + eapply ordered_ext; [|exact Hot]. intros i _.
      by rewrite (same_but_valof _ _ _ i Hsb), (same_but_valof _ _ _ i Hsb1).
    + done.
    + intros i Hi. cbn in Hi. rewrite Hperm in Hi.
      destruct (Hlive i) as (xi & Hxi & Hli); [by apply list_elem_of_further|].
      by eapply same_but_live.
    + intros i x' Hx' Hlx' Hi. cbn [nodes okeys from_option] in Hx', Hi.
      rewrite Hperm in Hi.
      destruct (decide (i = r)) as [->|Hne].
      * unfold ns4 in Hx'. rewrite list_lookup_insert_eq in Hx'.
        -- injection Hx' as <-. done.
        -- unfold ns3. rewrite length_insert. by eapply lookup_lt_Some.
      * destruct Hsb as (_ & Hout & _). rewrite Hout in Hx'.
        -- apply (Hdet i x' Hx' Hlx'). cbn [okeys from_option keys].
           by intros [->|?]%elem_of_cons.
        -- by intros [->|?]%elem_of_cons.
Qed.

(** The sequence [n->val = v; root = merge_roots(n, root)] on a live node
    that is not in the heap: the node becomes a member, with the value
    [v]. *)
Definition insert_node (n : nat) (v : Z) : M (pairing_queue X) unit :=
  modify n (set_val v) >>
  do r <- get_root;
  do r <- merge_roots n r;
  set_root (Some r).

Lemma insert_spec live ns rt (t : option tree) n x v :
  heap_inv live (mk_queue ns rt) t →
  ns !! n = Some x → live (ext x) → n ∉ okeys t →
  ∃ ns' t',
    insert_node n v (mk_queue ns rt) = Done (tt, mk_queue ns' (Some (top t'))) ∧
    heap_inv live (mk_queue ns' (Some (top t'))) (Some t') ∧
    keys t' ≡ₚ n :: okeys t ∧
    length ns' = length ns ∧
    (∀ i, ext <$> ns' !! i = ext <$> ns !! i) ∧
    valof ns' n = v ∧
    (∀ i, i ≠ n → valof ns' i = valof ns i) ∧
    (∀ i, i ∉ n :: okeys t → ns' !! i = ns !! i).
Proof.
  intros (Hroot & Ht & Hlive & Hdet) Hx Hlx Hn. cbn [nodes root] in *.
  destruct (Hdet n x Hx Hlx Hn) as (Hnx & Hdx & Hpx).
  assert (n < length ns)%nat as Hlt by by eapply lookup_lt_Some.
  unfold insert_node. rewrite (run_modify _ _ _ _ _ _ Hx).
  set (ns0 := <[n := set_val v x]> ns).
  assert (ns0 !! n = Some (set_val v x)) as Hx0 by by apply list_lookup_insert_eq.
  assert (∀ i, i ≠ n → ns0 !! i = ns !! i) as Hne0.
  { intros i Hi. by apply list_lookup_insert_ne. }
  assert (∀ i, ext <$> ns0 !! i = ext <$> ns !! i) as Hext0.
  { intros i. destruct (decide (i = n)) as [->|Hi]; [by rewrite Hx0, Hx|by rewrite Hne0]. }
  assert (valof ns0 n = v) as Hv0 by (unfold valof; by rewrite Hx0).
  assert (∀ i, i ≠ n → valof ns0 i = valof ns i) as Hvne0.
  { intros i Hi. unfold valof. by rewrite Hne0. }
  assert (rep ns0 (T n [])) as Hrn.
  { econstructor; [exact Hx0|done..]. }
  assert (ordered ns0 (T n [])) as Hon by by constructor.
  unfold bind at 1. unfold get_root at 1. cbn [root].
  destruct t as [t0|]; cbn in Hroot; subst rt.
  - destruct Ht as (Hr0 & Ho0 & Hnd0). cbn [okeys from_option] in *.
    assert (rep ns0 t0) as Hr0'.
    { eapply rep_same; [|exact Hr0]. intros i Hi. apply Hne0. by intros ->. }
    assert (ordered ns0 t0) as Ho0'.
    { eapply ordered_ext; [|exact Ho0]. intros i Hi. apply Hvne0. by intros ->. }
    destruct (meld_spec ns0 (Some (top t0)) (T n []) t0 Hrn Hr0' Hon Ho0')
      as (ns1 & t' & Hrun & Hsb1 & Hrt & Hot & Hperm).
    { cbn. by constructor. }
    cbn [top] in Hrun. cbn [keys flat_map app] in Hsb1, Hperm.
    cbn [merge_roots]. unfold bind at 1. rewrite (run_bind _ _ _ _ _ Hrun).
    destruct (rep_lookup _ _ Hrt) as [x1 Hx1].
    rewrite (run_modify _ _ _ _ _ _ Hx1). unfold ret at 1. cbv beta iota.
    unfold set_root. cbn [nodes].
    set (ns2 := <[top t' := set_prev None x1]> ns1).
    assert (same_but (n :: keys t0) ns0 ns2) as Hsb.
    { eapply same_but_trans; [exact Hsb1|]. eapply same_but_insert; [done|done|].
      rewrite <- Hperm. apply key_in_keys. }
    assert (NoDup (keys t')) as Hndt by (rewrite Hperm; by constructor).
    exists ns2, t'. split; [done|]. split; [|split_and!].
    + unfold heap_inv. cbn [nodes root okeys from_option]. split; [done|].
      split; [split_and!|split].
      * by eapply rep_insert_root.
      * eapply (ordered_same_but [top t']); [|exact Hot].
        eapply same_but_insert; [done|done|]. apply list_elem_of_here.
      * done.
      * intros i Hi. rewrite Hperm in Hi.
        assert (∃ xi, ns0 !! i = Some xi ∧ live (ext xi)) as (xi & Hxi & Hli).
        { apply elem_of_cons in Hi as [->|Hi]; [by eexists|].
          destruct (Hlive i Hi) as (xi & Hxi & Hli). exists xi. split; [|done].
          rewrite Hne0; [done|]. by intros ->. }
        by eapply same_but_live.
      * intros i xi Hxi Hli Hi. rewrite Hperm in Hi.
        destruct Hsb as (_ & Hout & _). rewrite Hout in Hxi by done.
        rewrite Hne0 in Hxi by (intros ->; apply Hi, list_elem_of_here).
        apply (Hdet i xi Hxi Hli). intros H. by apply Hi, list_elem_of_further.
    + done.
    + destruct Hsb as (-> & _). by apply length_insert.
    + intros i. by rewrite (same_but_ext _ _ _ i Hsb).
    + by rewrite (same_but_valof _ _ _ n Hsb).
    + intros i Hi. rewrite (same_but_valof _ _ _ i Hsb). by apply Hvne0.
    + intros i Hi. destruct Hsb as (_ & Hout & _). rewrite Hout by done.
      apply Hne0. intros ->. apply Hi, list_elem_of_here.
  - cbn [merge_roots]. rewrite run_ret. unfold set_root. cbn [nodes].
    exists ns0, (T n []). split; [done|]. split; [|split_and!].
    + unfold heap_inv. cbn [nodes root okeys from_option keys flat_map].
      split; [done|]. split; [split_and!|split].
      * done.
      * done.
      * apply NoDup_singleton.
      * intros i ->%list_elem_of_singleton. by eexists.
      * intros i xi Hxi Hli Hi. rewrite Hne0 in Hxi.
        -- apply (Hdet i xi Hxi Hli). by intros ?%elem_of_nil.
        -- intros ->. apply Hi, list_elem_of_here.
    + done.
    + by apply length_insert.
    + done.
    + done.
    + done.
    + intros i Hi. apply Hne0. intros ->. apply Hi, list_elem_of_here.
Qed.

(** ** [reset_fill] *)

Lemma for_nodes_from (body : nat → M (pairing_queue X) unit)
    (g : nat → node X → node X) (post pre : list (node X)) (r : ptr) :
  (∀ i x ns, ns !! i = Some x →
     body i (mk_queue ns r) = Done (tt, mk_queue (<[i := g i x]> ns) r)) →
  for_nodes body (seq (length pre) (length post)) (mk_queue (pre ++ post) r)
  = Done (tt, mk_queue (pre ++ imap (λ j, g (length pre + j)%nat) post) r).
Proof.
  intros Hbody. revert pre. induction post as [|x post IH]; intros pre; [done|].
  cbn [length seq for_nodes]. unfold bind at 1.
  rewrite (Hbody _ x) by by apply list_lookup_middle.
  replace (<[length pre:=g (length pre) x]> (pre ++ x :: post))
    with ((pre ++ [g (length pre) x]) ++ post).
  - replace (S (length pre)) with (length (pre ++ [g (length pre) x]))
      by (rewrite length_app; cbn; lia).
    rewrite IH. rewrite <- app_assoc. cbn. rewrite Nat.add_0_r. do 5 f_equal.
    apply imap_ext. intros j y _. cbn. f_equal. rewrite length_app. cbn. lia.
  - rewrite <- app_assoc. cbn.
    rewrite insert_app_r_alt by lia. by rewrite Nat.sub_diag.
Qed.

Lemma run_reset_node_val ns rt n x v :
  ns !! n = Some x →
  reset_node_val n v (mk_queue ns rt)
  = Done (tt, mk_queue (<[n := mk_node v None None (Some n) (ext x)]> ns) rt).
Proof.
  intros Hx. unfold reset_node_val. rewrite (run_reset_node _ _ _ _ _ Hx).
  erewrite run_modify_last by (apply list_lookup_insert_eq; by eapply lookup_lt_Some).
  by rewrite list_insert_insert_eq.
Qed.

Lemma reset_fill_nodes (q : pairing_queue X) (v : Z) :
  reset_fill v q
  = Done (tt, mk_queue (imap (λ i x, mk_node v None None (Some i) (ext x)) (nodes q)) None).
Proof.
  destruct q as [ns r]. unfold reset_fill. unfold bind at 1, set_root at 1.
  unfold bind at 1, size at 1. cbn [nodes].
  apply (for_nodes_from _ (λ i x, mk_node v None None (Some i) (ext x)) ns [] None).
  intros i x ns' Hx. by apply run_reset_node_val.
Qed.

(** A queue with a null root in which every live node is detached holds the
    empty heap. *)
Lemma heap_inv_empty live (q : pairing_queue X) :
  root q = None →
  (∀ i x, nodes q !! i = Some x → live (ext x) → detached i x) →
  heap_inv live q None.
Proof.
  intros Hr Hd. split; [done|]. split; [done|]. split; [by intros i ?%elem_of_nil|].
  intros i x Hx Hl _. by apply Hd.
Qed.

End Rep.

(** ** What the public calls do to a heap *)

Lemma value_valof {X} (q : pairing_queue X) (k : Z) :
  0 <= k < Z.of_nat (length (nodes q)) →
  value k q = Done (valof (nodes q) (Z.to_nat k), q).
Proof.
  intros Hk. unfold value. unfold bind at 1. rewrite node_at_Done by done.
  destruct (lookup_lt_is_Some_2 (nodes q) (Z.to_nat k)) as [x Hx]; [lia|].
  unfold bind, load, valof. by rewrite Hx.
Qed.

Lemma node_at_inv {X} (q q' : pairing_queue X) (k : Z) (n : nat) :
  node_at k q = Done (n, q') →
  0 <= k < Z.of_nat (length (nodes q)) ∧ n = Z.to_nat k ∧ q' = q.
Proof.
  unfold node_at, has, bind, size, ret.
  destruct (bool_decide (0 <= k)) eqn:E1; [|done].
  destruct (bool_decide (k < Z.of_nat (length (nodes q)))) eqn:E2; [|done].
  cbn. intros [= <- <-]. apply bool_decide_eq_true in E1, E2. done.
Qed.

Lemma value_inv {X} (q q' : pairing_queue X) (k w : Z) :
  value k q = Done (w, q') →
  0 <= k < Z.of_nat (length (nodes q)) ∧ w = valof (nodes q) (Z.to_nat k) ∧ q' = q.
Proof.
  intros H. unfold value in H. apply bind_Done in H as (n & q1 & H1 & H2).
  apply node_at_inv in H1 as (Hk & -> & ->). split; [done|].
  assert (value k q = Done (w, q')) as H3.
  { unfold value. unfold bind at 1. by rewrite node_at_Done. }
  rewrite value_valof in H3 by done. by injection H3 as <- <-.
Qed.

Lemma reset_fill_heap {X} (q : pairing_queue X) (v : Z) :
  ∃ q', reset_fill v q = Done (tt, q') ∧
    heap_inv (λ _, True) q' None ∧
    length (nodes q') = length (nodes q) ∧
    (∀ i, ext <$> nodes q' !! i = ext <$> nodes q !! i) ∧
    (∀ i, (i < length (nodes q))%nat → valof (nodes q') i = v).
Proof.
  eexists. split; [apply reset_fill_nodes|]. cbn [nodes root]. split_and!.
  - apply heap_inv_empty; [done|]. cbn [nodes]. intros i x Hx _.
    rewrite list_lookup_imap in Hx. destruct (nodes q !! i); [|done].
    cbn in Hx. by injection Hx as <-.
  - apply length_imap.
  - intros i. rewrite list_lookup_imap. by destruct (nodes q !! i).
  - intros i Hi. unfold valof. rewrite list_lookup_imap.
    destruct (lookup_lt_is_Some_2 (nodes q) i Hi) as [x ->]. done.
Qed.

Lemma set_value_node_insert {X} (live : X → Prop) (q : pairing_queue X)
    (t : option tree) (n : nat) (x : node X) (v : Z) :
  heap_inv live q t → nodes q !! n = Some x → live (ext x) → n ∉ okeys t →
  set_value_node n v q = insert_node n v q.
Proof.
  intros (_ & _ & _ & Hdet) Hx Hl Hn. destruct (Hdet n x Hx Hl Hn) as (_ & _ & Hp).
  unfold set_value_node. unfold bind at 1. unfold load at 1. rewrite Hx.
  by rewrite bool_decide_eq_true_2.
Qed.

Lemma pop_min_heap {X} (live : X → Prop) (q : pairing_queue X) (r : nat)
    (cs : list tree) (key0 val0 : Z) :
  heap_inv live q (Some (T r cs)) →
  ∃ q' (t' : option tree),
    pop_min key0 val0 q = Done ((true, Z.of_nat r, valof (nodes q) r), q') ∧
    min_key q = Done (Z.of_nat r, q) ∧
    min_value q = Done (valof (nodes q) r, q) ∧
    empty q = Done (false, q) ∧
    delete_min q = Done (true, q') ∧
    heap_inv live q' t' ∧
    okeys t' ≡ₚ flat_map keys cs ∧
    same_but (keys (T r cs)) (nodes q) (nodes q') ∧
    (∀ j, j ∈ keys (T r cs) → node_le (nodes q) r j).
Proof.
  intros Hq. pose proof Hq as (Hroot & (Hrep & Hord & Hnd) & _).
  destruct q as [ns rt]. cbn in Hroot. subst rt. cbn [nodes] in *.
  destruct (delete_min_spec live ns r cs Hq) as (ns' & t' & Hrun & Hq' & Hperm & Hsb).
  destruct (rep_lookup _ _ Hrep) as [x Hx]. cbn [top] in Hx.
  assert (min_key (mk_queue ns (Some r)) = Done (Z.of_nat r, mk_queue ns (Some r))) as Hmk.
  { done. }
  assert (min_value (mk_queue ns (Some r))
          = Done (valof ns r, mk_queue ns (Some r))) as Hmv.
  { unfold min_value, bind, get_root, deref, ret, load, valof. cbn. by rewrite Hx. }
  exists (mk_queue ns' (top <$> t')), t'. split_and!; try done.
  - unfold pop_min. unfold bind at 1. unfold empty, bind, get_root, ret. cbn [root].
    rewrite bool_decide_eq_false_2 by done.
    change (match min_key (mk_queue ns (Some r)) with
            | Done (a, s') =>
                match min_value s' with
                | Done (a0, s'0) =>
                    match delete_min s'0 with
                    | Done (_, s'1) => Done ((true, a, a0), s'1)
                    | Undefined => Undefined
                    | Timeout => Timeout
                    end
                | Undefined => Undefined
                | Timeout => Timeout
                end
            | Undefined => Undefined
            | Timeout => Timeout
            end = Done ((true, Z.of_nat r, valof ns r), mk_queue ns' (top <$> t'))).
    by rewrite Hmk, Hmv, Hrun.
  - intros j Hj. by apply (ordered_root ns (T r cs)).
Qed.

Lemma heap_inv_in_range {X} (live : X → Prop) (q : pairing_queue X) t i :
  heap_inv live q t → i ∈ okeys t → (i < length (nodes q))%nat.
Proof.
  intros (_ & _ & Hl & _) Hi. destruct (Hl i Hi) as (x & Hx & _).
  by eapply lookup_lt_Some.
Qed.

(** * The queue as a priority queue *)

(** An entry of the queue: a key and its value. *)
Definition entry : Type := Z * Z.

(** The order in which entries leave the queue: by value, and by key among
    equal values. *)
Definition entry_le (a b : entry) : Prop :=
  a.2 < b.2 ∨ (a.2 = b.2 ∧ a.1 <= b.1).

(** The heap of the queue [q] holds the entries [es], each key with the
    value that its node has. *)
Definition holding {X} (live : X → Prop) (q : pairing_queue X) (es : list entry) : Prop :=
  ∃ t, heap_inv live q t ∧
       okeys t ≡ₚ Z.to_nat <$> es.*1 ∧
       Forall (λ e, 0 <= e.1 ∧ valof (nodes q) (Z.to_nat e.1) = e.2) es.

Lemma holding_key_nat {X} (live : X → Prop) (q : pairing_queue X) es (k : Z) :
  holding live q es → 0 <= k → Z.to_nat k ∈ Z.to_nat <$> es.*1 → k ∈ es.*1.
Proof.
  intros (t & _ & _ & Hes) Hk (k' & Hk' & Hin)%list_elem_of_fmap.
  assert (0 <= k') as Hk'0.
  { apply list_elem_of_fmap in Hin as (e & -> & He).
    rewrite Forall_forall in Hes. by apply Hes. }
  by replace k with k' by lia.
Qed.

Lemma holding_Permutation {X} (live : X → Prop) (q : pairing_queue X) es es' :
  es ≡ₚ es' → holding live q es → holding live q es'.
Proof.
  intros Hp (t & Hq & Hk & Hes). exists t. split; [done|]. split.
  - by rewrite <- Hp.
  - by rewrite <- Hp.
Qed.

Lemma holding_insert_node {X} (live : X → Prop) (q : pairing_queue X) es
    (n : nat) (x : node X) (v : Z) :
  holding live q es →
  nodes q !! n = Some x → live (ext x) → Z.of_nat n ∉ es.*1 →
  ∃ q', insert_node n v q = Done (tt, q') ∧
    holding live q' ((Z.of_nat n, v) :: es) ∧
    length (nodes q') = length (nodes q) ∧
    (∀ i, ext <$> nodes q' !! i = ext <$> nodes q !! i) ∧
    valof (nodes q') n = v ∧
    (∀ i, i ≠ n → valof (nodes q') i = valof (nodes q) i).
Proof.
  intros Hh Hx Hl Hn. pose proof Hh as (t & Hq & Hk & Hes).
  assert (n ∉ okeys t) as Hn'.
  { rewrite Hk. intros Hin. apply Hn. apply (holding_key_nat live q); [done|lia|].
    by rewrite Nat2Z.id. }
  destruct q as [ns rt]. cbn [nodes] in *.
  destruct (insert_spec live ns rt t n x v Hq Hx Hl Hn')
    as (ns' & t' & Hrun & Hq' & Hperm' & Hlen & Hext & Hv & Hvne & _).
  exists (mk_queue ns' (Some (top t'))). split; [done|]. split; [|done].
  exists (Some t'). split; [done|]. split.
  - cbn. by rewrite Hperm', Hk, Nat2Z.id.
  - constructor; cbn.
    + split; [lia|]. by rewrite Nat2Z.id.
    + rewrite Forall_forall in Hes |- *. intros e He.
      destruct (Hes e He) as [He0 Hev]. split; [done|].
      rewrite Hvne; [done|]. intros <-. apply Hn. rewrite Z2Nat.id by done.
      by apply list_elem_of_fmap_2.
Qed.

Lemma holding_set_value_node {X} (live : X → Prop) (q : pairing_queue X) es
    (n : nat) (x : node X) (v : Z) :
  holding live q es →
  nodes q !! n = Some x → live (ext x) → Z.of_nat n ∉ es.*1 →
  set_value_node n v q = insert_node n v q.
Proof.
  intros Hh Hx Hl Hn. pose proof Hh as (t & Hq & Hk & Hes).
  apply (set_value_node_insert live q t n x v Hq Hx Hl).
  rewrite Hk. intros Hin. apply Hn. apply (holding_key_nat live q); [done|lia|].
  by rewrite Nat2Z.id.
Qed.

Lemma holding_pop {X} (live : X → Prop) (q : pairing_queue X) es (key0 val0 : Z) :
  holding live q es → es ≠ [] →
  ∃ e es' q',
    pop_min key0 val0 q = Done ((true, e.1, e.2), q') ∧
    min_key q = Done (e.1, q) ∧
    min_value q = Done (e.2, q) ∧
    empty q = Done (false, q) ∧
    delete_min q = Done (true, q') ∧
    es ≡ₚ e :: es' ∧
    Forall (entry_le e) es ∧
    holding live q' es' ∧
    length (nodes q') = length (nodes q) ∧
    (∀ i, data <$> nodes q' !! i = data <$> nodes q !! i).
Proof.
  intros (t & Hq & Hk & Hes) Hne. destruct t as [[r cs]|]; cycle 1.
  { cbn in Hk. symmetry in Hk. apply Permutation_nil_r in Hk.
    destruct es; [done|discriminate]. }
  destruct (pop_min_heap live q r cs key0 val0 Hq)
    as (q' & t' & Hpop & Hmk & Hmv & Hem & Hdel & Hq' & Hperm' & Hsb & Hmin).
  assert (r ∈ Z.to_nat <$> es.*1) as Hr.
  { rewrite <- Hk. apply list_elem_of_here. }
  apply list_elem_of_fmap in Hr as (k & Hrk & Hkin).
  apply list_elem_of_fmap in Hkin as (e & -> & He).
  rewrite Forall_forall in Hes. destruct (Hes e He) as [He0 Hev].
  assert (Z.of_nat r = e.1) as Hre by lia.
  assert (valof (nodes q) r = e.2) as Hrv by by rewrite Hrk.
  apply elem_of_Permutation in He as (es' & Hperm).
  exists e, es', q'. rewrite <- Hre, <- Hrv. split_and!; try done.
  - apply Forall_forall. intros e' He'. destruct (Hes e' He') as [He'0 He'v].
    assert (Z.to_nat e'.1 ∈ keys (T r cs)) as Hin.
    { change (keys (T r cs)) with (okeys (Some (T r cs))). rewrite Hk.
      by apply list_elem_of_fmap_2, list_elem_of_fmap_2. }
    specialize (Hmin _ Hin). unfold node_le in Hmin. unfold entry_le.
    rewrite <- Hre, <- Hrv, <- He'v. lia.
  - exists t'. split; [done|]. split.
    + rewrite Hperm'. cbn in Hk. rewrite Hperm in Hk. cbn in Hk.
      rewrite <- Hrk in Hk. by apply Permutation_cons_inv in Hk.
    + apply Forall_forall. intros e' He'.
      destruct (Hes e') as [He'0 He'v]; [rewrite Hperm; by apply list_elem_of_further|].
      split; [done|]. by rewrite (same_but_valof _ _ _ _ Hsb).
  - by destruct Hsb as (-> & _).
  - by destruct Hsb as (_ & _ & ?).
Qed.

(** ** The plain queue: every node is live *)

Definition holds {X} (q : pairing_queue X) (es : list entry) : Prop :=
  holding (λ _, True) q es.

Lemma holds_empty {X} (q : pairing_queue X) :
  root q = None →
  (∀ i x, nodes q !! i = Some x → detached i x) →
  holds q [].
Proof.
  intros Hr Hd. exists None. split; [|done]. apply heap_inv_empty; [done|].
  intros i x Hx _. by apply Hd.
Qed.

Lemma value_preserved {X} (q q' : pairing_queue X) (j w : Z) :
  length (nodes q') = length (nodes q) →
  valof (nodes q') (Z.to_nat j) = valof (nodes q) (Z.to_nat j) →
  value j q = Done (w, q) → value j q' = Done (w, q').
Proof.
  intros Hlen Hv (Hj & -> & _)%value_inv. rewrite value_valof by lia. by rewrite Hv.
Qed.

Lemma data_valof {X} (ns ns' : list (node X)) (i : nat) :
  data <$> ns' !! i = data <$> ns !! i → valof ns' i = valof ns i.
Proof.
  unfold valof. destruct (ns' !! i), (ns !! i); cbn; try done. by intros [= -> _].
Qed.

Lemma holds_reset_fill {X} (q : pairing_queue X) (v : Z) :
  ∃ q', reset_fill v q = Done (tt, q') ∧
    holds q' [] ∧
    length (nodes q') = length (nodes q) ∧
    (∀ i, (i < length (nodes q))%nat → valof (nodes q') i = v).
Proof.
  destruct (reset_fill_heap q v) as (q' & Hrun & Hq' & Hlen & _ & Hv).
  exists q'. split; [done|]. split; [|done]. by exists None.
Qed.

Lemma holds_set_value {X} (q : pairing_queue X) (es : list entry) (k v : Z) :
  holds q es →
  0 <= k < Z.of_nat (length (nodes q)) →
  k ∉ es.*1 →
  ∃ q', set_value k v q = Done (tt, q') ∧
    holds q' ((k, v) :: es) ∧
    length (nodes q') = length (nodes q) ∧
    value k q' = Done (v, q') ∧
    (∀ j w, j ≠ k → value j q = Done (w, q) → value j q' = Done (w, q')).
Proof.
  intros Hh Hk Hn.
  destruct (lookup_lt_is_Some_2 (nodes q) (Z.to_nat k)) as [x Hx]; [lia|].
  rewrite <- (Z2Nat.id k) in Hn by lia.
  destruct (holding_insert_node _ q es (Z.to_nat k) x v Hh Hx I Hn)
    as (q' & Hrun & Hh' & Hlen & _ & Hv & Hvne).
  exists q'. split_and!.
  - unfold set_value. unfold bind at 1. rewrite node_at_Done by done.
    by rewrite (holding_set_value_node (λ _, True) q es _ x).
  - by rewrite Z2Nat.id in Hh' by lia.
  - done.
  - rewrite value_valof by lia. by rewrite Hv.
  - intros j w Hj Hval. apply (value_preserved q); [done| |done].
    apply value_inv in Hval as (Hjr & _). apply Hvne. lia.
Qed.

(** X5 (part_000, [reset_fill], [reset]): [reset_fill(v)] returns on
    every queue, whatever its links were, and leaves a queue that holds no
    entry and has the value [v] under every key; the number of nodes stays.
    [reset()] is [reset_fill(max_P)]. *)
Theorem reset_fill_empties {X} (max_P : Z) (q : pairing_queue X) (v : Z) :
  reset max_P q = reset_fill max_P q ∧
  ∃ q', reset_fill v q = Done (tt, q') ∧
    holds q' [] ∧
    empty q' = Done (true, q') ∧
    length (nodes q') = length (nodes q) ∧
    (∀ k, 0 <= k < Z.of_nat (length (nodes q)) → value k q' = Done (v, q')).
Proof.
  split; [done|].
  destruct (holds_reset_fill q v) as (q' & Hrun & Hh & Hlen & Hv).
  exists q'. split; [done|]. split_and!; [done| |done|].
  - destruct Hh as (t & (Hr & _) & Hk & _). destruct t as [t|].
    + cbn in Hk. apply Permutation_nil_r in Hk. by destruct t.
    + unfold empty, bind, get_root, ret. by rewrite Hr.
  - intros k Hk. rewrite value_valof by lia. by rewrite Hv by lia.
Qed.

(** X6 (part_000, [set_value]): on a queue that holds the entries
    [es], [set_value(k, v)] with a key in range that is not among them
    returns and leaves a queue that holds [(k, v)] and [es]; [value(k)] is
    [v] and every other key keeps its value. *)
Theorem set_value_inserts {X} (q : pairing_queue X) (es : list entry) (k v : Z) :
  holds q es →
  0 <= k < Z.of_nat (length (nodes q)) →
  k ∉ es.*1 →
  ∃ q', set_value k v q = Done (tt, q') ∧
    holds q' ((k, v) :: es) ∧
    length (nodes q') = length (nodes q) ∧
    value k q' = Done (v, q') ∧
    (∀ j w, j ≠ k → value j q = Done (w, q) → value j q' = Done (w, q')).
Proof. apply holds_set_value. Qed.

(** X7 (part_000, [pop_min]): on a queue that holds the entries [es],
    not none, [pop_min] returns true with an entry [e] of [es] in its
    arguments, no entry of [es] is before [e] (by value, then by key), and
    the queue is left holding the other entries; no value changes. *)
Theorem pop_min_returns_minimum {X} (q : pairing_queue X) (es : list entry)
    (key0 val0 : Z) :
  holds q es →
  es ≠ [] →
  ∃ e es' q',
    pop_min key0 val0 q = Done ((true, e.1, e.2), q') ∧
    es ≡ₚ e :: es' ∧
    Forall (entry_le e) es ∧
    holds q' es' ∧
    length (nodes q') = length (nodes q) ∧
    (∀ j w, value j q = Done (w, q) → value j q' = Done (w, q')).
Proof.
  intros Hh Hne.
  destruct (holding_pop _ q es key0 val0 Hh Hne)
    as (e & es' & q' & Hpop & _ & _ & _ & _ & Hperm & Hmin & Hh' & Hlen & Hdata).
  exists e, es', q'. split_and!; try done.
  intros j w Hval. apply (value_preserved q); [done| |done]. by apply data_valof.
Qed.

(** X8 (part_000, [min_key], [min_value], [empty], [delete_min]): on a
    queue that holds entries, [empty] is false, [min_key] and [min_value]
    return, without changing the queue, the key and the value that [pop_min]
    returns, and [delete_min] returns true and leaves the queue that
    [pop_min] leaves. *)
Theorem min_key_is_next_pop {X} (q : pairing_queue X) (es : list entry)
    (key0 val0 : Z) :
  holds q es →
  es ≠ [] →
  ∃ k v q',
    empty q = Done (false, q) ∧
    min_key q = Done (k, q) ∧
    min_value q = Done (v, q) ∧
    pop_min key0 val0 q = Done ((true, k, v), q') ∧
    delete_min q = Done (true, q').
Proof.
  intros Hh Hne.
  destruct (holding_pop _ q es key0 val0 Hh Hne)
    as (e & es' & q' & Hpop & Hmk & Hmv & Hem & Hdel & _).
  by exists e.1, e.2, q'.
Qed.

(** ** Sorting with the queue *)

Definition insert_ops (es : list entry) : list op := (λ e, SetValue e.1 e.2) <$> es.

Definition pop_obs (e : entry) : obs := OPop true e.1 e.2.

Lemma run_cons {S O} (f : O → M S obs) (o : O) (os : list O) s r s1 rs s2 :
  f o s = Done (r, s1) → run f os s1 = Done (rs, s2) →
  run f (o :: os) s = Done (r :: rs, s2).
Proof. intros H1 H2. cbn [run]. unfold bind. by rewrite H1, H2. Qed.

Lemma run_app {S O} (f : O → M S obs) (os1 os2 : list O) s rs1 s1 rs2 s2 :
  run f os1 s = Done (rs1, s1) → run f os2 s1 = Done (rs2, s2) →
  run f (os1 ++ os2) s = Done (rs1 ++ rs2, s2).
Proof.
  revert s rs1. induction os1 as [|o os1 IH]; intros s rs1 H1 H2.
  - by injection H1 as <- <-.
  - cbn [run] in H1. apply bind_Done in H1 as (r & s' & Hr & H1).
    apply bind_Done in H1 as (rs & s'' & Hrs & [= <- <-]).
    cbn [app]. eapply run_cons; [done|]. by eapply IH.
Qed.

Lemma run_inserts {X} (max_P : Z) (es : list entry) (q : pairing_queue X)
    (es0 : list entry) :
  holds q es0 →
  NoDup es.*1 →
  (∀ k, k ∈ es.*1 → (k ∉ es0.*1) ∧ 0 <= k < Z.of_nat (length (nodes q))) →
  ∃ q', run (call max_P) (insert_ops es) q = Done (replicate (length es) OUnit, q') ∧
    holds q' (rev es ++ es0) ∧
    length (nodes q') = length (nodes q).
Proof.
  revert q es0. induction es as [|[k v] es IH]; intros q es0 Hh Hnd Hk.
  { by exists q. }
  cbn in Hnd. apply NoDup_cons in Hnd as [Hk1 Hnd].
  destruct (Hk k) as [Hk0 Hkr]; [apply list_elem_of_here|].
  destruct (holds_set_value q es0 k v Hh Hkr Hk0) as (q1 & Hrun & Hh1 & Hlen & _).
  destruct (IH q1 ((k, v) :: es0) Hh1 Hnd) as (q' & Hrun' & Hh' & Hlen').
  { intros k' Hk'. destruct (Hk k') as [Hk'0 Hk'r]; [by apply list_elem_of_further|].
    split; [|by rewrite Hlen]. cbn. intros [->|?]%elem_of_cons; done. }
  exists q'. split_and!.
  - cbn [insert_ops fmap list_fmap length replicate].
    eapply run_cons; [|exact Hrun'].
    change (obs_unit (set_value k v) q = Done (OUnit, q1)).
    unfold obs_unit, bind. by rewrite Hrun.
  - cbn [rev]. rewrite <- app_assoc. exact Hh'.
  - by rewrite Hlen'.
Qed.

Lemma run_pops {X} (max_P : Z) (key0 val0 : Z) (n : nat) (es : list entry)
    (q : pairing_queue X) :
  holds q es →
  length es = n →
  ∃ out q', run (call max_P) (replicate n (PopMin key0 val0)) q
            = Done (pop_obs <$> out, q') ∧
    out ≡ₚ es ∧
    StronglySorted entry_le out ∧
    holds q' [] ∧
    length (nodes q') = length (nodes q).
Proof.
  revert es q. induction n as [|n IH]; intros es q Hh Hlen.
  { destruct es; [|done]. exists [], q. split_and!; try done. constructor. }
  assert (es ≠ []) as Hne by by destruct es.
  destruct (holding_pop _ q es key0 val0 Hh Hne)
    as (e & es' & q1 & Hpop & _ & _ & _ & _ & Hperm & Hmin & Hh1 & Hlen1 & _).
  destruct (IH es' q1 Hh1) as (out & q' & Hrun & Hperm' & Hsorted & Hh' & Hlen').
  { apply Permutation_length in Hperm. cbn in Hperm. lia. }
  exists (e :: out), q'. split_and!.
  - cbn [replicate fmap list_fmap]. eapply run_cons; [|exact Hrun].
    change (obs_pop (pop_min key0 val0) q = Done (pop_obs e, q1)).
    unfold obs_pop, bind. by rewrite Hpop.
  - by rewrite Hperm, Hperm'.
  - constructor; [done|]. rewrite Hperm'. rewrite Hperm in Hmin.
    by apply Forall_cons in Hmin as [_ ?].
  - done.
  - by rewrite Hlen'.
Qed.

(** X9 (part_000, the public interface): heap sort.  On any queue,
    [reset()], then [set_value(k, v)] for entries with distinct keys in
    range, then as many [pop_min] calls: every call returns, the [pop_min]
    calls return true with the entries that went in, each once, in order of
    value and, among equal values, of key; then the queue is empty. *)
Theorem heap_sort {X} (max_P key0 val0 : Z) (q : pairing_queue X) (es : list entry) :
  NoDup es.*1 →
  Forall (λ e, 0 <= e.1 < Z.of_nat (length (nodes q))) es →
  ∃ out,
    observed (run (call max_P)
                ([Reset] ++ insert_ops es
                 ++ replicate (length es) (PopMin key0 val0) ++ [Empty]) q)
    = Done ([OUnit] ++ replicate (length es) OUnit ++ (pop_obs <$> out) ++ [OBool true]) ∧
    out ≡ₚ es ∧
    StronglySorted entry_le out.
Proof.
  intros Hnd Hr.
  destruct (holds_reset_fill q max_P) as (q0 & Hrun0 & Hh0 & Hlen0 & _).
  destruct (run_inserts max_P es q0 [] Hh0 Hnd) as (q1 & Hrun1 & Hh1 & Hlen1).
  { intros k (e & -> & He)%list_elem_of_fmap. split; [apply not_elem_of_nil|].
    rewrite Forall_forall in Hr. rewrite Hlen0. by apply Hr. }
  rewrite app_nil_r in Hh1.
  destruct (run_pops max_P key0 val0 (length es) (rev es) q1 Hh1)
    as (out & q2 & Hrun2 & Hperm & Hsorted & Hh2 & Hlen2).
  { by rewrite length_rev. }
  exists out. split_and!; [|rewrite Hperm; symmetry; apply Permutation_rev|done].
  assert (run (call max_P) [Empty] q2 = Done ([OBool true], q2)) as Hrun3.
  { destruct Hh2 as (t & (Hroot & _) & Hk & _). destruct t as [t|].
    - cbn in Hk. apply Permutation_nil_r in Hk. by destruct t.
    - cbn. unfold obs_bool, bind, empty, bind, get_root, ret. by rewrite Hroot. }
  assert (run (call max_P) [Reset] q = Done ([OUnit], q0)) as Hrun00.
  { cbn. unfold obs_unit, bind, reset. by rewrite Hrun0. }
  erewrite run_app; [| exact Hrun00 |].
  2: { eapply run_app; [exact Hrun1|]. eapply run_app; [exact Hrun2|exact Hrun3]. }
  done.
Qed.

Lemma heap_sort_witness :
  ∃ out,
    observed (run (call 100)
                ([Reset] ++ insert_ops [(0, 9); (1, 4)]
                 ++ replicate 2 (PopMin 0 0) ++ [Empty]) (new_queue tt 2))
    = Done ([OUnit] ++ replicate 2 OUnit ++ (pop_obs <$> out) ++ [OBool true]) ∧
    out ≡ₚ [(0, 9); (1, 4)] ∧
    StronglySorted entry_le out.
Proof.
  apply (heap_sort 100 0 0 (new_queue tt 2) [(0, 9); (1, 4)]).
  - cbn. repeat constructor; rewrite ?elem_of_cons, ?elem_of_nil; lia.
  - repeat constructor; cbn; lia.
Defined.

(** Two queues to try the theorems on: what [reset_fill(7)] leaves of a
    queue of two nodes, and that queue after [set_value(0, 5)]. *)
Definition two_detached : pairing_queue unit :=
  mk_queue [mk_node 7 None None (Some 0%nat) tt; mk_node 7 None None (Some 1%nat) tt] None.

Definition one_in_heap : pairing_queue unit :=
  mk_queue [mk_node 5 None None (Some 0%nat) tt; mk_node 7 None None (Some 1%nat) tt]
    (Some 0%nat).

Lemma two_detached_holds : holds two_detached [].
Proof.
  apply holds_empty; [done|].
  intros [|[|i]] x Hx; cbn in Hx; [by injection Hx as <-..|done].
Qed.

Lemma one_in_heap_holds : holds one_in_heap [(0, 5)].
Proof.
  exists (Some (T 0 [])). split; [|split; [done|by repeat constructor]].
  split; [done|]. split; [split_and!|split].
  - by econstructor.
  - by constructor.
  - apply NoDup_singleton.
  - intros i ->%list_elem_of_singleton. by eexists.
  - intros [|[|i]] x Hx _ Hi; cbn in Hx.
    + exfalso. apply Hi, list_elem_of_here.
    + by injection Hx as <-.
    + done.
Qed.

Lemma set_value_inserts_witness :
  ∃ q', set_value 1 3 two_detached = Done (tt, q') ∧
    holds q' [(1, 3)] ∧
    length (nodes q') = 2%nat ∧
    value 1 q' = Done (3, q') ∧
    (∀ j w, j ≠ 1 → value j two_detached = Done (w, two_detached) →
            value j q' = Done (w, q')).
Proof.
  apply (set_value_inserts two_detached [] 1 3).
  - apply two_detached_holds.
  - cbn. lia.
  - apply not_elem_of_nil.
Defined.

Lemma pop_min_returns_minimum_witness :
  ∃ e es' q',
    pop_min 0 0 one_in_heap = Done ((true, e.1, e.2), q') ∧
    [(0, 5)] ≡ₚ e :: es' ∧
    Forall (entry_le e) [(0, 5)] ∧
    holds q' es' ∧
    length (nodes q') = 2%nat ∧
    (∀ j w, value j one_in_heap = Done (w, one_in_heap) → value j q' = Done (w, q')).
Proof.
  apply (pop_min_returns_minimum one_in_heap [(0, 5)] 0 0).
  - apply one_in_heap_holds.
  - discriminate.
Defined.

Lemma min_key_is_next_pop_witness :
  ∃ k v q',
    empty one_in_heap = Done (false, one_in_heap) ∧
    min_key one_in_heap = Done (k, one_in_heap) ∧
    min_value one_in_heap = Done (v, one_in_heap) ∧
    pop_min 0 0 one_in_heap = Done ((true, k, v), q') ∧
    delete_min one_in_heap = Done (true, q').
Proof.
  apply (min_key_is_next_pop one_in_heap [(0, 5)] 0 0).
  - apply one_in_heap_holds.
  - discriminate.
Defined.

(** * Decreasing a value *)

(** [cut a t ta t']: [ta] is the subtree of [t] whose root is [a], a node
    below the root of [t], and [t'] is what is left of [t] without it. *)
Inductive cut (a : nat) : tree → tree → tree → Prop :=
  | cut_here k cs1 ta cs2 :
      top ta = a →
      cut a (T k (cs1 ++ ta :: cs2)) ta (T k (cs1 ++ cs2))
  | cut_below k cs1 c ta c' cs2 :
      cut a c ta c' →
      cut a (T k (cs1 ++ c :: cs2)) ta (T k (cs1 ++ c' :: cs2)).

Lemma cut_exists (a : nat) (t : tree) : a ∈ below t → ∃ ta t', cut a t ta t'.
Proof.
  induction t as [k cs IH] using tree_nested_ind. cbn. intros Ha.
  apply list_elem_of_In, in_flat_map in Ha as (c & Hc & Ha).
  apply list_elem_of_In in Hc, Ha.
  apply list_elem_of_split in Hc as (cs1 & cs2 & ->).
  rewrite keys_below in Ha. apply elem_of_cons in Ha as [->|Ha].
  - exists c, (T k (cs1 ++ cs2)). by constructor.
  - rewrite Forall_forall in IH.
    destruct (IH c) as (ta & c' & Hcut); [apply elem_of_app; right; apply list_elem_of_here|done|].
    exists ta, (T k (cs1 ++ c' :: cs2)). by constructor.
Qed.

Lemma cut_top (a : nat) (t ta t' : tree) : cut a t ta t' → top ta = a ∧ top t' = top t.
Proof. induction 1 as [|k cs1 c ta c' cs2 _ [IH1 IH2]]; by split. Qed.

Lemma cut_keys (a : nat) (t ta t' : tree) : cut a t ta t' → keys ta ++ keys t' ≡ₚ keys t.
Proof.
  induction 1 as [k cs1 ta cs2 _|k cs1 c ta c' cs2 _ IH]; cbn.
  - rewrite !flat_map_app. cbn. rewrite <- Permutation_middle. f_equiv.
    by rewrite !app_assoc, (Permutation_app_comm (keys ta)).
  - rewrite !flat_map_app. cbn. rewrite <- Permutation_middle. f_equiv.
    rewrite <- IH. rewrite !app_assoc. f_equiv.
    rewrite <- !app_assoc. apply Permutation_app_swap_app.
Qed.

Section Cut.
Context {X : Type}.
Implicit Types (ns : list (node X)) (ts : list tree) (ks : list nat).

Lemma cut_ordered ns (a : nat) (t ta t' : tree) :
  cut a t ta t' → ordered ns t → ordered ns ta ∧ ordered ns t'.
Proof.
  induction 1 as [k cs1 ta cs2 _|k cs1 c ta c' cs2 Hcut IH]; intros Ho;
    inversion Ho as [? ? Hle Hcs]; subst;
    apply Forall_app in Hle as [Hle1 Hle2]; apply Forall_cons in Hle2 as [Hlec Hle2];
    apply Forall_app in Hcs as [Hcs1 Hcs2]; apply Forall_cons in Hcs2 as [Hc Hcs2].
  - split; [done|]. constructor; apply Forall_app; by split.
  - destruct (IH Hc) as [Hta Hc']. split; [done|].
    destruct (cut_top _ _ _ _ Hcut) as [_ Htop].
    constructor; apply Forall_app; (split; [done|]); constructor; try done.
    by rewrite Htop.
Qed.

(** ** Lists of siblings, cut in two *)

Definition hd_or ks (e : ptr) : ptr :=
  match ks with
  | [] => e
  | k :: _ => Some k
  end.

Definition last_or ks (pv : ptr) : ptr :=
  match last ks with
  | Some k => Some k
  | None => pv
  end.

(** A list of nodes chained through one of their links, the last one
    pointing to [e]. *)
Fixpoint chain (sel : node X → ptr) ns ks (e : ptr) : Prop :=
  match ks with
  | [] => True
  | k :: ks' => (∃ y, ns !! k = Some y ∧ sel y = hd_or ks' e) ∧ chain sel ns ks' e
  end.

Lemma linked_chain sel ns ks : linked sel ns ks ↔ chain sel ns ks None.
Proof.
  induction ks as [|k ks IH]; [done|]. cbn. rewrite IH.
  by replace (head ks) with (hd_or ks None) by by destruct ks.
Qed.

Lemma chain_app sel ns l1 l2 e :
  chain sel ns (l1 ++ l2) e ↔ chain sel ns l1 (hd_or l2 e) ∧ chain sel ns l2 e.
Proof.
  induction l1 as [|k l1 IH]; cbn; [tauto|]. rewrite IH.
  replace (hd_or (l1 ++ l2) e) with (hd_or l1 (hd_or l2 e)) by by destruct l1.
  tauto.
Qed.

Lemma chain_ext sel ns ns' ks e :
  (∀ i, i ∈ ks → sel <$> ns' !! i = sel <$> ns !! i) →
  chain sel ns ks e → chain sel ns' ks e.
Proof.
  induction ks as [|k ks IH]; [done|]. cbn. intros H [(y & Hy & Hs) Hl].
  split; [|apply IH; [|done]; intros i Hi; apply H; by apply list_elem_of_further].
  specialize (H k (list_elem_of_here _ _)). rewrite Hy in H. cbn in H.
  destruct (ns' !! k) as [y'|]; [|done]. injection H as H. exists y'. by rewrite H.
Qed.

Lemma last_or_app l1 l2 pv : last_or (l1 ++ l2) pv = last_or l2 (last_or l1 pv).
Proof.
  unfold last_or. destruct l2 as [|k l2 _] using rev_ind.
  - by rewrite app_nil_r.
  - by rewrite app_assoc, !last_snoc.
Qed.

Lemma backed_app ns pv l1 l2 :
  backed ns pv (l1 ++ l2) ↔ backed ns pv l1 ∧ backed ns (last_or l1 pv) l2.
Proof.
  revert pv. induction l1 as [|k l1 IH]; intros pv; cbn; [tauto|]. rewrite IH.
  replace (last_or (k :: l1) pv) with (last_or l1 (Some k)); [tauto|].
  change (k :: l1) with ([k] ++ l1). by rewrite last_or_app.
Qed.

(** ** The effect of [remove] on the links *)

Ltac lk :=
  repeat first
    [ rewrite list_lookup_insert_ne by done
    | rewrite list_lookup_insert_eq by (rewrite ?length_insert; eauto using lookup_lt_Some) ].

Ltac mem := cbn; rewrite ?elem_of_cons; auto 6.

Lemma remove_links ns r a b xa xb :
  ns !! a = Some xa → prev xa = Some b → ns !! b = Some xb → a ≠ b →
  (∀ c, next xa = Some c → c ≠ a ∧ c ≠ b ∧ is_Some (ns !! c)) →
  ∃ ns' xa' xb',
    remove a (mk_queue ns r) = Done (tt, mk_queue ns' r) ∧
    same_but (a :: b :: option_list (next xa)) ns ns' ∧
    ns' !! a = Some xa' ∧ desc xa' = desc xa ∧ prev xa' = prev xa ∧
    ns' !! b = Some xb' ∧ prev xb' = prev xb ∧
    (if bool_decide (desc xb = Some a)
     then desc xb' = next xa ∧ next xb' = next xb
     else desc xb' = desc xb ∧ next xb' = next xa) ∧
    (∀ c xc, next xa = Some c → ns !! c = Some xc →
             ns' !! c = Some (set_prev (Some b) xc)).
Proof.
  intros Ha Hp Hb Hab Hc. unfold remove.
  rewrite (run_load _ _ _ _ _ Ha). cbn zeta. rewrite Hp. cbn [deref]. rewrite run_ret.
  rewrite (run_load _ _ _ _ _ Hb).
  set (xb' := if bool_decide (desc xb = Some a)
              then set_desc (next xa) xb else set_next (next xa) xb).
  assert (∀ A (f : unit → M (pairing_queue X) A),
            bind (if bool_decide (desc xb = Some a)
                  then modify b (set_desc (next xa))
                  else modify b (set_next (next xa))) f (mk_queue ns r)
            = f tt (mk_queue (<[b := xb']> ns) r)) as Hstep.
  { intros A f. unfold xb'. destruct (bool_decide (desc xb = Some a));
      by rewrite (run_modify _ _ _ _ _ _ Hb). }
  rewrite Hstep.
  assert (data xb' = data xb) as Hdb.
  { unfold xb'. by destruct (bool_decide (desc xb = Some a)). }
  assert (prev xb' = prev xb) as Hpb.
  { unfold xb'. by destruct (bool_decide (desc xb = Some a)). }
  assert (if bool_decide (desc xb = Some a)
          then desc xb' = next xa ∧ next xb' = next xb
          else desc xb' = desc xb ∧ next xb' = next xa) as Hsel.
  { unfold xb'. by destruct (bool_decide (desc xb = Some a)). }
  clearbody xb'. destruct (next xa) as [c|] eqn:Hn.
  - destruct (Hc c eq_refl) as (Hca & Hcb & xc & Hxc).
    erewrite run_modify by (lk; exact Hxc).
    erewrite run_modify_last by (lk; exact Ha).
    eexists _, (set_next None xa), xb'. split; [done|]. split_and!; try done.
    + eapply same_but_trans; [|eapply same_but_trans];
        eapply same_but_insert; lk; try done; mem.
    + by lk.
    + by lk.
    + intros ? xc' [= <-] Hxc'. lk. congruence.
  - exists (<[b := xb']> ns), xa, xb'. split; [done|]. split_and!; try done.
    + eapply same_but_insert; [done|done|mem].
    + by lk.
    + by lk.
Qed.

Lemma last_or_cases ks k :
  (ks = [] ∧ last_or ks (Some k) = Some k) ∨
  (∃ ks' b, ks = ks' ++ [b] ∧ last_or ks (Some k) = Some b).
Proof.
  destruct ks as [|b ks _] using rev_ind; [by left|]. right. exists ks, b.
  split; [done|]. unfold last_or. by rewrite last_snoc.
Qed.

Lemma Forall_rep_roots ns ns' ts :
  Forall (rep ns) ts →
  (∀ i, i ∈ top <$> ts → desc <$> ns' !! i = desc <$> ns !! i) →
  (∀ i, i ∈ flat_map below ts → ns' !! i = ns !! i) →
  Forall (rep ns') ts.
Proof.
  intros Hr Hd Hb. rewrite Forall_forall in Hr |- *. intros t Ht.
  eapply rep_ext; [| |by apply Hr].
  - apply Hd. by apply list_elem_of_fmap_2.
  - intros i Hi. apply Hb. by eapply below_in_forest.
Qed.

Lemma head_fmap_app_cons (cs1 cs2 : list tree) (c c' : tree) :
  top c' = top c → top <$> (cs1 ++ c' :: cs2) = top <$> (cs1 ++ c :: cs2).
Proof. intros H. by rewrite !fmap_app, !fmap_cons, H. Qed.

(** [remove(a)] on a child [a] of the root of a tree. *)
Lemma remove_here ns rt k cs1 ta cs2 :
  rep ns (T k (cs1 ++ ta :: cs2)) →
  NoDup (keys (T k (cs1 ++ ta :: cs2))) →
  ∃ ns', remove (top ta) (mk_queue ns rt) = Done (tt, mk_queue ns' rt) ∧
    same_but (keys (T k (cs1 ++ ta :: cs2))) ns ns' ∧
    rep ns' ta ∧ rep ns' (T k (cs1 ++ cs2)) ∧
    next <$> ns' !! k = next <$> ns !! k ∧
    prev <$> ns' !! k = prev <$> ns !! k ∧
    (∃ xa b, ns !! top ta = Some xa ∧ prev xa = Some b ∧ b ≠ top ta).
Proof.
  intros Hrep Hnd. set (a := top ta).
  inversion Hrep as [? ? xk Hxk Hdk Hl Hb Hcs]; subst.
  set (F := cs1 ++ ta :: cs2) in *.
  cbn [keys] in Hnd. apply NoDup_cons in Hnd as [Hk HndF].
  pose proof (forest_roots_NoDup _ HndF) as Hroots.
  pose proof (forest_roots_not_below F) as Hnb. specialize (λ i, Hnb i HndF).
  assert (∀ i, i ∈ top <$> F → i ≠ k) as Hrk.
  { intros i Hi ->. by apply Hk, roots_in_forest. }
  assert (∀ i, i ∈ flat_map below F → i ≠ k) as Hbk.
  { intros i Hi ->. by apply Hk, below_in_keys. }
  unfold F in Hdk, Hl, Hb, Hroots. rewrite fmap_app, fmap_cons in Hdk, Hl, Hb, Hroots.
  fold a in Hdk, Hl, Hb, Hroots.
  set (ks1 := top <$> cs1) in *. set (ks2 := top <$> cs2) in *.
  assert (top <$> F = ks1 ++ a :: ks2) as HF by (unfold F; by rewrite fmap_app, fmap_cons).
  apply linked_chain, chain_app in Hl as [Hl1 Hl2]. cbn in Hl1, Hl2.
  destruct Hl2 as [(xa & Hxa & Hnxa) Hl2].
  apply backed_app in Hb as [Hb1 Hb2]. cbn in Hb2.
  destruct Hb2 as [(xa' & Hxa' & Hpxa) Hb2]. rewrite Hxa in Hxa'. injection Hxa' as <-.
  apply NoDup_app in Hroots as (Hn1 & Hd1 & Hn2).
  apply NoDup_cons in Hn2 as [Ha2 Hn2].
  assert (a ∉ ks1) as Ha1. { intros H. apply (Hd1 a H), list_elem_of_here. }
  assert (∀ i, i ∈ ks2 → i ∉ ks1) as Hd12.
  { intros i Hi H. apply (Hd1 i H). by apply list_elem_of_further. }
  assert (a ≠ k) as Hak. { apply Hrk. rewrite HF. apply elem_of_app. right. apply list_elem_of_here. }
  (* the node before [a] *)
  assert (∃ b xb, prev xa = Some b ∧ ns !! b = Some xb ∧ a ≠ b ∧
            (b = k ∨ b ∈ ks1) ∧
            (bool_decide (desc xb = Some a) = bool_decide (ks1 = [])) ∧
            (ks1 = [] → b = k) ∧ (ks1 ≠ [] → b ∈ ks1 ∧ ∃ ks1', ks1 = ks1' ++ [b])) as
    (b & xb & Hpb & Hxb & Hab & Hbin & Hbd & Hb0 & Hb1').
  { destruct (last_or_cases ks1 k) as [[E1 E2]|(ks1' & b & E1 & E2)].
    - exists k, xk. rewrite Hpxa, E2. split_and!.
      + done.
      + done.
      + done.
      + by left.
      + rewrite E1 in Hdk. cbn in Hdk. rewrite Hdk.
        by rewrite !bool_decide_eq_true_2.
      + done.
      + done.
    - assert (b ∈ ks1) as Hbin by (rewrite E1; apply elem_of_app; right; apply list_elem_of_here).
      assert (b ∈ top <$> cs1) as Hbin' by done.
      apply list_elem_of_fmap in Hbin' as (p & -> & Hp).
      assert (rep ns p) as Hrp.
      { rewrite Forall_forall in Hcs. apply Hcs. unfold F. apply elem_of_app. by left. }
      inversion Hrp as [kp csp xp Hxp Hdp _ _ _]; subst. cbn [top] in *.
      exists kp, xp. rewrite Hpxa, E2. split_and!.
      + done.
      + done.
      + by intros <-.
      + by right.
      + rewrite bool_decide_eq_false_2, bool_decide_eq_false_2; [done| |].
        * rewrite E1. by destruct ks1'.
        * rewrite Hdp. intros Hh. destruct csp as [|c0 csp]; [done|].
          cbn in Hh. injection Hh as Hh.
          apply (Hnb a); [rewrite HF; apply elem_of_app; right; apply list_elem_of_here|].
          eapply (below_in_forest (T kp (c0 :: csp)));
            [unfold F; apply elem_of_app; by left|].
          cbn. apply elem_of_app. left. rewrite <- Hh. apply key_in_keys.
      + intros Hne. rewrite E1 in Hne. by destruct ks1'.
      + intros _. split; [done|]. by exists ks1'. }
  assert (∀ c, next xa = Some c → c ∈ ks2 ∧ hd_or ks2 None = Some c) as Hcin.
  { intros c Hc. rewrite Hnxa in Hc. destruct ks2 as [|c0 ks2']; [done|].
    cbn in Hc. injection Hc as <-. split; [apply list_elem_of_here|done]. }
  assert (∀ i, i ∈ ks2 → i ≠ b) as Hk2b.
  { intros i Hi ->. destruct Hbin as [->|Hbin].
    - apply (Hrk k); [|done]. rewrite HF. apply elem_of_app. right. by apply list_elem_of_further.
    - by apply (Hd12 b). }
  destruct (remove_links ns rt a b xa xb Hxa Hpb Hxb Hab)
    as (ns' & xa' & xb' & Hrun & Hsb & Hxa' & Hda' & Hpa' & Hxb' & Hpb' & Hsel & Hc').
  { intros c Hc. destruct (Hcin c Hc) as [Hc2 _]. split_and!.
    - by intros ->.
    - by apply Hk2b.
    - apply linked_chain in Hl2. by eapply linked_is_Some. }
  rewrite Hbd in Hsel.
  assert (∀ i, i ≠ a → i ≠ b → Some i ≠ next xa → ns' !! i = ns !! i) as Hsame.
  { intros i H1 H2 H3. destruct Hsb as (_ & Hout & _). apply Hout.
    cbn. rewrite !elem_of_cons. intros [->|[->|Hi]]; [done..|].
    destruct (next xa) as [c|]; cbn in Hi; [|by apply elem_of_nil in Hi].
    apply list_elem_of_singleton in Hi as ->. done. }
  assert (∀ i, i ∈ flat_map below F → ns' !! i = ns !! i) as Hbelow.
  { intros i Hi. apply Hsame.
    - intros ->. apply (Hnb a); [|done]. rewrite HF. apply elem_of_app. right. apply list_elem_of_here.
    - intros ->. destruct Hbin as [->|Hbin]; [by apply (Hbk k)|].
      apply (Hnb b); [|done]. rewrite HF. apply elem_of_app. by left.
    - intros Hc. symmetry in Hc. destruct (Hcin i Hc) as [Hc2 _].
      apply (Hnb i); [|done]. rewrite HF. apply elem_of_app. right. by apply list_elem_of_further. }
  assert (∀ i, i ≠ a → i ≠ b → next <$> ns' !! i = next <$> ns !! i) as Hnext.
  { intros i H1 H2. destruct (decide (Some i = next xa)) as [Hc|Hc]; [|by rewrite Hsame].
    symmetry in Hc. destruct (Hcin i Hc) as [Hc2 _].
    apply linked_chain in Hl2. destruct (linked_is_Some _ _ _ _ Hl2 Hc2) as [xc Hxc].
    by rewrite (Hc' i xc Hc Hxc), Hxc. }
  assert (∀ i, Some i ≠ next xa → prev <$> ns' !! i = prev <$> ns !! i) as Hprev.
  { intros i H3. destruct (decide (i = a)) as [->|H1]; [by rewrite Hxa', Hxa; cbn; rewrite Hpa'|].
    destruct (decide (i = b)) as [->|H2]; [by rewrite Hxb', Hxb; cbn; rewrite Hpb'|].
    by rewrite Hsame. }
  assert (∀ i, i ≠ b ∨ ks1 ≠ [] → desc <$> ns' !! i = desc <$> ns !! i) as Hdesc.
  { intros i Hi. destruct (decide (i = b)) as [->|H2].
    - destruct Hi as [?|Hi]; [done|]. rewrite bool_decide_eq_false_2 in Hsel by done.
      rewrite Hxb', Hxb. cbn. by destruct Hsel as [-> _].
    - destruct (decide (i = a)) as [->|H1]; [by rewrite Hxa', Hxa; cbn; rewrite Hda'|].
      destruct (decide (Some i = next xa)) as [Hc|Hc]; [|by rewrite Hsame].
      symmetry in Hc. destruct (Hcin i Hc) as [Hc2 _].
      apply linked_chain in Hl2. destruct (linked_is_Some _ _ _ _ Hl2 Hc2) as [xc Hxc].
      by rewrite (Hc' i xc Hc Hxc), Hxc. }
  exists ns'. split; [exact Hrun|]. split_and!.
  - eapply same_but_mono; [|exact Hsb]. intros i. cbn [keys]. rewrite !elem_of_cons.
    intros [->|[->|Hi]].
    + right. apply roots_in_forest. rewrite HF. apply elem_of_app. right. apply list_elem_of_here.
    + destruct Hbin as [->|Hbin]; [by left|]. right. apply roots_in_forest.
      rewrite HF. apply elem_of_app. by left.
    + right. destruct (next xa) as [c|] eqn:Hc; cbn in Hi; [|by apply elem_of_nil in Hi].
      apply list_elem_of_singleton in Hi as ->. destruct (Hcin c eq_refl) as [Hc2 _].
      apply roots_in_forest. rewrite HF. apply elem_of_app. right. by apply list_elem_of_further.
  - apply Forall_app in Hcs as [_ Hcs]. apply Forall_cons in Hcs as [Hta _].
    eapply rep_ext; [| |exact Hta].
    + change (top ta) with a. by rewrite Hxa', Hxa; cbn; rewrite Hda'.
    + intros i Hi. apply Hbelow. eapply (below_in_forest ta); [|done].
      unfold F. apply elem_of_app. right. apply list_elem_of_here.
  - assert (last_or ks1 (Some k) = Some b) as Hlast by by rewrite <- Hpxa.
    assert (∃ xk', ns' !! k = Some xk' ∧ desc xk' = head (top <$> (cs1 ++ cs2)))
      as (xk' & Hxk' & Hdk').
    { rewrite fmap_app. fold ks1 ks2. destruct (decide (ks1 = [])) as [E|E].
      - rewrite (Hb0 E) in Hxb, Hxb'. rewrite bool_decide_eq_true_2 in Hsel by done.
        exists xb'. split; [done|]. destruct Hsel as [-> _]. rewrite Hnxa, E. cbn.
        by destruct ks2.
      - exists xk. split.
        + rewrite Hsame; [done|by apply not_eq_sym| |].
          * intros Hkb. destruct (Hb1' E) as [Hbin' _].
            apply (Hrk b); [|done]. rewrite HF. apply elem_of_app. by left.
          * intros Hc. symmetry in Hc. destruct (Hcin k Hc) as [Hc2 _].
            apply (Hrk k); [|done]. rewrite HF. apply elem_of_app. right.
            by apply list_elem_of_further.
        + rewrite Hdk. by destruct ks1. }
    econstructor; [exact Hxk'|exact Hdk'|..].
    + rewrite fmap_app. fold ks1 ks2. apply linked_chain, chain_app. split.
      * destruct (decide (ks1 = [])) as [E|E]; [by rewrite E|].
        destruct (Hb1' E) as [_ (ks1' & E1)]. rewrite E1 in Hl1, Hn1, Ha1 |- *.
        apply chain_app in Hl1 as [Hl1 Hl1b]. apply chain_app. split.
        -- eapply chain_ext; [|exact Hl1]. intros i Hi. apply Hnext.
           ++ intros ->. apply Ha1, elem_of_app. by left.
           ++ intros ->. apply NoDup_app in Hn1 as (_ & Hd & _).
              apply (Hd b Hi), list_elem_of_here.
        -- cbn. split; [|done]. exists xb'. split; [done|].
           rewrite bool_decide_eq_false_2 in Hsel by done. destruct Hsel as [_ ->].
           by rewrite Hnxa.
      * eapply chain_ext; [|exact Hl2]. intros i Hi. apply Hnext.
        -- by intros ->.
        -- by apply Hk2b.
    + rewrite fmap_app. fold ks1 ks2. apply backed_app. split.
      * eapply backed_ext; [|exact Hb1]. intros i Hi. apply Hprev.
        intros Hc. symmetry in Hc. destruct (Hcin i Hc) as [Hc2 _]. by apply (Hd12 i).
      * rewrite Hlast. destruct ks2 as [|c ks2']; [done|]. cbn in Hb2 |- *.
        destruct Hb2 as [(xc & Hxc & _) Hb2]. cbn in Hnxa. split.
        -- exists (set_prev (Some b) xc). split; [by apply Hc'|done].
        -- eapply backed_ext; [|exact Hb2]. intros i Hi. apply Hprev.
           rewrite Hnxa. intros [= ->]. by apply NoDup_cons in Hn2 as [? _].
    + assert (Forall (rep ns) (cs1 ++ cs2)) as Hcs'.
      { apply Forall_app in Hcs as [? Hcs]. apply Forall_cons in Hcs as [_ ?].
        apply Forall_app. by split. }
      eapply Forall_rep_roots; [exact Hcs'| |].
      * intros i Hi. apply Hdesc. destruct (decide (ks1 = [])) as [E|E]; [left|by right].
        rewrite (Hb0 E). apply Hrk. rewrite HF. rewrite fmap_app in Hi.
        apply elem_of_app in Hi as [Hi|Hi]; apply elem_of_app; [by left|right].
        by apply list_elem_of_further.
      * intros i Hi. apply Hbelow. unfold F. rewrite flat_map_app in Hi |- *.
        apply elem_of_app in Hi as [Hi|Hi]; apply elem_of_app; [by left|right].
        cbn. apply elem_of_app. by right.
  - destruct (decide (ks1 = [])) as [E|E].
    + rewrite (Hb0 E) in Hxb, Hxb'. rewrite bool_decide_eq_true_2 in Hsel by done.
      rewrite Hxb', Hxb. cbn. by destruct Hsel as [_ ->].
    + apply Hnext; [by apply not_eq_sym|]. intros Hkb. destruct (Hb1' E) as [Hbin' _].
      apply (Hrk b); [|done]. rewrite HF. apply elem_of_app. by left.
  - apply Hprev. intros Hc. symmetry in Hc. destruct (Hcin k Hc) as [Hc2 _].
    apply (Hrk k); [|done]. rewrite HF. apply elem_of_app. right.
    by apply list_elem_of_further.
  - exists xa, b. split_and!; [done|done|by apply not_eq_sym].
Qed.

(** [remove(a)] on a node below the root of a tree cuts the subtree at [a]
    out of the tree. *)
Lemma remove_spec ns rt a t ta t' :
  cut a t ta t' → rep ns t → NoDup (keys t) →
  ∃ ns', remove a (mk_queue ns rt) = Done (tt, mk_queue ns' rt) ∧
    same_but (keys t) ns ns' ∧
    rep ns' ta ∧ rep ns' t' ∧
    next <$> ns' !! top t = next <$> ns !! top t ∧
    prev <$> ns' !! top t = prev <$> ns !! top t ∧
    (∃ xa b, ns !! a = Some xa ∧ prev xa = Some b ∧ b ≠ a).
Proof.
  induction 1 as [k cs1 ta cs2 <-|k cs1 c ta c' cs2 Hcut IH]; intros Hrep Hnd.
  { by apply remove_here. }
  inversion Hrep as [? ? xk Hxk Hdk Hl Hb Hcs]; subst.
  cbn [keys] in Hnd. apply NoDup_cons in Hnd as [Hk HndF].
  rewrite flat_map_app in Hk, HndF. cbn [flat_map] in Hk, HndF.
  assert (NoDup (keys c)) as Hndc.
  { apply NoDup_app in HndF as (_ & _ & H). by apply NoDup_app in H as (? & _). }
  assert (rep ns c) as Hrc.
  { apply Forall_app in Hcs as [_ H]. by apply Forall_cons in H as [? _]. }
  destruct (IH Hrc Hndc) as (ns' & Hrun & Hsb & Hrta & Hrc' & Hnx & Hpv & Hpre).
  destruct (cut_top _ _ _ _ Hcut) as [_ Htop].
  assert (∀ i, i ∉ keys c → ns' !! i = ns !! i) as Hout by apply Hsb.
  assert (k ∉ keys c) as Hkc.
  { intros H. apply Hk, elem_of_app. right. apply elem_of_app. by left. }
  assert (∀ i, i ∈ flat_map keys cs1 ++ flat_map keys cs2 → i ∉ keys c) as Hdis.
  { intros i [Hi|Hi]%elem_of_app Hic.
    - apply NoDup_app in HndF as (_ & Hd & _). apply (Hd i Hi), elem_of_app. by left.
    - apply NoDup_app in HndF as (_ & _ & H). apply NoDup_app in H as (_ & Hd & _).
      by apply (Hd i Hic). }
  assert (∀ i, i ∈ top <$> (cs1 ++ c :: cs2) →
               next <$> ns' !! i = next <$> ns !! i ∧ prev <$> ns' !! i = prev <$> ns !! i)
    as Hroots.
  { intros i Hi. rewrite fmap_app, fmap_cons in Hi.
    apply elem_of_app in Hi as [Hi|[->|Hi]%elem_of_cons]; [|done|].
    - rewrite Hout; [done|]. apply Hdis, elem_of_app. left. by apply roots_in_forest.
    - rewrite Hout; [done|]. apply Hdis, elem_of_app. right. by apply roots_in_forest. }
  exists ns'. split; [exact Hrun|]. split_and!.
  - eapply same_but_mono; [|exact Hsb]. intros i Hi. cbn [keys].
    apply list_elem_of_further. rewrite flat_map_app. cbn. apply elem_of_app. right.
    apply elem_of_app. by left.
  - done.
  - econstructor.
    + rewrite Hout by done. exact Hxk.
    + by rewrite (head_fmap_app_cons cs1 cs2 c c' Htop).
    + rewrite (head_fmap_app_cons cs1 cs2 c c' Htop).
      eapply linked_ext; [|exact Hl]. intros i Hi. by apply Hroots.
    + rewrite (head_fmap_app_cons cs1 cs2 c c' Htop).
      eapply backed_ext; [|exact Hb]. intros i Hi. by apply Hroots.
    + apply Forall_app in Hcs as [Hcs1 Hcs2]. apply Forall_cons in Hcs2 as [_ Hcs2].
      apply Forall_app. split; [|constructor; [done|]].
      * eapply Forall_rep_same; [|exact Hcs1]. intros i Hi. apply Hout, Hdis, elem_of_app. by left.
      * eapply Forall_rep_same; [|exact Hcs2]. intros i Hi. apply Hout, Hdis, elem_of_app. by right.
  - cbn [top]. by rewrite Hout.
  - cbn [top]. by rewrite Hout.
  - done.
Qed.

(** ** [decrease] *)

Lemma rep_links ns ns' t :
  (∀ i, i ∈ keys t →
        next <$> ns' !! i = next <$> ns !! i ∧
        desc <$> ns' !! i = desc <$> ns !! i ∧
        prev <$> ns' !! i = prev <$> ns !! i) →
  rep ns t → rep ns' t.
Proof.
  induction t as [k cs IH] using tree_nested_ind. intros H Hr.
  inversion Hr as [? ? x Hx Hdx Hl Hb Hcs]; subst.
  assert (∀ i, i ∈ top <$> cs → i ∈ keys (T k cs)) as Hroots.
  { intros i Hi. cbn. apply list_elem_of_further. by apply roots_in_forest. }
  destruct (H k (key_in_keys (T k cs))) as (_ & Hd & _).
  rewrite Hx in Hd. cbn in Hd. destruct (ns' !! k) as [x'|] eqn:Hx'; [|done].
  injection Hd as Hd. econstructor; [exact Hx'|by rewrite Hd|..].
  - eapply linked_ext; [|exact Hl]. intros i Hi. by apply H, Hroots.
  - eapply backed_ext; [|exact Hb]. intros i Hi. by apply H, Hroots.
  - rewrite Forall_forall in IH, Hcs |- *. intros c Hc. apply IH; [done| |by apply Hcs].
    intros i Hi. apply H. cbn. apply list_elem_of_further. by eapply keys_in_forest.
Qed.

Lemma ordered_lower_root ns ns' t :
  ordered ns t → NoDup (keys t) →
  valof ns' (top t) <= valof ns (top t) →
  (∀ i, i ≠ top t → valof ns' i = valof ns i) →
  ordered ns' t.
Proof.
  destruct t as [a ca]. cbn [top]. intros Ho Hnd Hv Hne.
  inversion Ho as [? ? Hle Hcs]; subst.
  cbn in Hnd. apply NoDup_cons in Hnd as [Ha _]. constructor.
  - rewrite Forall_forall in Hle |- *. intros c Hc. specialize (Hle c Hc).
    unfold node_le in *. rewrite (Hne (top c)); [lia|].
    intros E. apply Ha. rewrite <- E. by apply roots_in_forest, list_elem_of_fmap_2.
  - rewrite Forall_forall in Hcs |- *. intros c Hc. eapply ordered_ext; [|by apply Hcs].
    intros i Hi. apply Hne. intros ->. apply Ha. by eapply keys_in_forest.
Qed.

(** [n->val = v; decrease(n)] on a node of the heap that is not its root,
    with a value that is not greater than the one it has. *)
Lemma decrease_spec live ns t a x v :
  heap_inv live (mk_queue ns (Some (top t))) (Some t) →
  a ∈ below t → ns !! a = Some x → v <= val x →
  ∃ ns' t',
    decrease_value_node a v (mk_queue ns (Some (top t)))
    = Done (tt, mk_queue ns' (Some (top t'))) ∧
    heap_inv live (mk_queue ns' (Some (top t'))) (Some t') ∧
    keys t' ≡ₚ keys t ∧
    length ns' = length ns ∧
    (∀ i, ext <$> ns' !! i = ext <$> ns !! i) ∧
    valof ns' a = v ∧
    (∀ i, i ≠ a → valof ns' i = valof ns i) ∧
    prev x ≠ Some a.
Proof.
  intros (_ & (Hrep & Hord & Hnd) & Hlive & Hdet) Ha Hx Hv. cbn [nodes root okeys from_option] in *.
  destruct (cut_exists a t Ha) as (ta & t' & Hcut).
  destruct (cut_top _ _ _ _ Hcut) as [Htopa Htop'].
  pose proof (cut_keys _ _ _ _ Hcut) as Hkeys.
  destruct (cut_ordered ns _ _ _ _ Hcut Hord) as [Hota Hot'].
  assert (NoDup (keys ta ++ keys t')) as Hnd' by by rewrite Hkeys.
  assert (a ∈ keys t) as Hat by (rewrite keys_below; by apply list_elem_of_further).
  assert (a ∉ keys t') as Hat'.
  { apply NoDup_app in Hnd' as (_ & Hd & _). apply Hd. rewrite <- Htopa. apply key_in_keys. }
  assert (a < length ns)%nat as Hlt by by eapply lookup_lt_Some.
  unfold decrease_value_node. rewrite (run_modify _ _ _ _ _ _ Hx).
  set (ns1 := <[a := set_val v x]> ns).
  assert (ns1 !! a = Some (set_val v x)) as Hx1 by by apply list_lookup_insert_eq.
  assert (∀ i, i ≠ a → ns1 !! i = ns !! i) as Hne1.
  { intros i Hi. by apply list_lookup_insert_ne. }
  assert (valof ns1 a = v) as Hv1 by (unfold valof; by rewrite Hx1).
  assert (valof ns a = val x) as Hv0 by (unfold valof; by rewrite Hx).
  assert (∀ i, i ≠ a → valof ns1 i = valof ns i) as Hvne1.
  { intros i Hi. unfold valof. by rewrite Hne1. }
  assert (∀ i, ext <$> ns1 !! i = ext <$> ns !! i) as Hext1.
  { intros i. destruct (decide (i = a)) as [->|Hi]; [by rewrite Hx1, Hx|by rewrite Hne1]. }
  assert (rep ns1 t) as Hrep1.
  { eapply rep_links; [|exact Hrep]. intros i _.
    destruct (decide (i = a)) as [->|Hi]; [by rewrite Hx1, Hx|by rewrite Hne1]. }
  destruct (remove_spec ns1 (Some (top t)) a t ta t' Hcut Hrep1 Hnd)
    as (ns2 & Hrun2 & Hsb2 & Hrta & Hrt' & _ & _ & (xa & b & Hxa & Hpb & Hba)).
  rewrite Hx1 in Hxa. injection Hxa as <-. cbn in Hpb.
  unfold decrease. rewrite (run_load _ _ _ _ _ Hx1). cbn [prev set_val]. rewrite Hpb.
  rewrite (run_bind _ _ _ _ _ Hrun2). unfold bind at 1. unfold get_root at 1. cbn [root].
  assert (ordered ns2 ta) as Hota2.
  { eapply ordered_same_but; [exact Hsb2|].
    eapply (ordered_lower_root ns); [done| |rewrite Htopa; lia|by rewrite Htopa].
    by apply NoDup_app in Hnd' as (? & _). }
  assert (ordered ns2 t') as Hot'2.
  { eapply ordered_same_but; [exact Hsb2|]. eapply ordered_ext; [|exact Hot'].
    intros i Hi. apply Hvne1. by intros ->. }
  destruct (meld_spec ns2 (Some (top t)) ta t' Hrta Hrt' Hota2 Hot'2 Hnd')
    as (ns3 & t'' & Hrun3 & Hsb3 & Hrt'' & Hot'' & Hperm).
  rewrite Htopa, Htop' in Hrun3.
  cbn [merge_roots]. unfold bind at 1. rewrite (run_bind _ _ _ _ _ Hrun3).
  destruct (rep_lookup _ _ Hrt'') as [x3 Hx3].
  rewrite (run_modify _ _ _ _ _ _ Hx3). unfold ret at 1. cbv beta iota.
  unfold set_root. cbn [nodes].
  set (ns4 := <[top t'' := set_prev None x3]> ns3).
  assert (keys t'' ≡ₚ keys t) as HP by by rewrite Hperm.
  assert (same_but (keys t) ns1 ns4) as Hsb.
  { eapply same_but_trans; [exact Hsb2|]. eapply same_but_trans.
    - eapply same_but_mono; [|exact Hsb3]. intros i. by rewrite Hkeys.
    - eapply same_but_insert; [done|done|]. rewrite <- HP. apply key_in_keys. }
  exists ns4, t''. split; [done|]. split; [|split_and!].
  - unfold heap_inv. cbn [nodes root okeys from_option]. split; [done|].
    split; [split_and!|split].
    + eapply rep_insert_root; [done|by rewrite HP|done|done].
    + eapply (ordered_same_but [top t'']); [|exact Hot''].
      eapply same_but_insert; [done|done|]. apply list_elem_of_here.
    + by rewrite HP.
    + intros i Hi. rewrite HP in Hi. destruct (Hlive i Hi) as (xi & Hxi & Hli).
      assert (∃ xi', ns1 !! i = Some xi' ∧ live (ext xi')) as (xi' & Hxi' & Hli').
      { specialize (Hext1 i). rewrite Hxi in Hext1. destruct (ns1 !! i) as [xi'|]; [|done].
        injection Hext1 as E. exists xi'. by rewrite E. }
      by eapply same_but_live.
    + intros i xi Hxi Hli Hi. rewrite HP in Hi.
      destruct Hsb as (_ & Hout & _). rewrite Hout in Hxi by done.
      rewrite Hne1 in Hxi by (by intros ->).
      by apply (Hdet i xi Hxi Hli).
  - done.
  - destruct Hsb as (-> & _). by apply length_insert.
  - intros i. by rewrite (same_but_ext _ _ _ i Hsb).
  - by rewrite (same_but_valof _ _ _ a Hsb).
  - intros i Hi. rewrite (same_but_valof _ _ _ i Hsb). by apply Hvne1.
  - by intros [= ->].
Qed.

End Cut.

Lemma holding_NoDup {X} (live : X → Prop) (q : pairing_queue X) es :
  holding live q es → NoDup (Z.to_nat <$> es.*1).
Proof.
  intros (t & (_ & Ht & _) & Hk & _). rewrite <- Hk.
  destruct t as [t|]; [by destruct Ht as (_ & _ & ?)|constructor].
Qed.

Lemma holding_decrease {X} (live : X → Prop) (q : pairing_queue X) es es'
    (k w v : Z) :
  holding live q es →
  es ≡ₚ (k, w) :: es' →
  v <= w →
  root q ≠ Some (Z.to_nat k) →
  ∃ q' x,
    nodes q !! Z.to_nat k = Some x ∧ val x = w ∧ prev x ≠ Some (Z.to_nat k) ∧
    0 <= k < Z.of_nat (length (nodes q)) ∧
    decrease_value_node (Z.to_nat k) v q = Done (tt, q') ∧
    holding live q' ((k, v) :: es') ∧
    length (nodes q') = length (nodes q) ∧
    (∀ i, ext <$> nodes q' !! i = ext <$> nodes q !! i) ∧
    valof (nodes q') (Z.to_nat k) = v ∧
    (∀ i, i ≠ Z.to_nat k → valof (nodes q') i = valof (nodes q) i).
Proof.
  intros Hh Hperm Hv Hroot. pose proof (holding_NoDup _ _ _ Hh) as Hnd.
  destruct Hh as (t & Hq & Hk & Hes).
  rewrite Hperm in Hk, Hes, Hnd. cbn in Hk, Hnd.
  apply Forall_cons in Hes as [[Hk0 Hkv] Hes']. cbn in Hk0, Hkv.
  apply NoDup_cons in Hnd as [Hkn Hnd'].
  assert (Z.to_nat k ∈ okeys t) as Hin by (rewrite Hk; apply list_elem_of_here).
  destruct t as [t|]; [|by apply elem_of_nil in Hin].
  pose proof Hq as (Hr & _ & Hlive & _). cbn in Hr.
  destruct (Hlive _ Hin) as (x & Hx & _).
  destruct q as [ns rt]. cbn [nodes root] in *. subst rt.
  assert (Z.to_nat k ∈ below t) as Hb.
  { cbn in Hin. rewrite keys_below in Hin. apply elem_of_cons in Hin as [E|?]; [|done].
    exfalso. apply Hroot. by rewrite E. }
  assert (val x = w) as Hw by (unfold valof in Hkv; by rewrite Hx in Hkv).
  destruct (decrease_spec live ns t (Z.to_nat k) x v Hq Hb Hx)
    as (ns' & t' & Hrun & Hq' & Hperm' & Hlen & Hext & Hv' & Hvne & Hp); [lia|].
  exists (mk_queue ns' (Some (top t'))), x. split_and!; try done.
  - apply lookup_lt_Some in Hx. lia.
  - exists (Some t'). split; [done|]. split.
    + cbn. by rewrite Hperm'.
    + constructor; [done|]. rewrite Forall_forall in Hes' |- *. intros e He.
      destruct (Hes' e He) as [He0 Hev]. split; [done|]. cbn [nodes].
      rewrite Hvne; [done|]. intros E. apply Hkn. rewrite <- E.
      by apply list_elem_of_fmap_2, list_elem_of_fmap_2.
Qed.

Lemma holds_decrease {X} (q : pairing_queue X) (es es' : list entry) (k w v : Z) :
  holds q es →
  es ≡ₚ (k, w) :: es' →
  v < w →
  min_key q ≠ Done (k, q) →
  ∃ q',
    decrease_value k v q = Done (tt, q') ∧
    check_decrease_value k v q = Done (true, q') ∧
    set_value k v q = Done (tt, q') ∧
    holds q' ((k, v) :: es') ∧
    length (nodes q') = length (nodes q) ∧
    value k q' = Done (v, q') ∧
    (∀ j u, j ≠ k → value j q = Done (u, q) → value j q' = Done (u, q')).
Proof.
  intros Hh Hperm Hv Hmin.
  assert (0 <= k) as Hk0.
  { destruct Hh as (_ & _ & _ & Hes). rewrite Hperm in Hes.
    by apply Forall_cons in Hes as [[? _] _]. }
  destruct (holding_decrease _ q es es' k w v Hh Hperm) as
    (q' & x & Hx & Hw & Hp & Hk & Hrun & Hh' & Hlen & _ & Hv' & Hvne); [lia| |].
  { intros Hr. apply Hmin. unfold min_key, bind, get_root, deref, ret. rewrite Hr.
    unfold key. by rewrite Z2Nat.id. }
  exists q'. split_and!; try done.
  - unfold decrease_value. unfold bind at 1. by rewrite node_at_Done.
  - unfold check_decrease_value. unfold bind at 1. rewrite node_at_Done by done.
    unfold check_decrease_value_node. unfold bind at 1. unfold load at 1. rewrite Hx.
    rewrite bool_decide_eq_true_2 by lia.
    unfold decrease_value_node in Hrun. apply bind_Done in Hrun as ([] & q1 & H1 & H2).
    unfold bind. by rewrite H1, H2.
  - unfold set_value. unfold bind at 1. rewrite node_at_Done by done.
    unfold set_value_node. unfold bind at 1. unfold load at 1. rewrite Hx.
    rewrite bool_decide_eq_false_2 by done. rewrite bool_decide_eq_true_2 by lia.
    exact Hrun.
  - rewrite value_valof by lia. by rewrite Hv'.
  - intros j u Hj Hval. apply (value_preserved q); [done| |done].
    apply value_inv in Hval as (Hjr & _). apply Hvne. lia.
Qed.

(** X10 (part_000, [decrease_value], [check_decrease_value],
    [set_value], [decrease], [remove]): on a queue that holds the entry
    [(k, w)] and more, where [k] is not the key that [min_key] reports,
    lowering the value of [k] to [v < w] through [decrease_value(k, v)],
    [check_decrease_value(k, v)] (which returns true) or [set_value(k, v)]
    gives the same queue, which holds [(k, v)] in place of [(k, w)]; every
    other key keeps its value. *)
Theorem decrease_value_lowers {X} (q : pairing_queue X) (es es' : list entry)
    (k w v : Z) :
  holds q es →
  es ≡ₚ (k, w) :: es' →
  v < w →
  min_key q ≠ Done (k, q) →
  ∃ q',
    decrease_value k v q = Done (tt, q') ∧
    check_decrease_value k v q = Done (true, q') ∧
    set_value k v q = Done (tt, q') ∧
    holds q' ((k, v) :: es') ∧
    length (nodes q') = length (nodes q) ∧
    value k q' = Done (v, q') ∧
    (∀ j u, j ≠ k → value j q = Done (u, q) → value j q' = Done (u, q')).
Proof. apply holds_decrease. Qed.

(** The queue of two nodes after [reset_fill(7)], [set_value(0, 5)] and
    [set_value(1, 7)]. *)
Definition two_in_heap : pairing_queue unit :=
  mk_queue [mk_node 5 None (Some 1%nat) None tt; mk_node 7 None None (Some 0%nat) tt]
    (Some 0%nat).

Lemma two_in_heap_holds : holds two_in_heap [(1, 7); (0, 5)].
Proof.
  exists (Some (T 0 [T 1 []])). split; [|split].
  - split; [done|]. split; [split_and!|split].
    + econstructor; [done|done| | |].
      * cbn. split; [|done]. by eexists.
      * cbn. split; [|done]. by eexists.
      * constructor; [|done]. by econstructor.
    + constructor.
      * constructor; [|done]. left. cbn. lia.
      * constructor; [|done]. by constructor.
    + cbn. repeat constructor; rewrite ?elem_of_cons, ?elem_of_nil; lia.
    + cbn. intros i [->|[->|?%elem_of_nil]%elem_of_cons]%elem_of_cons; [by eexists..|done].
    + intros [|[|i]] x Hx _ Hi; cbn in Hx; [| |done].
      * exfalso. apply Hi. cbn. apply list_elem_of_here.
      * exfalso. apply Hi. cbn. apply list_elem_of_further, list_elem_of_here.
  - cbn. apply perm_swap.
  - repeat constructor; cbn; lia.
Qed.

Lemma decrease_value_lowers_witness :
  ∃ q',
    decrease_value 1 3 two_in_heap = Done (tt, q') ∧
    check_decrease_value 1 3 two_in_heap = Done (true, q') ∧
    set_value 1 3 two_in_heap = Done (tt, q') ∧
    holds q' [(1, 3); (0, 5)] ∧
    length (nodes q') = 2%nat ∧
    value 1 q' = Done (3, q') ∧
    (∀ j u, j ≠ 1 → value j two_in_heap = Done (u, two_in_heap) →
            value j q' = Done (u, q')).
Proof.
  apply (decrease_value_lowers two_in_heap [(1, 7); (0, 5)] [(0, 5)] 1 7 3).
  - apply two_in_heap_holds.
  - done.
  - lia.
  - discriminate.
Defined.

(** * The queue with the constant-time reset *)

(** The heap of [s] holds the entries [es]; the live nodes are those whose
    [time] is [now]. *)
Definition fast_holds (s : pairing_queue_fast_reset) (es : list entry) : Prop :=
  holding (λ τ, τ = now s) (super s) es.

Lemma lift_bind {A B} (m : M (pairing_queue Z) A) (f : A → M (pairing_queue Z) B)
    (s : pairing_queue_fast_reset) :
  lift (bind m f) s = bind (lift m) (λ a, lift (f a)) s.
Proof.
  unfold lift, bind. destruct (m (super s)) as [[a q]| |]; done.
Qed.

(** [current(n)] on a stale node: the node is detached and stamped. *)
Lemma current_stale_run (s : pairing_queue_fast_reset) (n : nat) (x : time_node) :
  nodes (super s) !! n = Some x →
  time x ≠ now s →
  FastReset.current n s
  = Done (false, mk_fast (mk_queue (<[n := mk_node (val x) None None (Some n) (now s)]>
                                      (nodes (super s))) (root (super s))) (now s)).
Proof.
  intros Hx Ht. destruct s as [[ns rt] t]. cbn [super nodes root now] in *.
  assert (n < length ns)%nat as Hn by by eapply lookup_lt_Some.
  unfold FastReset.current. unfold bind at 1.
  rewrite (lift_eq (load n) (mk_fast (mk_queue ns rt) t) x (mk_queue ns rt)
             (load_eq (mk_queue ns rt) n x Hx)). cbn [super now].
  unfold bind at 1, get_now at 1. cbn [now].
  rewrite bool_decide_eq_true_2 by done.
  unfold FastReset.reset_node, bind, get_now, lift. cbn [super now].
  pose proof (run_reset_node ns rt n x (λ _, ret tt) Hx) as H.
  unfold bind, ret in H. destruct (reset_node n (mk_queue ns rt)) as [[[] q1]| |]; [|done..].
  injection H as ->. cbn [now super]. unfold modify. cbn [nodes root].
  rewrite list_lookup_insert_eq by done. by rewrite list_insert_insert_eq.
Qed.

(** A stale node that is detached and stamped is a live node that is not in
    the heap: the queue holds what it held. *)
Lemma holding_revive (live : Z → Prop) (q : pairing_queue Z) es (n : nat)
    (x : node Z) (τ : Z) :
  holding live q es →
  nodes q !! n = Some x → ¬ live (ext x) →
  holding live (mk_queue (<[n := mk_node (val x) None None (Some n) τ]> (nodes q)) (root q)) es
  ∧ Z.of_nat n ∉ es.*1.
Proof.
  intros (t & (Hroot & Ht & Hlive & Hdet) & Hk & Hes) Hx Hl.
  assert (n ∉ okeys t) as Hn.
  { intros Hin. destruct (Hlive n Hin) as (x' & Hx' & Hl'). rewrite Hx in Hx'.
    by injection Hx' as <-. }
  assert (n < length (nodes q))%nat as Hlt by by eapply lookup_lt_Some.
  set (ns' := <[n := _]> (nodes q)).
  assert (∀ i, i ≠ n → ns' !! i = nodes q !! i) as Hne.
  { intros i Hi. unfold ns'. by rewrite list_lookup_insert_ne. }
  split.
  - exists t. split; [|split; [done|]].
    + split; [done|]. cbn [nodes root]. split; [|split].
      * destruct t as [t|]; [|done]. destruct Ht as (Hr & Ho & Hnd). split_and!; [| |done].
        -- eapply rep_same; [|exact Hr]. intros i Hi. apply Hne. by intros ->.
        -- eapply ordered_ext; [|exact Ho]. intros i Hi. unfold valof.
           rewrite Hne; [done|]. by intros ->.
      * intros i Hi. rewrite Hne by (by intros ->). by apply Hlive.
      * intros i xi Hxi Hli Hi. destruct (decide (i = n)) as [->|Hin].
        -- unfold ns' in Hxi. rewrite list_lookup_insert_eq in Hxi by done.
           by injection Hxi as <-.
        -- rewrite Hne in Hxi by done. by apply Hdet.
    + rewrite Forall_forall in Hes |- *. intros e He. destruct (Hes e He) as [He0 Hev].
      split; [done|]. cbn [nodes]. unfold valof. rewrite Hne; [done|].
      intros E. apply Hn. rewrite Hk, <- E. by apply list_elem_of_fmap_2, list_elem_of_fmap_2.
  - intros Hin. apply Hn. rewrite Hk. apply list_elem_of_fmap in Hin as (e & He1 & He).
    apply list_elem_of_fmap. exists e.1. split; [lia|]. by apply list_elem_of_fmap_2.
Qed.

(** What [get_value] returns for the node [i]. *)
Definition fast_value (max_P : Z) (s : pairing_queue_fast_reset) (i : nat) : Z :=
  from_option (λ x : node Z, if bool_decide (ext x = now s) then val x else max_P) 0
    (nodes (super s) !! i).

Lemma get_value_run (max_P : Z) (s : pairing_queue_fast_reset) (k : Z) :
  0 <= k < Z.of_nat (length (nodes (super s))) →
  FastReset.get_value max_P k s = Done (fast_value max_P s (Z.to_nat k), s).
Proof.
  intros Hk. destruct s as [q t]. cbn [super] in Hk.
  destruct (lookup_lt_is_Some_2 (nodes q) (Z.to_nat k)) as [x Hx]; [lia|].
  unfold FastReset.get_value. unfold bind at 1.
  rewrite (lift_eq (node_at k) (mk_fast q t) _ q (node_at_Done q k Hk)). cbn [now].
  unfold bind at 1.
  rewrite (lift_eq (load (Z.to_nat k)) (mk_fast q t) x q (load_eq q _ x Hx)). cbn [now].
  unfold bind, get_now, fast_value, time. cbn [now super]. rewrite Hx. cbn.
  by destruct (bool_decide (ext x = t)).
Qed.

Lemma get_value_inv (max_P : Z) (s s' : pairing_queue_fast_reset) (k u : Z) :
  FastReset.get_value max_P k s = Done (u, s') →
  0 <= k < Z.of_nat (length (nodes (super s))) ∧
  u = fast_value max_P s (Z.to_nat k) ∧ s' = s.
Proof.
  intros H. assert (0 <= k < Z.of_nat (length (nodes (super s)))) as Hk.
  { unfold FastReset.get_value in H. apply bind_Done in H as (n & s1 & H1 & _).
    apply lift_Done in H1 as (q' & H1 & _). by apply node_at_inv in H1 as (? & _). }
  split; [done|]. rewrite get_value_run in H by done. by injection H as <- <-.
Qed.

Lemma fast_value_same (max_P : Z) (s s' : pairing_queue_fast_reset) (i : nat) :
  now s' = now s →
  length (nodes (super s')) = length (nodes (super s)) →
  ext <$> nodes (super s') !! i = ext <$> nodes (super s) !! i →
  valof (nodes (super s')) i = valof (nodes (super s)) i →
  fast_value max_P s' i = fast_value max_P s i.
Proof.
  intros Hnow Hlen Hext Hval. unfold fast_value, valof, time in *. rewrite Hnow.
  destruct (nodes (super s') !! i) as [x'|], (nodes (super s) !! i) as [x|];
    cbn in *; try done.
  injection Hext as ->. by rewrite Hval.
Qed.

Lemma lift_insert_node (n : nat) (v : Z) (s : pairing_queue_fast_reset) :
  (lift (modify n (set_val v)) >>
   do r <- lift get_root;
   do r <- lift (merge_roots n r);
   lift (set_root (Some r))) s
  = lift (insert_node n v) s.
Proof.
  unfold insert_node, lift, bind.
  destruct (modify n (set_val v) (super s)) as [[[] q1]| |]; [|done..].
  cbn [super now]. unfold get_root at 1 2. cbn [super now].
  destruct (merge_roots n (root q1) q1) as [[r q2]| |]; done.
Qed.

(** [set_value] of the derived class on a key that is not in the heap,
    stale or not. *)
Lemma fast_holds_set_value (max_P : Z) (s : pairing_queue_fast_reset)
    (es : list entry) (k v : Z) :
  fast_holds s es →
  0 <= k < Z.of_nat (length (nodes (super s))) →
  k ∉ es.*1 →
  ∃ s', FastReset.set_value k v s = Done (tt, s') ∧
    fast_holds s' ((k, v) :: es) ∧
    now s' = now s ∧
    length (nodes (super s')) = length (nodes (super s)) ∧
    FastReset.get_value max_P k s' = Done (v, s') ∧
    (∀ j u, j ≠ k → FastReset.get_value max_P j s = Done (u, s) →
            FastReset.get_value max_P j s' = Done (u, s')).
Proof.
  intros Hh Hk Hn. destruct s as [q t]. unfold fast_holds in *. cbn [super now] in *.
  destruct (lookup_lt_is_Some_2 (nodes q) (Z.to_nat k)) as [x Hx]; [lia|].
  set (n := Z.to_nat k) in *.
  assert (Z.of_nat n ∉ es.*1) as Hn' by (unfold n; by rewrite Z2Nat.id by lia).
  assert (∀ r, (do c <- FastReset.current n;
                 if c then lift (set_value_node n v)
                 else lift (modify n (set_val v)) >>
                      do r <- lift get_root;
                      do r <- lift (merge_roots n r);
                      lift (set_root (Some r))) (mk_fast q t) = r →
               FastReset.set_value k v (mk_fast q t) = r) as Hsv.
  { intros r <-. unfold FastReset.set_value. unfold bind at 1.
    by rewrite (lift_eq (node_at k) (mk_fast q t) _ q (node_at_Done q k Hk)). }
  (* the node is live, or it is revived: in both cases it is then inserted *)
  assert (∃ q1 x1,
            nodes q1 !! n = Some x1 ∧ ext x1 = t ∧
            holding (λ τ, τ = t) q1 es ∧
            length (nodes q1) = length (nodes q) ∧
            (∀ i, i ≠ n → nodes q1 !! i = nodes q !! i) ∧
            ∀ q2, insert_node n v q1 = Done (tt, q2) →
                  FastReset.set_value k v (mk_fast q t) = Done (tt, mk_fast q2 t))
    as (q1 & x1 & Hx1 & Hl1 & Hh1 & Hlen1 & Hne1 & Hrun1).
  { destruct (decide (time x = t)) as [Ht|Ht].
    - exists q, x. split_and!; try done. intros q2 Hq2. apply Hsv. unfold bind at 1.
      rewrite (current_live (mk_fast q t) n x Hx Ht).
      apply (lift_eq (set_value_node n v) (mk_fast q t)). cbn [super].
      by rewrite (holding_set_value_node (λ τ, τ = t) q es n x v Hh Hx Ht Hn').
    - destruct (holding_revive (λ τ, τ = t) q es n x t Hh Hx Ht) as [Hh1 _].
      eexists _, _. split_and!; [| |exact Hh1| | |].
      + cbn [nodes]. apply list_lookup_insert_eq. by eapply lookup_lt_Some.
      + done.
      + cbn [nodes]. apply length_insert.
      + intros i Hi. cbn [nodes]. by apply list_lookup_insert_ne.
      + intros q2 Hq2. apply Hsv. unfold bind at 1.
        rewrite (current_stale_run (mk_fast q t) n x Hx Ht). cbn [super now nodes root].
        rewrite lift_insert_node.
        by apply (lift_eq (insert_node n v) (mk_fast _ t)). }
  destruct (holding_insert_node (λ τ, τ = t) q1 es n x1 v Hh1 Hx1 Hl1 Hn')
    as (q2 & Hrun2 & Hh2 & Hlen2 & Hext2 & Hv2 & Hvne2).
  exists (mk_fast q2 t). split_and!.
  - by apply Hrun1.
  - unfold n in Hh2. by rewrite Z2Nat.id in Hh2 by lia.
  - done.
  - cbn [super]. by rewrite Hlen2.
  - rewrite get_value_run by (cbn [super]; lia). f_equal. f_equal.
    unfold fast_value. cbn [super now]. fold n.
    pose proof (Hext2 n) as He. rewrite Hx1 in He. unfold valof in Hv2.
    destruct (nodes q2 !! n) as [x2|]; [|done]. injection He as He. cbn in Hv2.
    cbn. rewrite He, Hl1. by rewrite bool_decide_eq_true_2.
  - intros j u Hj (Hjr & -> & _)%get_value_inv. cbn [super] in Hjr.
    rewrite get_value_run by (cbn [super]; lia). f_equal. f_equal.
    assert (Z.to_nat j ≠ n) as Hjn by (unfold n; lia).
    apply fast_value_same; cbn [super now]; [done|lia|..].
    + by rewrite Hext2, Hne1.
    + rewrite Hvne2 by done. unfold valof. by rewrite Hne1.
Qed.

(** [pop_min], inherited, on the derived class. *)
Lemma fast_holds_pop (max_P : Z) (s : pairing_queue_fast_reset) (es : list entry)
    (key0 val0 : Z) :
  fast_holds s es →
  es ≠ [] →
  ∃ e es' s',
    lift (pop_min key0 val0) s = Done ((true, e.1, e.2), s') ∧
    es ≡ₚ e :: es' ∧
    Forall (entry_le e) es ∧
    fast_holds s' es' ∧
    now s' = now s ∧
    length (nodes (super s')) = length (nodes (super s)) ∧
    (∀ j u, FastReset.get_value max_P j s = Done (u, s) →
            FastReset.get_value max_P j s' = Done (u, s')).
Proof.
  intros Hh Hne. destruct s as [q t]. unfold fast_holds in *. cbn [super now] in *.
  destruct (holding_pop _ q es key0 val0 Hh Hne)
    as (e & es' & q' & Hpop & _ & _ & _ & _ & Hperm & Hmin & Hh' & Hlen & Hdata).
  exists e, es', (mk_fast q' t). split_and!; try done.
  - by apply (lift_eq (pop_min key0 val0) (mk_fast q t)).
  - intros j u (Hjr & -> & _)%get_value_inv. cbn [super] in Hjr.
    rewrite get_value_run by (cbn [super]; lia). f_equal. f_equal.
    apply fast_value_same; cbn [super now]; [done|done|..].
    + specialize (Hdata (Z.to_nat j)).
      destruct (nodes q' !! Z.to_nat j), (nodes q !! Z.to_nat j); cbn in *; try done.
      by injection Hdata as _ ->.
    + by apply data_valof.
Qed.

(** [reset()] of the derived class leaves no live node. *)
Lemma fast_holds_reset (s : pairing_queue_fast_reset) :
  time_inv s →
  now s ≠ INT_MAX →
  ∃ s', FastReset.reset s = Done (tt, s') ∧
    fast_holds s' [] ∧
    now s' = now s + 1 ∧
    length (nodes (super s')) = length (nodes (super s)) ∧
    Forall (λ x, ext x ≠ now s') (nodes (super s')).
Proof.
  intros HI Hnow. destruct (reset_spec s HI Hnow) as (ns & Hrun & Hlen & Hns).
  eexists. split; [exact Hrun|]. cbn [super now nodes]. split_and!; [|done|done|].
  - exists None. split; [|done]. apply heap_inv_empty; [done|].
    cbn [nodes]. intros i x Hx Hl. eapply Forall_lookup_1 in Hns; [|exact Hx].
    unfold time in Hns. cbn in Hns, Hl. lia.
  - eapply Forall_impl; [exact Hns|]. unfold time. cbn. intros; lia.
Qed.

Lemma fast_cdv_run (s : pairing_queue_fast_reset) (k v : Z) (r : outcome (bool * pairing_queue_fast_reset)) :
  0 <= k < Z.of_nat (length (nodes (super s))) →
  (do c <- FastReset.current (Z.to_nat k);
   if c then lift (check_decrease_value_node (Z.to_nat k) v)
   else lift (set_value_node (Z.to_nat k) v) >> ret true) s = r →
  FastReset.check_decrease_value k v s = r.
Proof.
  intros Hk <-. unfold FastReset.check_decrease_value. unfold bind at 1.
  destruct s as [q t]. by rewrite (lift_eq (node_at k) (mk_fast q t) _ q (node_at_Done q k Hk)).
Qed.

(** [check_decrease_value] of the derived class on a stale key: the key
    goes into the heap with the proposed value, whatever the value. *)
Lemma fast_holds_cdv_stale (max_P : Z) (s : pairing_queue_fast_reset)
    (es : list entry) (k v : Z) (x : node Z) :
  fast_holds s es →
  0 <= k →
  nodes (super s) !! Z.to_nat k = Some x →
  ext x ≠ now s →
  ∃ s', FastReset.check_decrease_value k v s = Done (true, s') ∧
    fast_holds s' ((k, v) :: es) ∧
    now s' = now s ∧
    length (nodes (super s')) = length (nodes (super s)) ∧
    FastReset.get_value max_P k s' = Done (v, s') ∧
    (∀ i, i ≠ Z.to_nat k →
          ext <$> nodes (super s') !! i = ext <$> nodes (super s) !! i ∧
          valof (nodes (super s')) i = valof (nodes (super s)) i).
Proof.
  intros Hh Hk0 Hx Ht. destruct s as [q t]. unfold fast_holds in *. cbn [super now] in *.
  set (n := Z.to_nat k) in *.
  assert (0 <= k < Z.of_nat (length (nodes q))) as Hk.
  { apply lookup_lt_Some in Hx. lia. }
  destruct (holding_revive (λ τ, τ = t) q es n x t Hh Hx Ht) as [Hh1 Hn'].
  set (q1 := mk_queue (<[n := mk_node (val x) None None (Some n) t]> (nodes q)) (root q)) in *.
  assert (nodes q1 !! n = Some (mk_node (val x) None None (Some n) t)) as Hx1.
  { cbn [nodes q1]. apply list_lookup_insert_eq. by eapply lookup_lt_Some. }
  destruct (holding_insert_node (λ τ, τ = t) q1 es n _ v Hh1 Hx1 eq_refl Hn')
    as (q2 & Hrun2 & Hh2 & Hlen2 & Hext2 & Hv2 & Hvne2).
  exists (mk_fast q2 t). split_and!.
  - apply fast_cdv_run; [done|]. fold n. unfold bind at 1.
    rewrite (current_stale_run (mk_fast q t) n x Hx Ht). cbn [super now nodes root].
    fold q1. unfold bind.
    rewrite (lift_eq (set_value_node n v) (mk_fast q1 t) tt q2); [done|]. cbn [super].
    by rewrite (holding_set_value_node (λ τ, τ = t) q1 es n _ v Hh1 Hx1 eq_refl Hn').
  - unfold n in Hh2. by rewrite Z2Nat.id in Hh2 by lia.
  - done.
  - cbn [super]. rewrite Hlen2. cbn [q1 nodes]. apply length_insert.
  - rewrite get_value_run by (cbn [super]; rewrite Hlen2; cbn [q1 nodes]; rewrite length_insert; lia).
    f_equal. f_equal. unfold fast_value. cbn [super now]. fold n.
    pose proof (Hext2 n) as He. rewrite Hx1 in He. unfold valof in Hv2.
    destruct (nodes q2 !! n) as [x2|]; [|done]. injection He as He. cbn in Hv2, He.
    cbn. rewrite He. by rewrite bool_decide_eq_true_2.
  - intros i Hi. cbn [super]. split.
    + rewrite Hext2. cbn [q1 nodes]. by rewrite list_lookup_insert_ne.
    + rewrite Hvne2 by done. unfold valof. cbn [q1 nodes]. by rewrite list_lookup_insert_ne.
Qed.

(** [check_decrease_value] of the derived class on a live key of the heap
    that is not the root, with a smaller value. *)
Lemma fast_holds_cdv_lower (max_P : Z) (s : pairing_queue_fast_reset)
    (es es' : list entry) (k w v : Z) :
  fast_holds s es →
  es ≡ₚ (k, w) :: es' →
  v < w →
  root (super s) ≠ Some (Z.to_nat k) →
  ∃ s', FastReset.check_decrease_value k v s = Done (true, s') ∧
    fast_holds s' ((k, v) :: es') ∧
    now s' = now s ∧
    length (nodes (super s')) = length (nodes (super s)) ∧
    FastReset.get_value max_P k s' = Done (v, s').
Proof.
  intros Hh Hperm Hv Hroot. destruct s as [q t]. unfold fast_holds in *. cbn [super now] in *.
  assert (∃ x, nodes q !! Z.to_nat k = Some x ∧ ext x = t) as (x0 & Hx0 & Ht).
  { destruct Hh as (tr & (_ & _ & Hlive & _) & Hk & _). apply Hlive. rewrite Hk, Hperm.
    apply list_elem_of_here. }
  destruct (holding_decrease _ q es es' k w v Hh Hperm) as
    (q' & x & Hx & Hw & Hp & Hk & Hrun & Hh' & Hlen & Hext & Hv' & Hvne); [lia|done|].
  rewrite Hx in Hx0. injection Hx0 as <-.
  exists (mk_fast q' t). split_and!; try done.
  - apply fast_cdv_run; [done|]. unfold bind at 1.
    rewrite (current_live (mk_fast q t) _ x Hx Ht).
    apply (lift_eq (check_decrease_value_node (Z.to_nat k) v) (mk_fast q t)). cbn [super].
    unfold check_decrease_value_node. unfold bind at 1. unfold load at 1. rewrite Hx.
    rewrite bool_decide_eq_true_2 by lia.
    unfold decrease_value_node in Hrun. apply bind_Done in Hrun as ([] & q1 & H1 & H2).
    unfold bind. by rewrite H1, H2.
  - rewrite get_value_run by (cbn [super]; lia). f_equal. f_equal.
    unfold fast_value. cbn [super now].
    pose proof (Hext (Z.to_nat k)) as He. rewrite Hx in He. unfold valof in Hv'.
    destruct (nodes q' !! Z.to_nat k) as [x2|]; [|done]. injection He as He. cbn in Hv', He.
    cbn. rewrite He, Ht. by rewrite bool_decide_eq_true_2.
Qed.

(** [check_decrease_value] of the derived class on a live key, with a value
    that is not smaller: nothing changes. *)
Lemma fast_cdv_noop (s : pairing_queue_fast_reset) (k v : Z) (x : node Z) :
  0 <= k →
  nodes (super s) !! Z.to_nat k = Some x →
  ext x = now s →
  ¬ v < val x →
  FastReset.check_decrease_value k v s = Done (false, s).
Proof.
  intros Hk0 Hx Ht Hv.
  apply fast_cdv_run; [apply lookup_lt_Some in Hx; lia|]. unfold bind at 1.
  rewrite (current_live s _ x Hx Ht). destruct s as [q t].
  apply (lift_eq (check_decrease_value_node (Z.to_nat k) v) (mk_fast q t)).
  by apply check_decrease_value_node_noop with x.
Qed.

(** X11 (part_000, [pairing_queue_fast_reset::set_value],
    [current], [get_value]): on a fast-reset queue that holds
    the entries [es], [set_value(k, v)] with a key in range that is not
    among them, stale or not, returns and leaves a queue that holds [(k, v)]
    and [es]; [get_value(k)] is then [v] and [get_value] of every other key
    is what it was. *)
Theorem fast_set_value_inserts (max_P : Z) (s : pairing_queue_fast_reset)
    (es : list entry) (k v : Z) :
  fast_holds s es →
  0 <= k < Z.of_nat (length (nodes (super s))) →
  k ∉ es.*1 →
  ∃ s', FastReset.set_value k v s = Done (tt, s') ∧
    fast_holds s' ((k, v) :: es) ∧
    now s' = now s ∧
    length (nodes (super s')) = length (nodes (super s)) ∧
    FastReset.get_value max_P k s' = Done (v, s') ∧
    (∀ j u, j ≠ k → FastReset.get_value max_P j s = Done (u, s) →
            FastReset.get_value max_P j s' = Done (u, s')).
Proof. apply fast_holds_set_value. Qed.

(** X12 (part_000, [pop_min] on a [pairing_queue_fast_reset]): on a
    fast-reset queue that holds entries, the inherited [pop_min] returns
    true with an entry that no entry of the queue is before, and leaves the
    other entries; [get_value] of every key is what it was. *)
Theorem fast_pop_min_returns_minimum (max_P : Z) (s : pairing_queue_fast_reset)
    (es : list entry) (key0 val0 : Z) :
  fast_holds s es →
  es ≠ [] →
  ∃ e es' s',
    fast_call max_P (Base (PopMin key0 val0)) s = Done (OPop true e.1 e.2, s') ∧
    es ≡ₚ e :: es' ∧
    Forall (entry_le e) es ∧
    fast_holds s' es' ∧
    now s' = now s ∧
    length (nodes (super s')) = length (nodes (super s)) ∧
    (∀ j u, FastReset.get_value max_P j s = Done (u, s) →
            FastReset.get_value max_P j s' = Done (u, s')).
Proof.
  intros Hh Hne.
  destruct (fast_holds_pop max_P s es key0 val0 Hh Hne)
    as (e & es' & s' & Hpop & Hrest).
  exists e, es', s'. split; [|done].
  apply lift_Done in Hpop as (q' & Hpop & ->). cbn [fast_call].
  apply (lift_eq (call max_P (PopMin key0 val0)) s). cbn [call].
  unfold obs_pop, bind. by rewrite Hpop.
Qed.

(** X13 (part_000,
    [pairing_queue_fast_reset::check_decrease_value]): on a fast-reset queue
    that holds the entries [es], [check_decrease_value(k, v)] on a stale key
    returns true and puts [(k, v)] into the queue, whatever [v] is; on a key
    of the queue that [min_key] does not report, with [v] below its value,
    it returns true and the key holds [v]; on a live key with [v] not below
    its value it returns false and changes nothing. *)
Theorem fast_check_decrease_value_relaxes (max_P : Z)
    (s : pairing_queue_fast_reset) (es : list entry) (k v : Z) (x : node Z) :
  fast_holds s es →
  0 <= k →
  nodes (super s) !! Z.to_nat k = Some x →
  (time x ≠ now s →
   ∃ s', FastReset.check_decrease_value k v s = Done (true, s') ∧
     fast_holds s' ((k, v) :: es) ∧
     FastReset.get_value max_P k s' = Done (v, s')) ∧
  (∀ w es', es ≡ₚ (k, w) :: es' → v < w →
     lift min_key s ≠ Done (k, s) →
     ∃ s', FastReset.check_decrease_value k v s = Done (true, s') ∧
       fast_holds s' ((k, v) :: es') ∧
       FastReset.get_value max_P k s' = Done (v, s')) ∧
  (time x = now s → ¬ v < val x →
   FastReset.check_decrease_value k v s = Done (false, s)).
Proof.
  intros Hh Hk Hx. split_and!.
  - intros Ht.
    destruct (fast_holds_cdv_stale max_P s es k v x Hh Hk Hx Ht)
      as (s' & Hrun & Hh' & _ & _ & Hg & _).
    by exists s'.
  - intros w es' Hperm Hv Hmin.
    destruct (fast_holds_cdv_lower max_P s es es' k w v Hh Hperm Hv)
      as (s' & Hrun & Hh' & _ & _ & Hg).
    { intros Hr. apply Hmin. destruct s as [q t]. cbn [super] in Hr.
      apply (lift_eq min_key (mk_fast q t)). cbn [super].
      unfold min_key, bind, get_root, deref, ret. rewrite Hr. unfold key.
      by rewrite Z2Nat.id. }
    by exists s'.
  - intros Ht Hv. by apply (fast_cdv_noop s k v x).
Qed.

(** ** Sorting with the fast-reset queue *)

Definition relax_ops (es : list entry) : list fast_op :=
  (λ e, Base (CheckDecreaseValue e.1 e.2)) <$> es.

Definition stale (s : pairing_queue_fast_reset) (k : Z) : Prop :=
  ∃ x, nodes (super s) !! Z.to_nat k = Some x ∧ ext x ≠ now s.

Lemma run_relax (max_P : Z) (es : list entry) (s : pairing_queue_fast_reset)
    (es0 : list entry) :
  fast_holds s es0 →
  NoDup es.*1 →
  (∀ k, k ∈ es.*1 → 0 <= k ∧ stale s k) →
  ∃ s', run (fast_call max_P) (relax_ops es) s
        = Done (replicate (length es) (OBool true), s') ∧
    fast_holds s' (rev es ++ es0) ∧
    now s' = now s ∧
    length (nodes (super s')) = length (nodes (super s)).
Proof.
  revert s es0. induction es as [|[k v] es IH]; intros s es0 Hh Hnd Hk.
  { by exists s. }
  cbn in Hnd. apply NoDup_cons in Hnd as [Hk1 Hnd].
  destruct (Hk k) as (Hk0 & x & Hx & Ht); [apply list_elem_of_here|].
  destruct (fast_holds_cdv_stale max_P s es0 k v x Hh Hk0 Hx Ht)
    as (s1 & Hrun & Hh1 & Hnow & Hlen & _ & Hsame).
  destruct (IH s1 ((k, v) :: es0) Hh1 Hnd) as (s' & Hrun' & Hh' & Hnow' & Hlen').
  { intros k' Hk'. destruct (Hk k') as (Hk'0 & x' & Hx' & Ht'); [by apply list_elem_of_further|].
    split; [done|]. assert (Z.to_nat k' ≠ Z.to_nat k) as Hne.
    { intros E. apply Hk1. by replace k with k' by lia. }
    destruct (Hsame _ Hne) as [He _]. rewrite Hx' in He.
    destruct (nodes (super s1) !! Z.to_nat k') as [x1|] eqn:Hx1; [|done].
    injection He as He. exists x1. split; [done|]. by rewrite He, Hnow. }
  exists s'. split_and!.
  - cbn [relax_ops fmap list_fmap length replicate].
    eapply run_cons; [|exact Hrun'].
    change (obs_bool (FastReset.check_decrease_value k v) s = Done (OBool true, s1)).
    unfold obs_bool, bind. by rewrite Hrun.
  - cbn [rev]. rewrite <- app_assoc. exact Hh'.
  - by rewrite Hnow'.
  - by rewrite Hlen'.
Qed.

Lemma run_fast_pops (max_P key0 val0 : Z) (n : nat) (es : list entry)
    (s : pairing_queue_fast_reset) :
  fast_holds s es →
  length es = n →
  ∃ out s', run (fast_call max_P) (replicate n (Base (PopMin key0 val0))) s
            = Done (pop_obs <$> out, s') ∧
    out ≡ₚ es ∧
    StronglySorted entry_le out ∧
    fast_holds s' [].
Proof.
  revert es s. induction n as [|n IH]; intros es s Hh Hlen.
  { destruct es; [|done]. exists [], s. split_and!; try done. constructor. }
  assert (es ≠ []) as Hne by by destruct es.
  destruct (fast_holds_pop max_P s es key0 val0 Hh Hne)
    as (e & es' & s1 & Hpop & Hperm & Hmin & Hh1 & _).
  destruct (IH es' s1 Hh1) as (out & s' & Hrun & Hperm' & Hsorted & Hh').
  { apply Permutation_length in Hperm. cbn in Hperm. lia. }
  exists (e :: out), s'. split_and!.
  - cbn [replicate fmap list_fmap]. eapply run_cons; [|exact Hrun].
    apply lift_Done in Hpop as (q' & Hpop & ->). cbn [fast_call].
    apply (lift_eq (call max_P (PopMin key0 val0)) s). cbn [call].
    unfold obs_pop, bind. by rewrite Hpop.
  - by rewrite Hperm, Hperm'.
  - constructor; [done|]. rewrite Hperm'. rewrite Hperm in Hmin.
    by apply Forall_cons in Hmin as [_ ?].
  - done.
Qed.

(** X14 (part_000, the public interface of
    [pairing_queue_fast_reset]): from every state that the constructor and
    public calls lead to, while the counter [now] can still be incremented,
    [reset()], then [check_decrease_value(k, v)] for entries with distinct
    keys in range, then as many [pop_min] calls: every call returns, every
    [check_decrease_value] returns true, the [pop_min] calls return true
    with the entries that went in, each once, in order of value and, among
    equal values, of key; then the queue is empty. *)
Theorem fast_heap_sort (max_P key0 val0 : Z) (s : pairing_queue_fast_reset)
    (es : list entry) :
  reachable max_P s →
  now s < INT_MAX →
  NoDup es.*1 →
  Forall (λ e, 0 <= e.1 < Z.of_nat (length (nodes (super s)))) es →
  ∃ out,
    observed (run (fast_call max_P)
                ([Base Reset] ++ relax_ops es
                 ++ replicate (length es) (Base (PopMin key0 val0)) ++ [Base Empty]) s)
    = Done ([OUnit] ++ replicate (length es) (OBool true)
            ++ (pop_obs <$> out) ++ [OBool true]) ∧
    out ≡ₚ es ∧
    StronglySorted entry_le out.
Proof.
  intros Hs Hnow Hnd Hr. apply reachable_time_inv in Hs.
  destruct (fast_holds_reset s Hs) as (s0 & Hrun0 & Hh0 & Hnow0 & Hlen0 & Hstale); [lia|].
  destruct (run_relax max_P es s0 [] Hh0 Hnd) as (s1 & Hrun1 & Hh1 & Hnow1 & Hlen1).
  { intros k (e & -> & He)%list_elem_of_fmap.
    rewrite Forall_forall in Hr. specialize (Hr e He). split; [lia|].
    destruct (lookup_lt_is_Some_2 (nodes (super s0)) (Z.to_nat e.1)) as [x Hx]; [lia|].
    exists x. split; [done|]. by eapply Forall_lookup_1 in Hstale. }
  rewrite app_nil_r in Hh1.
  destruct (run_fast_pops max_P key0 val0 (length es) (rev es) s1 Hh1)
    as (out & s2 & Hrun2 & Hperm & Hsorted & Hh2).
  { by rewrite length_rev. }
  exists out. split_and!; [|rewrite Hperm; symmetry; apply Permutation_rev|done].
  assert (run (fast_call max_P) [Base Empty] s2 = Done ([OBool true], s2)) as Hrun3.
  { destruct Hh2 as (t & (Hroot & _) & Hk & _). destruct t as [t|].
    - cbn in Hk. apply Permutation_nil_r in Hk. by destruct t.
    - destruct s2 as [q2 t2]. cbn [super] in Hroot. cbn.
      unfold bind, lift, obs_bool, empty, bind, get_root, ret. cbn. by rewrite Hroot. }
  assert (run (fast_call max_P) [Base Reset] s = Done ([OUnit], s0)) as Hrun00.
  { cbn. unfold obs_unit, bind. by rewrite Hrun0. }
  erewrite run_app; [| exact Hrun00 |].
  2: { eapply run_app; [exact Hrun1|]. eapply run_app; [exact Hrun2|exact Hrun3]. }
  done.
Qed.

(** Two fast-reset queues of two nodes to try the theorems on: the queue
    after the constructor and [reset()], and that queue after
    [set_value(0, 5)]. *)
Definition fast_fresh : pairing_queue_fast_reset :=
  mk_fast (mk_queue [mk_node 0 None None None 0; mk_node 0 None None None 0] None) 1.

Definition fast_one : pairing_queue_fast_reset :=
  mk_fast (mk_queue [mk_node 5 None None (Some 0%nat) 1; mk_node 0 None None None 0]
             (Some 0%nat)) 1.

Lemma fast_fresh_holds : fast_holds fast_fresh [].
Proof.
  exists None. split; [|done]. apply heap_inv_empty; [done|].
  intros [|[|i]] x Hx Hl; cbn in Hx; [injection Hx as <-; cbn in Hl; lia..|done].
Qed.

Lemma fast_one_holds : fast_holds fast_one [(0, 5)].
Proof.
  exists (Some (T 0 [])). split; [|split; [done|repeat constructor; cbn; lia]].
  split; [done|]. split; [split_and!|split].
  - by econstructor.
  - by constructor.
  - apply NoDup_singleton.
  - intros i ->%list_elem_of_singleton. by eexists.
  - intros [|[|i]] x Hx Hl Hi; cbn in Hx.
    + exfalso. apply Hi, list_elem_of_here.
    + injection Hx as <-. cbn in Hl. lia.
    + done.
Qed.

Lemma fast_set_value_inserts_witness :
  ∃ s', FastReset.set_value 1 3 fast_fresh = Done (tt, s') ∧
    fast_holds s' [(1, 3)] ∧
    now s' = 1 ∧
    length (nodes (super s')) = 2%nat ∧
    FastReset.get_value 100 1 s' = Done (3, s') ∧
    (∀ j u, j ≠ 1 → FastReset.get_value 100 j fast_fresh = Done (u, fast_fresh) →
            FastReset.get_value 100 j s' = Done (u, s')).
Proof.
  apply (fast_set_value_inserts 100 fast_fresh [] 1 3).
  - apply fast_fresh_holds.
  - cbn. lia.
  - apply not_elem_of_nil.
Defined.

Lemma fast_pop_min_returns_minimum_witness :
  ∃ e es' s',
    fast_call 100 (Base (PopMin 0 0)) fast_one = Done (OPop true e.1 e.2, s') ∧
    [(0, 5)] ≡ₚ e :: es' ∧
    Forall (entry_le e) [(0, 5)] ∧
    fast_holds s' es' ∧
    now s' = 1 ∧
    length (nodes (super s')) = 2%nat ∧
    (∀ j u, FastReset.get_value 100 j fast_one = Done (u, fast_one) →
            FastReset.get_value 100 j s' = Done (u, s')).
Proof.
  apply (fast_pop_min_returns_minimum 100 fast_one [(0, 5)] 0 0).
  - apply fast_one_holds.
  - discriminate.
Defined.

Lemma fast_check_decrease_value_relaxes_witness :
  (time (mk_node 0 None None None 0) ≠ now fast_one →
   ∃ s', FastReset.check_decrease_value 1 9 fast_one = Done (true, s') ∧
     fast_holds s' [(1, 9); (0, 5)] ∧
     FastReset.get_value 100 1 s' = Done (9, s')) ∧
  (∀ w es', [(0, 5)] ≡ₚ (1, w) :: es' → 9 < w →
     lift min_key fast_one ≠ Done (1, fast_one) →
     ∃ s', FastReset.check_decrease_value 1 9 fast_one = Done (true, s') ∧
       fast_holds s' ((1, 9) :: es') ∧
       FastReset.get_value 100 1 s' = Done (9, s')) ∧
  (time (mk_node 0 None None None 0) = now fast_one → ¬ 9 < val (mk_node 0 None None None 0) →
   FastReset.check_decrease_value 1 9 fast_one = Done (false, fast_one)).
Proof.
  apply (fast_check_decrease_value_relaxes 100 fast_one [(0, 5)] 1 9
           (mk_node 0 None None None 0)).
  - apply fast_one_holds.
  - lia.
  - reflexivity.
Defined.

Lemma fast_heap_sort_witness :
  ∃ out,
    observed (run (fast_call 100)
                ([Base Reset] ++ relax_ops [(0, 9); (1, 4)]
                 ++ replicate 2 (Base (PopMin 0 0)) ++ [Base Empty])
                (FastReset.new_queue 2))
    = Done ([OUnit] ++ replicate 2 (OBool true)
            ++ (pop_obs <$> out) ++ [OBool true]) ∧
    out ≡ₚ [(0, 9); (1, 4)] ∧
    StronglySorted entry_le out.
Proof.
  apply (fast_heap_sort 100 0 0 (FastReset.new_queue 2) [(0, 9); (1, 4)]).
  - apply reach_new.
  - reflexivity.
  - cbn. repeat constructor; rewrite ?elem_of_cons, ?elem_of_nil; lia.
  - repeat constructor; cbn; lia.
Defined.

(** ** [set_value_unsafe] *)

(** Writing the value of a node that is not in the heap leaves the heap. *)
Lemma holding_set_val_outside (live : Z → Prop) (q : pairing_queue Z) es (n : nat)
    (x : node Z) (v : Z) :
  holding live q es →
  nodes q !! n = Some x →
  Z.of_nat n ∉ es.*1 →
  holding live (mk_queue (<[n := set_val v x]> (nodes q)) (root q)) es.
Proof.
  intros (t & (Hroot & Ht & Hlive & Hdet) & Hk & Hes) Hx Hn.
  assert (n ∉ okeys t) as Hn'.
  { rewrite Hk. intros Hin. apply Hn. apply list_elem_of_fmap in Hin as (k & Hk' & Hin).
    rewrite Forall_forall in Hes. apply list_elem_of_fmap in Hin as (e & -> & He).
    destruct (Hes e He) as [He0 _]. replace (Z.of_nat n) with e.1 by lia.
    by apply list_elem_of_fmap_2. }
  assert (n < length (nodes q))%nat as Hlt by by eapply lookup_lt_Some.
  set (ns' := <[n := set_val v x]> (nodes q)).
  assert (∀ i, i ≠ n → ns' !! i = nodes q !! i) as Hne.
  { intros i Hi. unfold ns'. by rewrite list_lookup_insert_ne. }
  assert (ns' !! n = Some (set_val v x)) as Hx' by by apply list_lookup_insert_eq.
  exists t. split; [|split; [done|]].
  - split; [done|]. cbn [nodes root]. split; [|split].
    + destruct t as [t|]; [|done]. destruct Ht as (Hr & Ho & Hnd). split_and!; [| |done].
      * eapply rep_same; [|exact Hr]. intros i Hi. apply Hne. by intros ->.
      * eapply ordered_ext; [|exact Ho]. intros i Hi. unfold valof.
        rewrite Hne; [done|]. by intros ->.
    + intros i Hi. rewrite Hne by (by intros ->). by apply Hlive.
    + intros i xi Hxi Hli Hi. destruct (decide (i = n)) as [->|Hin].
      * rewrite Hx' in Hxi. injection Hxi as <-. by apply (Hdet n x).
      * rewrite Hne in Hxi by done. by apply Hdet.
  - rewrite Forall_forall in Hes |- *. intros e He. destruct (Hes e He) as [He0 Hev].
    split; [done|]. cbn [nodes]. unfold valof. rewrite Hne; [done|].
    intros E. apply Hn. rewrite <- E, Z2Nat.id by done. by apply list_elem_of_fmap_2.
Qed.

(** X15 (part_000, [pairing_queue_fast_reset::set_value_unsafe],
    [pairing_queue::set_value_unsafe], [current]): on a fast-reset queue
    that holds the entries [es], [set_value_unsafe(k, v)] with a key in range
    that is not among them returns and leaves a queue that holds the same
    entries: the key is not inserted.  [get_value(k)] is then [v] and
    [get_value] of every other key is what it was. *)
Theorem fast_set_value_unsafe_outside (max_P : Z) (s : pairing_queue_fast_reset)
    (es : list entry) (k v : Z) :
  fast_holds s es →
  0 <= k < Z.of_nat (length (nodes (super s))) →
  k ∉ es.*1 →
  ∃ s', FastReset.set_value_unsafe k v s = Done (tt, s') ∧
    fast_holds s' es ∧
    now s' = now s ∧
    length (nodes (super s')) = length (nodes (super s)) ∧
    root (super s') = root (super s) ∧
    FastReset.get_value max_P k s' = Done (v, s') ∧
    (∀ j u, j ≠ k → FastReset.get_value max_P j s = Done (u, s) →
            FastReset.get_value max_P j s' = Done (u, s')).
Proof.
  intros Hh Hk Hn. destruct s as [q t]. unfold fast_holds in *. cbn [super now] in *.
  destruct (lookup_lt_is_Some_2 (nodes q) (Z.to_nat k)) as [x Hx]; [lia|].
  set (n := Z.to_nat k) in *.
  assert (Z.of_nat n ∉ es.*1) as Hn' by (unfold n; by rewrite Z2Nat.id by lia).
  assert (∃ q1 x1,
            FastReset.current n (mk_fast q t) = Done (bool_decide (ext x = t), mk_fast q1 t) ∧
            nodes q1 !! n = Some x1 ∧ ext x1 = t ∧
            holding (λ τ, τ = t) q1 es ∧
            length (nodes q1) = length (nodes q) ∧
            root q1 = root q ∧
            (∀ i, i ≠ n → nodes q1 !! i = nodes q !! i))
    as (q1 & x1 & Hcur & Hx1 & Hl1 & Hh1 & Hlen1 & Hroot1 & Hne1).
  { destruct (decide (ext x = t)) as [Ht|Ht].
    - exists q, x. rewrite bool_decide_eq_true_2 by done. split_and!; try done.
      by apply (current_live (mk_fast q t) n x Hx Ht).
    - destruct (holding_revive (λ τ, τ = t) q es n x t Hh Hx Ht) as [Hh1 _].
      rewrite bool_decide_eq_false_2 by done. eexists _, _. split_and!; [| | |exact Hh1| | |].
      + apply (current_stale_run (mk_fast q t) n x Hx Ht).
      + cbn [nodes]. apply list_lookup_insert_eq. by eapply lookup_lt_Some.
      + done.
      + cbn [nodes]. apply length_insert.
      + done.
      + intros i Hi. cbn [nodes]. by apply list_lookup_insert_ne. }
  pose proof (holding_set_val_outside _ q1 es n x1 v Hh1 Hx1 Hn') as Hh2.
  set (q2 := mk_queue (<[n := set_val v x1]> (nodes q1)) (root q1)) in *.
  assert (n < length (nodes q1))%nat as Hlt by by eapply lookup_lt_Some.
  exists (mk_fast q2 t). split_and!; try done.
  - unfold FastReset.set_value_unsafe. unfold bind at 1.
    rewrite (lift_eq (node_at k) (mk_fast q t) _ q (node_at_Done q k Hk)). cbn [now].
    fold n. unfold bind at 1. rewrite Hcur.
    apply (lift_eq (set_value_unsafe_node n v) (mk_fast q1 t)). cbn [super].
    unfold set_value_unsafe_node, modify. by rewrite Hx1.
  - cbn [super q2 nodes]. by rewrite length_insert.
  - rewrite get_value_run by (cbn [super q2 nodes]; rewrite length_insert; lia).
    f_equal. f_equal. unfold fast_value. cbn [super now q2 nodes]. fold n.
    rewrite list_lookup_insert_eq by done. cbn. rewrite Hl1.
    by rewrite bool_decide_eq_true_2.
  - intros j u Hj (Hjr & -> & _)%get_value_inv. cbn [super] in Hjr.
    rewrite get_value_run by (cbn [super q2 nodes]; rewrite length_insert; lia).
    f_equal. f_equal. assert (Z.to_nat j ≠ n) as Hjn by (unfold n; lia).
    unfold fast_value. cbn [super now q2 nodes].
    by rewrite list_lookup_insert_ne, Hne1 by done.
Qed.

Lemma fast_set_value_unsafe_outside_witness :
  ∃ s', FastReset.set_value_unsafe 1 3 fast_fresh = Done (tt, s') ∧
    fast_holds s' [] ∧
    now s' = 1 ∧
    length (nodes (super s')) = 2%nat ∧
    root (super s') = None ∧
    FastReset.get_value 100 1 s' = Done (3, s') ∧
    (∀ j u, j ≠ 1 → FastReset.get_value 100 j fast_fresh = Done (u, fast_fresh) →
            FastReset.get_value 100 j s' = Done (u, s')).
Proof.
  apply (fast_set_value_unsafe_outside 100 fast_fresh [] 1 3).
  - apply fast_fresh_holds.
  - cbn. lia.
  - apply not_elem_of_nil.
Defined.

End PairingHeap.

(* ================================================================== *)
(** * The Python front end: label tables, parser and translation *)
(* ================================================================== *)

Module Frontend.
Import Minorminer MinorminerFacts.
Local Open Scope py_scope.

(** * The label tables *)

Lemma ld_find_Some (L : labeldict) (a : label) (i : nat) :
  ld_find L a = Some i → L !! i = Some a.
Proof.
  revert i. induction L as [|b L IH]; intros i; [done|]. cbn.
  destruct (label_eqb b a) eqn:E.
  - intros [= <-]. apply label_eqb_eq in E. by subst.
  - destruct (ld_find L a) as [j|]; [|done]. cbn. intros [= <-]. by apply IH.
Qed.

Lemma ld_find_None (L : labeldict) (a : label) : ld_find L a = None ↔ a ∉ L.
Proof.
  induction L as [|b L IH]; cbn.
  - split; [intros _; apply not_elem_of_nil|done].
  - rewrite not_elem_of_cons. destruct (label_eqb b a) eqn:E.
    + apply label_eqb_eq in E. split; [done|]. intros [? _]. by subst.
    + apply label_eqb_neq in E. destruct (ld_find L a) as [j|]; cbn.
      * split; [done|]. intros [_ H]. by apply IH in H.
      * split; [|done]. intros _. split; [by apply not_eq_sym|]. by apply IH.
Qed.

(** [L[a]] returns an id under which [L] then has [a]; the table keeps what
    it had, grows by at most one label, and stays without repetitions. *)
Lemma ld_getitem_spec (L : labeldict) (a : label) :
  ∃ i L', ld_getitem L a = (i, L') ∧
    L' !! i = Some a ∧
    (L' = L ∨ ((a ∉ L) ∧ L' = L ++ [a])) ∧
    (NoDup L → NoDup L').
Proof.
  unfold ld_getitem. destruct (ld_find L a) as [i|] eqn:E.
  - exists i, L. split_and!; [done|by apply ld_find_Some|by left|done].
  - apply ld_find_None in E. exists (length L), (L ++ [a]). split_and!; [done| |by right|].
    + by apply list_lookup_middle.
    + intros Hnd. apply NoDup_app. split_and!; [done| |apply NoDup_singleton].
      intros x Hx ->%list_elem_of_singleton. done.
Qed.

(** [L'] has the labels of [L] under the ids they had. *)
Definition extends (L L' : labeldict) : Prop := ∃ K, L' = L ++ K.

Lemma extends_refl L : extends L L.
Proof. exists []. by rewrite app_nil_r. Qed.

Lemma extends_trans L1 L2 L3 : extends L1 L2 → extends L2 L3 → extends L1 L3.
Proof. intros [K1 ->] [K2 ->]. exists (K1 ++ K2). by rewrite app_assoc. Qed.

Lemma extends_lookup L L' i a : extends L L' → L !! i = Some a → L' !! i = Some a.
Proof. intros [K ->] H. by apply lookup_app_l_Some. Qed.

Lemma extends_length L L' : extends L L' → (length L <= length L')%nat.
Proof. intros [K ->]. rewrite length_app. lia. Qed.

Lemma extends_same_length L L' : extends L L' → length L' = length L → L' = L.
Proof.
  intros [K ->] H. rewrite length_app in H. destruct K; [by rewrite app_nil_r|cbn in H; lia].
Qed.

Lemma ld_getitem_extends (L : labeldict) (a : label) : extends L (ld_getitem L a).2.
Proof.
  destruct (ld_getitem_spec L a) as (i & L' & -> & _ & [->|[_ ->]] & _); cbn.
  - apply extends_refl.
  - by exists [a].
Qed.

(** * Reading a graph *)

(** The labels behind the ids of the edges of [g]. *)
Definition decode (L : labeldict) (g : input_graph) : list (option label * option label) :=
  (λ e, (L !! e.1, L !! e.2)) <$> g.

(** The labels of an edge list, endpoint by endpoint. *)
Definition endpoints (E : list (label * label)) : list label :=
  E ≫= λ ab, [ab.1; ab.2].

Lemma decode_extends L L' g :
  extends L L' →
  Forall (λ x, is_Some x.1 ∧ is_Some x.2) (decode L g) →
  decode L' g = decode L g.
Proof.
  intros Hext. unfold decode. induction g as [|[i j] g IH]; [done|].
  cbn. intros [[[a Ha] [b Hb]] Hg]%Forall_cons. cbn in *. rewrite IH by done.
  by rewrite Ha, Hb, (extends_lookup _ _ _ _ Hext Ha), (extends_lookup _ _ _ _ Hext Hb).
Qed.

Lemma read_edges_spec (g : input_graph) (L : labeldict) (E : list (label * label)) :
  ∃ gE L', read_edges g L E = (g ++ gE, L') ∧
    extends L L' ∧
    (NoDup L → NoDup L') ∧
    decode L' gE = (λ ab, (Some ab.1, Some ab.2)) <$> E ∧
    (∀ a, a ∈ L' ↔ a ∈ L ∨ a ∈ endpoints E).
Proof.
  revert g L. induction E as [|[a b] E IH]; intros g L.
  { exists [], L. rewrite app_nil_r. split_and!; [done|apply extends_refl|done|done|].
    intros a. cbn. rewrite elem_of_nil. tauto. }
  cbn [read_edges].
  destruct (ld_getitem_spec L a) as (ia & L1 & -> & Ha & H1 & Hnd1).
  destruct (ld_getitem_spec L1 b) as (ib & L2 & -> & Hb & H2 & Hnd2).
  destruct (IH (g ++ [(ia, ib)]) L2) as (gE & L' & -> & Hext & Hnd & Hdec & Hmem).
  assert (extends L L1) as He1.
  { destruct H1 as [->|[_ ->]]; [apply extends_refl|by exists [a]]. }
  assert (extends L1 L2) as He2.
  { destruct H2 as [->|[_ ->]]; [apply extends_refl|by exists [b]]. }
  exists ((ia, ib) :: gE), L'. split_and!.
  - by rewrite <- app_assoc.
  - eapply extends_trans; [exact He1|]. by eapply extends_trans.
  - auto.
  - unfold decode in *. cbn [fmap list_fmap fst snd]. rewrite Hdec. f_equal. f_equal.
    + eapply extends_lookup; [exact Hext|]. by eapply extends_lookup.
    + by eapply extends_lookup.
  - intros x. rewrite Hmem. unfold endpoints. cbn. rewrite !elem_of_cons.
    fold (endpoints E).
    assert (x ∈ L1 ↔ x ∈ L ∨ x = a) as HL1.
    { destruct H1 as [->|[_ ->]].
      - split; [tauto|]. intros [?| ->]; [done|]. by eapply list_elem_of_lookup_2.
      - rewrite elem_of_app, list_elem_of_singleton. tauto. }
    assert (x ∈ L2 ↔ x ∈ L ∨ x = a ∨ x = b) as HL2.
    { destruct H2 as [->|[_ ->]].
      - rewrite HL1. split; [tauto|]. intros [?|[?| ->]]; [tauto..|].
        apply HL1. by eapply list_elem_of_lookup_2.
      - rewrite elem_of_app, list_elem_of_singleton, HL1. tauto. }
    rewrite HL2. tauto.
Qed.

(** X16 (minorminer.pyx, [_read_graph]): [_read_graph(g, E)] on an
    empty graph logs one parse of [E] and returns a table without repeated
    labels, whose labels are the endpoints of [E], and a graph with one edge
    per edge of [E], in order, whose ids stand in the table for the labels
    of that edge. *)
Theorem read_graph_round_trip (E : list (label * label)) :
  ∃ g L, _read_graph [] E = ([ReadGraph E], inr (g, L)) ∧
    NoDup L ∧
    (∀ a, a ∈ L ↔ a ∈ endpoints E) ∧
    decode L g = (λ ab, (Some ab.1, Some ab.2)) <$> E.
Proof.
  destruct (read_edges_spec [] [] E) as (g & L & Hrun & _ & Hnd & Hdec & Hmem).
  exists g, L. split_and!.
  - unfold _read_graph. cbn. by rewrite Hrun.
  - apply Hnd. constructor.
  - intros a. rewrite Hmem, elem_of_nil. tauto.
  - done.
Qed.

(** * What a computation that returns ensures *)

Lemma py_bind_inr {A B} (m : Py A) (f : A → Py B) (t : list event) (b : B) :
  py_bind m f = (t, inr b) ↔
  ∃ t1 a t2, m = (t1, inr a) ∧ f a = (t2, inr b) ∧ t = t1 ++ t2.
Proof.
  unfold py_bind. destruct m as [t1 [e|a]].
  - split; [done|]. by intros (? & ? & ? & [=] & _).
  - destruct (f a) as [t2 r] eqn:E. split.
    + intros [= <- ->]. by exists t1, a, t2.
    + intros (? & ? & ? & [= <- <-] & H & ->). rewrite E in H. by injection H as <- <-.
Qed.

(** [ensures P m]: when [m] returns, what it returns is in [P]. *)
Definition ensures {A} (P : A → Prop) (m : Py A) : Prop :=
  ∀ t a, m = (t, inr a) → P a.

Lemma ensures_ret {A} (P : A → Prop) (a : A) : P a → ensures P (py_ret a).
Proof. intros H t a' [= _ <-]. done. Qed.

Lemma ensures_raise {A} (P : A → Prop) (e : exn) : ensures P (raise e).
Proof. intros t a [=]. Qed.

Lemma ensures_bind {A B} (Q : A → Prop) (P : B → Prop) (m : Py A) (f : A → Py B) :
  ensures Q m → (∀ a, Q a → ensures P (f a)) → ensures P (py_bind m f).
Proof.
  intros Hm Hf t b (t1 & a & t2 & H1 & H2 & _)%py_bind_inr.
  eapply Hf; [|exact H2]. by eapply Hm.
Qed.

Lemma ensures_bind_any {A B} (P : B → Prop) (m : Py A) (f : A → Py B) :
  (∀ a, ensures P (f a)) → ensures P (py_bind m f).
Proof. intros Hf. apply (ensures_bind (λ _, True)); [done|]. intros a _. apply Hf. Qed.

Lemma ensures_if {A} (P : A → Prop) (b : bool) (m1 m2 : Py A) :
  ensures P m1 → ensures P m2 → ensures P (if b then m1 else m2).
Proof. by destruct b. Qed.

(** ** The tables stay without repeated labels *)

Lemma chain_ids_spec (TL : labeldict) (c : list label) (chain : list nat) :
  ∃ ids TL', chain_ids TL c chain = (chain ++ ids, TL') ∧
    extends TL TL' ∧
    (NoDup TL → NoDup TL') ∧
    Forall2 (λ i x, TL' !! i = Some x) ids c.
Proof.
  revert TL chain. induction c as [|x c IH]; intros TL chain.
  { exists [], TL. rewrite app_nil_r. split_and!; [done|apply extends_refl|done|constructor]. }
  cbn [chain_ids].
  destruct (ld_getitem_spec TL x) as (i & TL1 & -> & Hi & H1 & Hnd1).
  destruct (IH TL1 (chain ++ [i])) as (ids & TL' & -> & Hext & Hnd & Hids).
  assert (extends TL TL1) as He1.
  { destruct H1 as [->|[_ ->]]; [apply extends_refl|by exists [x]]. }
  exists (i :: ids), TL'. split_and!.
  - by rewrite <- app_assoc.
  - by eapply extends_trans.
  - auto.
  - constructor; [|done]. by eapply extends_lookup.
Qed.

Lemma get_chainmap_loop_spec (C : dict label (list label)) (CMap : chainmap)
    (SL TL : labeldict) :
  ∃ cm SL' TL', get_chainmap_loop C CMap SL TL = (cm, SL', TL') ∧
    extends SL SL' ∧ extends TL TL' ∧
    (NoDup SL → NoDup SL') ∧ (NoDup TL → NoDup TL').
Proof.
  revert CMap SL TL. induction C as [|[a c] C IH]; intros CMap SL TL.
  { exists CMap, SL, TL. split_and!; [done|apply extends_refl..|done|done]. }
  cbn [get_chainmap_loop]. destruct c as [|x c]; [apply IH|].
  destruct (chain_ids_spec TL (x :: c) []) as (ids & TL1 & -> & Het & Hndt & _).
  cbn [app].
  destruct (ld_getitem_spec SL a) as (ia & SL1 & -> & _ & H1 & Hnds).
  destruct (IH (chainmap_insert CMap ia ids) SL1 TL1)
    as (cm & SL' & TL' & -> & Hes' & Het' & Hnds' & Hndt').
  assert (extends SL SL1) as He1.
  { destruct H1 as [->|[_ ->]]; [apply extends_refl|by exists [a]]. }
  exists cm, SL', TL'. split_and!; [done|by eapply extends_trans..|auto|auto].
Qed.

Lemma blob_loop_spec (pin : label) (blob : list label) (Tg : input_graph)
    (TL : labeldict) (nonempty : Z) :
  ∃ Tg' TL' ne, blob_loop pin blob Tg TL nonempty = (Tg', TL', ne) ∧
    extends TL TL' ∧ (NoDup TL → NoDup TL').
Proof.
  revert Tg TL nonempty. induction blob as [|q blob IH]; intros Tg TL nonempty.
  { exists Tg, TL, nonempty. split_and!; [done|apply extends_refl|done]. }
  cbn [blob_loop].
  destruct (ld_getitem_spec TL pin) as (ip & TL1 & -> & _ & H1 & Hnd1).
  destruct (ld_getitem_spec TL1 q) as (iq & TL2 & -> & _ & H2 & Hnd2).
  destruct (IH (Tg ++ [(ip, iq)]) TL2 1) as (Tg' & TL' & ne & -> & Hext & Hnd).
  assert (extends TL TL1) as He1.
  { destruct H1 as [->|[_ ->]]; [apply extends_refl|by exists [pin]]. }
  assert (extends TL1 TL2) as He2.
  { destruct H2 as [->|[_ ->]]; [apply extends_refl|by exists [q]]. }
  exists Tg', TL', ne. split_and!; [done| |auto].
  eapply extends_trans; [exact He1|]. by eapply extends_trans.
Qed.

(** The tables of a state of the suspension loop have no repeated label. *)
Definition tables_ok (s : suspend_state) : Prop := NoDup (s_SL s) ∧ NoDup (s_TL s).

Lemma blobs_loop_ok (v : label) (i : Z) (blobs : list (list label)) (s : suspend_state) :
  tables_ok s → ensures tables_ok (blobs_loop v i blobs s).
Proof.
  revert i s. induction blobs as [|blob blobs IH]; intros i s Hs.
  { by apply ensures_ret. }
  cbn [blobs_loop]. apply ensures_if; [apply ensures_raise|].
  apply ensures_if; [apply ensures_raise|].
  destruct Hs as [Hs Ht].
  destruct (blob_loop_spec (LTuple [LStr PIN; v; LInt i]) blob (s_Tg s) (s_TL s) 0)
    as (Tg' & TL' & ne & -> & _ & Hnd).
  cbn [s_Sg s_Tg s_SL s_TL s_pincount s_fixed]. apply IH.
  destruct (bool_decide (ne ≠ 0)); [|by split; cbn; auto].
  destruct (ld_getitem_spec (s_SL s) v) as (iv & SL1 & -> & _ & _ & Hnd1).
  destruct (ld_getitem_spec SL1 (LTuple [LStr PIN; v; LInt i]))
    as (ip & SL2 & -> & _ & _ & Hnd2).
  split; cbn; auto.
Qed.

Lemma suspend_loop_ok (d : dict label (list (list label))) (s : suspend_state) :
  tables_ok s → ensures tables_ok (suspend_loop d s).
Proof.
  revert s. induction d as [|[v blobs] d IH]; intros s Hs.
  { by apply ensures_ret. }
  cbn [suspend_loop]. eapply ensures_bind; [by apply blobs_loop_ok|]. apply IH.
Qed.

(** * The parser *)

(** The ids of [g] stand in [L] for the labels of the edges [E], edge by
    edge. *)
Definition encodes (L : labeldict) (g : input_graph) (E : list (label * label)) : Prop :=
  decode L g = (λ ab, (Some ab.1, Some ab.2)) <$> E.

Lemma encodes_extends L L' g E : extends L L' → encodes L g E → encodes L' g E.
Proof.
  unfold encodes. intros Hext H. rewrite (decode_extends L L'); [done..|].
  rewrite H. apply Forall_fmap, Forall_true. intros [a b]. cbn. eauto.
Qed.

Lemma encodes_app L g g' E E' :
  encodes L g E → encodes L g' E' → encodes L (g ++ g') (E ++ E').
Proof. unfold encodes, decode. intros H H'. by rewrite !fmap_app, H, H'. Qed.

Lemma encodes_push L g E i j a b :
  encodes L g E → L !! i = Some a → L !! j = Some b →
  encodes L (g ++ [(i, j)]) (E ++ [(a, b)]).
Proof.
  intros H Hi Hj. apply encodes_app; [done|]. unfold encodes, decode. cbn.
  by rewrite Hi, Hj.
Qed.

Lemma step_extends (L L' : labeldict) (a : label) :
  L' = L ∨ ((a ∉ L) ∧ L' = L ++ [a]) → extends L L'.
Proof. intros [->|[_ ->]]; [apply extends_refl|by exists [a]]. Qed.

Lemma sublist_same_length {A} (l k : list A) :
  l `sublist_of` k → (length k <= length l)%nat → l = k.
Proof.
  induction 1 as [|x l k _ IH|x l k Hs _]; cbn; intros Hlen; [done| |].
  - f_equal. apply IH. lia.
  - apply sublist_length in Hs. lia.
Qed.

(** A label is no member of itself: the pin of [v] differs from [v]. *)
Lemma tuple_neq_member (v : label) (l : list label) : v ∈ l → LTuple l ≠ v.
Proof.
  revert l. induction v as [z|s|l' IH] using label_nested_ind; intros l Hl; [done..|].
  intros [= ->]. rewrite Forall_forall in IH. by apply (IH _ Hl l').
Qed.

(** ** What [suspend_chains] is turned into

    The pins, the source edges and the target edges that the suspension of
    [v] by [blobs] stands for, for the blobs numbered from [i]: one pin and
    one source edge for every nonempty blob, one target edge for each of its
    members. *)
Definition pin (v : label) (i : Z) : label := LTuple [LStr PIN; v; LInt i].

Fixpoint blob_pins (v : label) (i : Z) (blobs : list (list label)) : list label :=
  match blobs with
  | [] => []
  | blob :: blobs =>
      (if blob is [] then [] else [pin v i]) ++ blob_pins v (i + 1) blobs
  end.

Fixpoint blob_source_edges (v : label) (i : Z) (blobs : list (list label))
    : list (label * label) :=
  match blobs with
  | [] => []
  | blob :: blobs =>
      (if blob is [] then [] else [(v, pin v i)]) ++ blob_source_edges v (i + 1) blobs
  end.

Fixpoint blob_target_edges (v : label) (i : Z) (blobs : list (list label))
    : list (label * label) :=
  match blobs with
  | [] => []
  | blob :: blobs =>
      ((λ q, (pin v i, q)) <$> blob) ++ blob_target_edges v (i + 1) blobs
  end.

Definition pins (d : dict label (list (list label))) : list label :=
  d ≫= λ vb, blob_pins vb.1 0 vb.2.
Definition pin_source_edges (d : dict label (list (list label))) : list (label * label) :=
  d ≫= λ vb, blob_source_edges vb.1 0 vb.2.
Definition pin_target_edges (d : dict label (list (list label))) : list (label * label) :=
  d ≫= λ vb, blob_target_edges vb.1 0 vb.2.

Lemma blob_loop_inv (p : label) (blob : list label) (Tg : input_graph)
    (TL : labeldict) (ne : Z) (E : list (label * label)) :
  encodes TL Tg E →
  ∃ Tg' TL', blob_loop p blob Tg TL ne = (Tg', TL', if blob is [] then ne else 1) ∧
    extends TL TL' ∧ (NoDup TL → NoDup TL') ∧
    encodes TL' Tg' (E ++ ((λ q, (p, q)) <$> blob)) ∧
    (blob ≠ [] → p ∈ TL').
Proof.
  revert Tg TL ne E. induction blob as [|q blob IH]; intros Tg TL ne E HE.
  { exists Tg, TL. rewrite app_nil_r. split_and!; [done|apply extends_refl|done|done|done]. }
  cbn [blob_loop].
  destruct (ld_getitem_spec TL p) as (ip & TL1 & -> & Hp & H1%step_extends & Hnd1).
  destruct (ld_getitem_spec TL1 q) as (iq & TL2 & -> & Hq & H2%step_extends & Hnd2).
  destruct (IH (Tg ++ [(ip, iq)]) TL2 1 (E ++ [(p, q)])) as (Tg' & TL' & Hrun & Hext & Hnd & Henc & _).
  { apply encodes_push; [|by eapply extends_lookup|done].
    eapply encodes_extends; [|exact HE]. by eapply extends_trans. }
  exists Tg', TL'. split_and!.
  - rewrite Hrun. by destruct blob.
  - eapply extends_trans; [exact H1|]. by eapply extends_trans.
  - auto.
  - cbn [fmap list_fmap]. by rewrite <- app_assoc in Henc.
  - intros _. eapply list_elem_of_lookup_2, extends_lookup; [exact Hext|].
    by eapply extends_lookup.
Qed.

(** What the suspension loop keeps: both tables are the tables of the edge
    lists followed by new labels, among them the pins [P] counted by
    [pincount]; the graphs are the edges [ES] and [ET]; the chains of [F]
    are still in [fixed_chains], except under a pin. *)
Definition sinv (SL0 TL0 : labeldict) (F : dict label (list label)) (s : suspend_state)
    (P : list label) (ES ET : list (label * label)) : Prop :=
  NoDup (s_SL s) ∧ NoDup (s_TL s) ∧
  (∃ K, s_SL s = SL0 ++ K ∧ P `sublist_of` K) ∧
  (∃ K, s_TL s = TL0 ++ K ∧ P `sublist_of` K) ∧
  s_pincount s = Z.of_nat (length P) ∧
  encodes (s_SL s) (s_Sg s) ES ∧
  encodes (s_TL s) (s_Tg s) ET ∧
  (∀ a c, (a, c) ∈ F → a ∉ P → (a, c) ∈ s_fixed s).

Lemma elem_of_dict_set_ne {V} (d : dict label V) (k a : label) (v c : V) :
  (a, c) ∈ d → a ≠ k → (a, c) ∈ dict_set label_eqb d k v.
Proof.
  intros Hd Hne. induction d as [|[k0 v0] d IH]; cbn; [by apply elem_of_nil in Hd|].
  apply elem_of_cons in Hd as [[= <- <-]|Hd].
  - destruct (label_eqb a k) eqn:E; [by apply label_eqb_eq in E|]. apply list_elem_of_here.
  - destruct (label_eqb k0 k); apply list_elem_of_further; auto.
Qed.

Lemma ld_mem_false (L : labeldict) (a : label) : ld_mem L a = false ↔ a ∉ L.
Proof.
  unfold ld_mem. rewrite bool_decide_eq_false, <- ld_find_None.
  destruct (ld_find L a); split; try done. intros []. eauto.
Qed.

Lemma grow_with (L0 K L' : labeldict) (P : list label) (p : label) :
  P `sublist_of` K → extends (L0 ++ K) L' → p ∉ L0 ++ K → p ∈ L' →
  ∃ K', L' = L0 ++ K' ∧ P ++ [p] `sublist_of` K'.
Proof.
  intros HP [K1 ->] Hp Hp'. exists (K ++ K1). split; [by rewrite app_assoc|].
  apply sublist_app; [done|]. apply singleton_sublist_l.
  apply elem_of_app in Hp' as [?|?]; done.
Qed.

Lemma grow_without (L0 K L' : labeldict) (P : list label) :
  P `sublist_of` K → extends (L0 ++ K) L' →
  ∃ K', L' = L0 ++ K' ∧ P `sublist_of` K'.
Proof.
  intros HP [K1 ->]. exists (K ++ K1). split; [by rewrite app_assoc|].
  by apply sublist_inserts_r.
Qed.

Lemma blobs_loop_inv (SL0 TL0 : labeldict) (F : dict label (list label))
    (v : label) (i : Z) (blobs : list (list label)) (s : suspend_state)
    (P : list label) (ES ET : list (label * label)) :
  sinv SL0 TL0 F s P ES ET →
  ensures (λ s', sinv SL0 TL0 F s' (P ++ blob_pins v i blobs)
                   (ES ++ blob_source_edges v i blobs)
                   (ET ++ blob_target_edges v i blobs))
    (blobs_loop v i blobs s).
Proof.
  revert i s P ES ET. induction blobs as [|blob blobs IH]; intros i s P ES ET Hs.
  { apply ensures_ret. cbn. by rewrite !app_nil_r. }
  cbn [blobs_loop blob_pins blob_source_edges blob_target_edges].
  destruct (ld_mem (s_SL s) _) eqn:HpS; [apply ensures_raise|].
  destruct (ld_mem (s_TL s) _) eqn:HpT; [apply ensures_raise|].
  apply ld_mem_false in HpS, HpT. fold (pin v i) in *.
  rewrite !app_assoc.
  destruct blob as [|q blob].
  { cbn [blob_loop fmap list_fmap]. rewrite bool_decide_eq_false_2 by (intros H; by apply H).
    rewrite !app_nil_r. apply IH. by destruct s. }
  destruct Hs as (HndS & HndT & (KS & HKS & HPS) & (KT & HKT & HPT) & Hcount & HES & HET & HF).
  destruct (blob_loop_inv (pin v i) (q :: blob) (s_Tg s) (s_TL s) 0 ET HET)
    as (Tg' & TL' & -> & HextT & HndT' & HET' & HpT').
  cbn [s_Sg s_Tg s_SL s_TL s_pincount s_fixed].
  rewrite bool_decide_eq_true_2 by done.
  destruct (ld_getitem_spec (s_SL s) v) as (iv & SL1 & -> & Hv & H1 & Hnd1).
  destruct (ld_getitem_spec SL1 (pin v i)) as (ip & SL2 & -> & Hp & H2 & Hnd2).
  assert (pin v i ∉ SL1) as HpS1.
  { destruct H1 as [->|[_ ->]]; [done|].
    rewrite elem_of_app, list_elem_of_singleton. intros [?|Heq]; [done|].
    apply (tuple_neq_member v [LStr PIN; v; LInt i]); [|exact Heq].
    rewrite !elem_of_cons. auto. }
  apply step_extends in H1. apply step_extends in H2.
  assert (extends (s_SL s) SL2) as HextS by by eapply extends_trans.
  apply IH. unfold sinv. cbn [s_Sg s_Tg s_SL s_TL s_pincount s_fixed]. split_and!.
  - auto.
  - auto.
  - rewrite HKS in HextS, HpS. apply (grow_with _ _ _ _ _ HPS HextS HpS).
    by eapply list_elem_of_lookup_2.
  - rewrite HKT in HextT, HpT. apply (grow_with _ _ _ _ _ HPT HextT HpT). by apply HpT'.
  - rewrite length_app. cbn. lia.
  - apply encodes_push; [by eapply encodes_extends|exact (extends_lookup _ _ _ _ H2 Hv)|done].
  - done.
  - intros a c Hac Ha. rewrite elem_of_app, list_elem_of_singleton in Ha.
    apply elem_of_dict_set_ne; [apply HF|]; tauto.
Qed.

Lemma suspend_loop_inv (SL0 TL0 : labeldict) (F : dict label (list label))
    (d : dict label (list (list label))) (s : suspend_state)
    (P : list label) (ES ET : list (label * label)) :
  sinv SL0 TL0 F s P ES ET →
  ensures (λ s', sinv SL0 TL0 F s' (P ++ pins d) (ES ++ pin_source_edges d)
                   (ET ++ pin_target_edges d))
    (suspend_loop d s).
Proof.
  revert s P ES ET. induction d as [|[v blobs] d IH]; intros s P ES ET Hs.
  { apply ensures_ret. cbn. by rewrite !app_nil_r. }
  cbn [suspend_loop]. eapply ensures_bind; [by apply blobs_loop_inv|].
  intros s' Hs'. unfold pins, pin_source_edges, pin_target_edges. cbn [mbind list_bind].
  rewrite !app_assoc. by apply IH.
Qed.

(** ** Chains *)

(** Every nonempty chain of [C] has its key in [SL] and its members in
    [TL]. *)
Definition known (SL TL : labeldict) (C : dict label (list label)) : Prop :=
  ∀ a c, (a, c) ∈ C → c ≠ [] → a ∈ SL ∧ ∀ x, x ∈ c → x ∈ TL.

Lemma extends_elem_of L L' a : extends L L' → a ∈ L → a ∈ L'.
Proof. intros [K ->] H. apply elem_of_app. by left. Qed.

Lemma known_extends SL SL' TL TL' C :
  extends SL SL' → extends TL TL' → known SL TL C → known SL' TL' C.
Proof.
  intros HS HT H a c Hac Hc. destruct (H a c Hac Hc) as [Ha Hx].
  split; [by eapply extends_elem_of|]. intros x Hxc. eapply extends_elem_of; eauto.
Qed.

Lemma get_chainmap_loop_known (C : dict label (list label)) (CMap : chainmap)
    (SL TL : labeldict) :
  ∃ cm SL' TL', get_chainmap_loop C CMap SL TL = (cm, SL', TL') ∧
    extends SL SL' ∧ extends TL TL' ∧
    (NoDup SL → NoDup SL') ∧ (NoDup TL → NoDup TL') ∧
    known SL' TL' C.
Proof.
  revert CMap SL TL. induction C as [|[a c] C IH]; intros CMap SL TL.
  { exists CMap, SL, TL. split_and!; [done|apply extends_refl..|done|done|].
    intros a c Hac. by apply elem_of_nil in Hac. }
  cbn [get_chainmap_loop]. destruct c as [|x c].
  { destruct (IH CMap SL TL) as (cm & SL' & TL' & -> & HS & HT & HndS & HndT & Hk).
    exists cm, SL', TL'. split_and!; [done..|].
    intros a' c' [[= -> ->]|Hac]%elem_of_cons Hc; [done|]. by apply Hk. }
  destruct (chain_ids_spec TL (x :: c) []) as (ids & TL1 & -> & Het & Hndt & Hids).
  cbn [app].
  destruct (ld_getitem_spec SL a) as (ia & SL1 & -> & Hia & H1%step_extends & Hnds).
  destruct (IH (chainmap_insert CMap ia ids) SL1 TL1)
    as (cm & SL' & TL' & -> & Hes' & Het' & Hnds' & Hndt' & Hk).
  exists cm, SL', TL'. split_and!; [done|by eapply extends_trans..|auto|auto|].
  intros a' c' [[= -> ->]|Hac]%elem_of_cons Hc; [|by apply Hk]. split.
  - eapply extends_elem_of; [exact Hes'|]. by eapply list_elem_of_lookup_2.
  - intros y Hy. eapply extends_elem_of; [exact Het'|].
    clear -Hids Hy. induction Hids as [|i z ids' c' Hi _ IHc]; [by apply elem_of_nil in Hy|].
    apply elem_of_cons in Hy as [->|Hy]; [by eapply list_elem_of_lookup_2|by apply IHc].
Qed.

(** ** [__init__] *)

Lemma ensures_guard (b : bool) (e : exn) :
  ensures (λ _, b = false) (if b then raise e else py_ret tt).
Proof. destruct b; [apply ensures_raise|by apply ensures_ret]. Qed.

Lemma check_labels_passed what checkS checkT SL TL :
  ensures (λ _, Z.of_nat (length SL) <= checkS ∧ Z.of_nat (length TL) <= checkT)
    (check_labels what checkS checkT SL TL).
Proof.
  unfold check_labels. repeat case_bool_decide; try apply ensures_raise.
  apply ensures_ret. lia.
Qed.

Lemma opt_int_keeps {A} (f : optional_parameters → A) (params : dict string pyvalue)
    (key : string) (set : Z → optional_parameters → optional_parameters)
    (o : optional_parameters) (x : A) :
  (∀ z o, f (set z o) = f o) → f o = x →
  ensures (λ o', f o' = x) (opt_int params key set o).
Proof.
  intros Hset Ho. unfold opt_int. destruct (dict_get str_eqb params key) as [[z| | |]|];
    cbn; try apply ensures_raise; apply ensures_ret; [by rewrite Hset|done].
Qed.

Definition suspended (params : dict string pyvalue) : dict label (list (list label)) :=
  match dict_get str_eqb params "suspend_chains" with
  | Some (PSuspend d) => d
  | _ => []
  end.

Definition chains_of (params : dict string pyvalue) (key : string) : dict label (list label) :=
  match dict_get str_eqb params key with
  | Some (PChains d) => d
  | _ => []
  end.

Definition seed_of (urandom : Z) (params : dict string pyvalue) : Z :=
  match dict_get str_eqb params "random_seed" with
  | Some (PNum z) => z
  | _ => urandom
  end.

Lemma get_chains_chains_of (params : dict string pyvalue) (key : string) :
  ensures (λ d, d = chains_of params key) (get_chains params key).
Proof.
  unfold get_chains, chains_of. destruct (dict_get str_eqb params key) as [[| | |]|];
    try apply ensures_raise; by apply ensures_ret.
Qed.

(** What a parser that [__init__] returned is made of. *)
Definition parsed (urandom : Z) (S T : list (label * label))
    (params : dict string pyvalue) (_in : _input_parser) : Prop :=
  let d := suspended params in
  SL _in = (read_edges [] [] S).2 ++ pins d ∧
  TL _in = (read_edges [] [] T).2 ++ pins d ∧
  NoDup (SL _in) ∧ NoDup (TL _in) ∧
  encodes (SL _in) (Sg _in) (S ++ pin_source_edges d) ∧
  encodes (TL _in) (Tg _in) (T ++ pin_target_edges d) ∧
  (∀ a c, (a, c) ∈ chains_of params "fixed_chains" → a ∉ pins d → c ≠ [] →
     a ∈ SL _in ∧ ∀ x, x ∈ c → x ∈ TL _in) ∧
  known (SL _in) (TL _in) (chains_of params "initial_chains") ∧
  known (SL _in) (TL _in) (chains_of params "restrict_chains") ∧
  random_seed (opts _in) = Some (seed_of urandom params) ∧
  pincount _in = 0.

Lemma __init___parsed (urandom : Z) (S T : list (label * label))
    (params : dict string pyvalue) :
  ensures (parsed urandom S T params) (__init__ urandom S T params).
Proof.
  unfold __init__. cbv zeta.
  apply ensures_bind_any; intros _.
  do 3 (apply ensures_bind_any; intros ?).
  eapply (ensures_bind (λ o, random_seed o = Some (seed_of urandom params))).
  { unfold seed_of. destruct (dict_get str_eqb params "random_seed") as [[z| | |]|];
      cbn; intros t o'; try done; by intros [= _ <-]. }
  intros o4 Hseed.
  do 8 (eapply ensures_bind;
        [apply (opt_int_keeps random_seed); [done|exact Hseed]|];
        clear Hseed; intros ? Hseed; cbv beta in Hseed).
  eapply (ensures_bind (λ r, r = read_edges [] [] S)).
  { intros t r. unfold _read_graph. cbn. by intros [= _ <-]. }
  intros [Sg0 SL0] HS.
  eapply (ensures_bind (λ r, r = read_edges [] [] T)).
  { intros t r. unfold _read_graph. cbn. by intros [= _ <-]. }
  intros [Tg0 TL0] HT.
  eapply ensures_bind; [apply get_chains_chains_of|]. intros F ->.
  set (F := chains_of params "fixed_chains").
  set (s0 := mk_suspend Sg0 Tg0 SL0 TL0 0 F).
  assert (sinv SL0 TL0 F s0 [] S T) as Hs0.
  { destruct (read_edges_spec [] [] S) as (gS & LS & HrS & _ & HndS & HencS & _).
    destruct (read_edges_spec [] [] T) as (gT & LT & HrT & _ & HndT & HencT & _).
    rewrite HrS in HS. rewrite HrT in HT. injection HS as -> ->. injection HT as -> ->.
    unfold sinv, s0. cbn. split_and!; auto using NoDup_nil_2.
    - exists []. by rewrite app_nil_r.
    - exists []. by rewrite app_nil_r. }
  eapply (ensures_bind (λ s, sinv SL0 TL0 F s (pins (suspended params))
                               (S ++ pin_source_edges (suspended params))
                               (T ++ pin_target_edges (suspended params)))).
  { unfold suspended.
    destruct (dict_get str_eqb params "suspend_chains") as [[z|c|d|]|];
      try apply ensures_raise.
    - by apply (suspend_loop_inv SL0 TL0 F d s0 [] S T).
    - apply ensures_ret. cbn. by rewrite !app_nil_r. }
  clear s0 Hs0.
  intros [Sg1 Tg1 SL1 TL1 pc F1]
    (HndS & HndT & (KS & HKS & HPS) & (KT & HKT & HPT) & Hpc & HencS & HencT & HF).
  cbn [s_Sg s_Tg s_SL s_TL s_pincount s_fixed] in *.
  eapply ensures_bind; [apply ensures_guard|]. intros _ HgS%bool_decide_eq_false.
  eapply ensures_bind; [apply ensures_guard|]. intros _ HgT%bool_decide_eq_false.
  assert (pins (suspended params) = KS) as HKS'.
  { apply sublist_same_length; [done|]. rewrite HKS, length_app in HgS. lia. }
  assert (pins (suspended params) = KT) as HKT'.
  { apply sublist_same_length; [done|]. rewrite HKT, length_app in HgT. lia. }
  subst KS. clear HPS HPT. rewrite <- HKT' in HKT. clear HKT'.
  assert (Z.of_nat (length SL0) + pc = Z.of_nat (length SL1)) as ->.
  { rewrite HKS, length_app. lia. }
  assert (Z.of_nat (length TL0) + pc = Z.of_nat (length TL1)) as ->.
  { rewrite HKT, length_app. lia. }
  clear HgS HgT.
  unfold _get_chainmap.
  destruct (get_chainmap_loop_known F1 [] SL1 TL1)
    as (cm1 & SL2 & TL2 & -> & HeS2 & HeT2 & _ & _ & Hk1).
  eapply ensures_bind; [apply check_labels_passed|]. intros _ [HlS HlT].
  apply extends_same_length in HeS2; [|apply extends_length in HeS2; lia].
  apply extends_same_length in HeT2; [|apply extends_length in HeT2; lia].
  subst SL2 TL2. clear HlS HlT.
  eapply ensures_bind; [apply get_chains_chains_of|]. intros I ->.
  destruct (get_chainmap_loop_known (chains_of params "initial_chains") [] SL1 TL1)
    as (cm2 & SL2 & TL2 & -> & HeS2 & HeT2 & _ & _ & Hk2).
  eapply ensures_bind; [apply check_labels_passed|]. intros _ [HlS HlT].
  apply extends_same_length in HeS2; [|apply extends_length in HeS2; lia].
  apply extends_same_length in HeT2; [|apply extends_length in HeT2; lia].
  subst SL2 TL2. clear HlS HlT.
  eapply ensures_bind; [apply get_chains_chains_of|]. intros R ->.
  destruct (get_chainmap_loop_known (chains_of params "restrict_chains") [] SL1 TL1)
    as (cm3 & SL2 & TL2 & -> & HeS2 & HeT2 & _ & _ & Hk3).
  eapply ensures_bind; [apply check_labels_passed|]. intros _ [HlS HlT].
  apply extends_same_length in HeS2; [|apply extends_length in HeS2; lia].
  apply extends_same_length in HeT2; [|apply extends_length in HeT2; lia].
  subst SL2 TL2. clear HlS HlT.
  apply ensures_ret. unfold parsed. cbn [SL TL Sg Tg opts pincount].
  rewrite <- HS, <- HT. cbn [snd]. split_and!; try done.
  intros k c Hkc Hk Hc. apply Hk1; [|done]. by apply HF.
Qed.

(** ** Translating the chains back *)

Lemma dict_set_new {V} (d : dict label V) (k : label) (v : V) :
  k ∉ dict_keys d → dict_set label_eqb d k v = d ++ [(k, v)].
Proof.
  unfold dict_keys. induction d as [|[k0 v0] d IH]; cbn; [done|].
  rewrite not_elem_of_cons. intros [Hne Hk].
  destruct (label_eqb k0 k) eqn:E; [by apply label_eqb_eq in E|]. by rewrite IH.
Qed.

Lemma chain_labels_spec (L : labeldict) (chain : list nat) :
  Forall (λ z, (z < length L)%nat) chain →
  ∃ ls, chain_labels L chain = ([], inr ls) ∧ Forall2 (λ z a, L !! z = Some a) chain ls.
Proof.
  induction 1 as [|z chain Hz _ (ls & IH & Hls)].
  { exists []. split; [done|constructor]. }
  apply lookup_lt_is_Some_2 in Hz as [a Ha].
  exists (a :: ls). split; [|by constructor].
  cbn [chain_labels]. unfold ld_label, labeldict in *. rewrite Ha, IH. done.
Qed.

(** The chains [cs] are the chains [chains] with labels for ids. *)
Definition labelled (L : labeldict) (chains : list (list nat)) (cs : list (list label)) : Prop :=
  Forall2 (Forall2 (λ z a, L !! z = Some a)) chains cs.

Lemma rchain_loop_spec (_in : _input_parser) (chains : list (list nat)) (n k : nat)
    (rchain : dict label (list label)) :
  NoDup (SL _in) →
  (k + n <= length chains)%nat → (k + n <= length (SL _in))%nat →
  Forall (Forall (λ z, (z < length (TL _in))%nat)) chains →
  dict_keys rchain = take k (SL _in) →
  labelled (TL _in) (take k chains) (dict_values rchain) →
  ∃ r, rchain_loop _in chains (seq k n) rchain = ([], inr r) ∧
    dict_keys r = take (k + n) (SL _in) ∧
    labelled (TL _in) (take (k + n) chains) (dict_values r).
Proof.
  intros Hnd. revert k rchain. induction n as [|n IH]; intros k rchain Hc Hs Hids Hk Hv.
  { exists rchain. by rewrite Nat.add_0_r. }
  cbn [seq rchain_loop].
  destruct (lookup_lt_is_Some_2 chains k) as [c Hck]; [lia|].
  destruct (lookup_lt_is_Some_2 (SL _in) k) as [a Hak]; [lia|].
  destruct (chain_labels_spec (TL _in) c) as (ls & Hrun & Hls).
  { rewrite Forall_forall in Hids. by eapply Hids, list_elem_of_lookup_2. }
  rewrite Hck. unfold ld_label, labeldict in *. rewrite Hak. cbn. rewrite Hrun. cbn.
  rewrite dict_set_new.
  2:{ rewrite Hk. intros (j & Hj)%list_elem_of_lookup_1.
      apply lookup_take_Some in Hj as [Hj Hlt].
      pose proof (NoDup_lookup _ _ _ _ Hnd Hj Hak). lia. }
  destruct (IH (S k) (rchain ++ [(a, ls)])) as (r & -> & Hr1 & Hr2); [lia|lia|done|..].
  - unfold dict_keys in *. rewrite fmap_app, Hk. cbn. by rewrite (take_S_r _ _ a).
  - unfold labelled, dict_values in *. rewrite fmap_app. cbn. rewrite (take_S_r _ _ c) by done.
    apply Forall2_app; [done|]. by constructor.
  - exists r. replace (k + S n)%nat with (S k + n)%nat by lia. done.
Qed.

(** ** Events *)

(** [m] does not log [ev], whether it returns or raises. *)
Definition never {A} (ev : event) (m : Py A) : Prop := ev ∉ m.1.

Lemma never_ret {A} ev (a : A) : never ev (py_ret a).
Proof. apply not_elem_of_nil. Qed.

Lemma never_raise {A} ev (e : exn) : never ev (raise e : Py A).
Proof. apply not_elem_of_nil. Qed.

Lemma never_bind {A B} ev (m : Py A) (f : A → Py B) :
  never ev m → (∀ a, never ev (f a)) → never ev (py_bind m f).
Proof.
  unfold never, py_bind. intros Hm Hf. destruct m as [t [e|a]]; [done|].
  specialize (Hf a). destruct (f a) as [t' r]. cbn in *. rewrite elem_of_app. tauto.
Qed.

Lemma never_emit ev ev' : ev ≠ ev' → never ev (emit ev').
Proof. intros Hne. unfold never. cbn. rewrite list_elem_of_singleton. done. Qed.

Lemma never_check_names ev (keys : list string) : never ev (check_names keys).
Proof.
  induction keys as [|k keys IH]; cbn; [apply never_ret|].
  destruct (mem_str k names); [done|apply never_raise].
Qed.

Ltac never_step :=
  match goal with
  | |- never _ (py_bind _ _) => apply never_bind; [|intros ?]
  | |- never _ (py_ret _) => apply never_ret
  | |- never _ (raise _) => apply never_raise
  | |- never _ (emit _) => by apply never_emit
  | |- never _ (check_names _) => apply never_check_names
  | |- never _ (match ?x with _ => _ end) => destruct x
  end.

Lemma never_opt_int ev params key set o : never ev (opt_int params key set o).
Proof. unfold opt_int, py_int. repeat never_step. Qed.

Lemma never_get_chains ev params key : never ev (get_chains params key).
Proof. unfold get_chains. repeat never_step. Qed.

Lemma never_check_labels ev what checkS checkT SL TL :
  never ev (check_labels what checkS checkT SL TL).
Proof. unfold check_labels. repeat never_step. Qed.

Lemma never_blobs_loop ev v i blobs s : never ev (blobs_loop v i blobs s).
Proof.
  revert i s. induction blobs as [|blob blobs IH]; intros i s; cbn [blobs_loop];
    [apply never_ret|].
  do 2 (never_step; [apply never_raise|]). destruct (blob_loop _ _ _ _ _) as [[??]?]. apply IH.
Qed.

Lemma never_suspend_loop ev d s : never ev (suspend_loop d s).
Proof.
  revert s. induction d as [|[v blobs] d IH]; intros s; cbn [suspend_loop];
    [apply never_ret|].
  apply never_bind; [apply never_blobs_loop|]. intros ?. apply IH.
Qed.

Lemma never_chain_labels ev L chain : never ev (chain_labels L chain).
Proof.
  induction chain as [|z chain IH]; cbn [chain_labels]; [apply never_ret|].
  unfold ld_label. never_step; [by never_step; never_step|].
  never_step; [done|]. never_step.
Qed.

Lemma never_rchain_loop ev _in chains vs rchain :
  never ev (rchain_loop _in chains vs rchain).
Proof.
  revert rchain. induction vs as [|v vs IH]; intros rchain; cbn [rchain_loop];
    [apply never_ret|].
  never_step; [by never_step; never_step|].
  unfold ld_label. never_step; [by never_step; never_step|].
  never_step; [apply never_chain_labels|]. apply IH.
Qed.

(** * What the front end guarantees *)

(** X17 (minorminer.pyx, [_input_parser.__init__]): when the parser
    returns, each of its two label tables is the table read from the edge
    list, followed by the pins of the nonempty blobs of [suspend_chains] in
    the order of the suspension, and has no label twice: no chain, and no
    suspension, brought in any other label. *)
Theorem parser_label_tables (urandom : Z) (S T : list (label * label))
    (params : dict string pyvalue) (t : list event) (_in : _input_parser) :
  __init__ urandom S T params = (t, inr _in) →
  SL _in = (read_edges [] [] S).2 ++ pins (suspended params) ∧
  TL _in = (read_edges [] [] T).2 ++ pins (suspended params) ∧
  NoDup (SL _in) ∧ NoDup (TL _in).
Proof.
  intros H. destruct (__init___parsed _ _ _ _ _ _ H) as (? & ? & ? & ? & _). done.
Qed.

(** X18 (minorminer.pyx, [_input_parser.__init__]): when the parser
    returns, the source graph it hands to the core is the source edges
    followed by one edge (v, pin) for every nonempty blob of
    [suspend_chains[v]], and the target graph is the target edges followed
    by one edge (pin, q) for every member q of such a blob, all read through
    the label tables. *)
Theorem suspension_adds_pin_edges (urandom : Z) (S T : list (label * label))
    (params : dict string pyvalue) (t : list event) (_in : _input_parser) :
  __init__ urandom S T params = (t, inr _in) →
  encodes (SL _in) (Sg _in) (S ++ pin_source_edges (suspended params)) ∧
  encodes (TL _in) (Tg _in) (T ++ pin_target_edges (suspended params)).
Proof.
  intros H. destruct (__init___parsed _ _ _ _ _ _ H) as (_ & _ & _ & _ & ? & ? & _). done.
Qed.

(** X19 (minorminer.pyx, [_input_parser.__init__], [_get_chainmap]):
    when the parser returns, every nonempty chain of [fixed_chains],
    [initial_chains] and [restrict_chains] is keyed by an endpoint of a
    source edge or a pin, and its members are endpoints of target edges or
    pins (for [fixed_chains], a chain keyed by a pin is replaced by the
    suspension and is not looked at).  A chain with any other label makes the
    parser raise. *)
Theorem chain_labels_are_graph_labels (urandom : Z) (S T : list (label * label))
    (params : dict string pyvalue) (t : list event) (_in : _input_parser)
    (key : string) (a : label) (c : list label) (x : label) :
  __init__ urandom S T params = (t, inr _in) →
  key ∈ ["fixed_chains"; "initial_chains"; "restrict_chains"]%string →
  (key = "fixed_chains"%string → a ∉ pins (suspended params)) →
  (a, c) ∈ chains_of params key →
  x ∈ c →
  (a ∈ endpoints S ∨ a ∈ pins (suspended params)) ∧
  (x ∈ endpoints T ∨ x ∈ pins (suspended params)).
Proof.
  intros H Hkey Hpin Hac Hx.
  destruct (__init___parsed _ _ _ _ _ _ H)
    as (HSL & HTL & _ & _ & _ & _ & Hf & Hi & Hr & _).
  assert (c ≠ []) as Hc by (intros ->; by apply elem_of_nil in Hx).
  assert (a ∈ SL _in ∧ ∀ x, x ∈ c → x ∈ TL _in) as [Ha Hxs].
  { rewrite !elem_of_cons in Hkey. destruct Hkey as [->|[->|[->|Hnil]]].
    - apply Hf; auto.
    - by apply Hi.
    - by apply Hr.
    - by apply elem_of_nil in Hnil. }
  specialize (Hxs x Hx). rewrite HSL in Ha. rewrite HTL in Hxs.
  destruct (read_edges_spec [] [] S) as (gS & LS & HrS & _ & _ & _ & HmS).
  destruct (read_edges_spec [] [] T) as (gT & LT & HrT & _ & _ & _ & HmT).
  rewrite HrS in Ha. rewrite HrT in Hxs. cbn [snd] in *.
  apply elem_of_app in Ha. apply elem_of_app in Hxs.
  pose proof (HmS a) as Ha'. pose proof (HmT x) as Hx'.
  pose proof (not_elem_of_nil a). pose proof (not_elem_of_nil x). tauto.
Qed.

(** X20 (minorminer.pyx, [find_embedding]): when the parser returns
    and the core answers with no more chains than there are source labels,
    over ids of target labels, [find_embedding] runs the core once and
    returns a mapping whose keys are the first source labels, one per chain
    and in the order of their ids, and whose values are the chains with
    every id replaced by its target label; the success flag comes with it
    exactly when [return_overlap] is set. *)
Theorem find_embedding_translates (urandom : Z)
    (findEmbedding : input_graph → input_graph → optional_parameters → Z * list (list nat))
    (S T : list (label * label)) (params : dict string pyvalue)
    (t : list event) (_in : _input_parser) (success : Z) (chains : list (list nat)) :
  __init__ urandom S T params = (t, inr _in) →
  findEmbedding (Sg _in) (Tg _in) (opts _in) = (success, chains) →
  (length chains <= length (SL _in))%nat →
  Forall (Forall (λ z, (z < length (TL _in))%nat)) chains →
  ∃ rchain,
    find_embedding urandom findEmbedding S T params
    = (t ++ [FindEmbedding],
       inr (if bool_decide (return_overlap (opts _in) ≠ 0)
            then MappingSuccess rchain success else Mapping rchain)) ∧
    dict_keys rchain = take (length chains) (SL _in) ∧
    labelled (TL _in) chains (dict_values rchain).
Proof.
  intros H HfE Hlen Hids.
  destruct (__init___parsed _ _ _ _ _ _ H) as (_ & _ & Hnd & _ & _ & _ & _ & _ & _ & _ & Hpc).
  destruct (rchain_loop_spec _in chains (length chains) 0 [] Hnd)
    as (r & Hrun & Hkeys & Hvals); [done|done|done|done|constructor|].
  cbn [Nat.add] in Hkeys, Hvals. rewrite firstn_all in Hvals.
  exists (if bool_decide (length chains ≠ 0%nat) then r else []).
  split_and!.
  - unfold find_embedding. rewrite H. cbn [py_bind]. rewrite HfE, Hpc, Z.sub_0_r, Nat2Z.id.
    case_bool_decide as Hz.
    + rewrite Hrun. cbn. by case_bool_decide.
    + cbn. by case_bool_decide.
  - case_bool_decide as Hz; [done|]. by rewrite Hz.
  - case_bool_decide as Hz; [done|]. destruct chains; [constructor|done].
Qed.

(** X21 (minorminer.pyx, [_input_parser.__init__], [find_embedding]): a
    call with [random_seed] among its parameters never reads the operating
    system's entropy, whether it returns or raises, and what it does and
    returns does not depend on what the entropy source would have given. *)
Theorem seeded_call_reads_no_entropy (urandom urandom' : Z)
    (findEmbedding : input_graph → input_graph → optional_parameters → Z * list (list nat))
    (S T : list (label * label)) (params : dict string pyvalue) :
  is_Some (dict_get str_eqb params "random_seed") →
  never Urandom (find_embedding urandom findEmbedding S T params) ∧
  find_embedding urandom findEmbedding S T params
  = find_embedding urandom' findEmbedding S T params.
Proof.
  intros [x Hx]. split.
  - unfold find_embedding, __init__. rewrite Hx. cbv zeta.
    repeat first
      [ apply never_opt_int | apply never_get_chains | apply never_check_labels
      | apply never_suspend_loop | apply never_rchain_loop
      | progress unfold _read_graph, py_int
      | never_step ].
  - unfold find_embedding, __init__. by rewrite Hx.
Qed.

(** ** An input with a suspension, a chain and a seed *)

Definition sample_S : list (label * label) := [(LStr "a", LStr "b")].
Definition sample_T : list (label * label) := [(LInt 0, LInt 1)].
Definition sample_params : dict string pyvalue :=
  [("suspend_chains"%string, PSuspend [(LStr "a", [[LInt 0]])]);
   ("initial_chains"%string, PChains [(LStr "a", [LInt 0])]);
   ("random_seed"%string, PNum 7)].

(** The core of the sample: one chain for each of the three source ids. *)
Definition sample_core (Sg Tg : input_graph) (o : optional_parameters)
    : Z * list (list nat) :=
  (1, [[0%nat]; [1%nat]; [2%nat; 0%nat]]).

(** What the parser logs and returns on the sample. *)
Definition sample_events : list event :=
  Eval vm_compute in (__init__ 0 sample_S sample_T sample_params).1.
Definition sample_in : _input_parser :=
  Eval vm_compute in
    match (__init__ 0 sample_S sample_T sample_params).2 with
    | inr _in => _in
    | inl _ => mk_parser [] [] [] [] default_opts 0
    end.

Lemma parser_label_tables_witness :
  SL sample_in = (read_edges [] [] sample_S).2 ++ pins (suspended sample_params) ∧
  TL sample_in = (read_edges [] [] sample_T).2 ++ pins (suspended sample_params) ∧
  NoDup (SL sample_in) ∧ NoDup (TL sample_in).
Proof.
  apply (parser_label_tables 0 sample_S sample_T sample_params sample_events sample_in).
  vm_compute. reflexivity.
Defined.

Lemma suspension_adds_pin_edges_witness :
  encodes (SL sample_in) (Sg sample_in)
    (sample_S ++ pin_source_edges (suspended sample_params)) ∧
  encodes (TL sample_in) (Tg sample_in)
    (sample_T ++ pin_target_edges (suspended sample_params)).
Proof.
  apply (suspension_adds_pin_edges 0 sample_S sample_T sample_params sample_events sample_in).
  vm_compute. reflexivity.
Defined.

Lemma chain_labels_are_graph_labels_witness :
  (LStr "a" ∈ endpoints sample_S ∨ LStr "a" ∈ pins (suspended sample_params)) ∧
  (LInt 0 ∈ endpoints sample_T ∨ LInt 0 ∈ pins (suspended sample_params)).
Proof.
  apply (chain_labels_are_graph_labels 0 sample_S sample_T sample_params
           sample_events sample_in "initial_chains" (LStr "a") [LInt 0] (LInt 0)).
  - vm_compute. reflexivity.
  - apply list_elem_of_further, list_elem_of_here.
  - discriminate.
  - vm_compute. constructor.
  - apply list_elem_of_here.
Defined.

Lemma find_embedding_translates_witness :
  ∃ rchain,
    find_embedding 0 sample_core sample_S sample_T sample_params
    = (sample_events ++ [FindEmbedding],
       inr (if bool_decide (return_overlap (opts sample_in) ≠ 0)
            then MappingSuccess rchain 1 else Mapping rchain)) ∧
    dict_keys rchain = take 3 (SL sample_in) ∧
    labelled (TL sample_in) [[0%nat]; [1%nat]; [2%nat; 0%nat]] (dict_values rchain).
Proof.
  apply (find_embedding_translates 0 sample_core sample_S sample_T sample_params
           sample_events sample_in 1 [[0%nat]; [1%nat]; [2%nat; 0%nat]]).
  - vm_compute. reflexivity.
  - reflexivity.
  - vm_compute. lia.
  - vm_compute. repeat constructor.
Defined.

Lemma seeded_call_reads_no_entropy_witness :
  never Urandom (find_embedding 0 sample_core sample_S sample_T sample_params) ∧
  find_embedding 0 sample_core sample_S sample_T sample_params
  = find_embedding 1 sample_core sample_S sample_T sample_params.
Proof.
  apply (seeded_call_reads_no_entropy 0 1 sample_core sample_S sample_T sample_params).
  vm_compute. eexists. reflexivity.
Defined.

End Frontend.
